(** * Verification of [frontend/shared/utils/helpers.js]

    A shallow embedding of the helper functions of
    [contentcuration/frontend/shared/utils/helpers.js] and the proofs of
    their specified properties.

    Conventions of the embedding:
    - where the code computes with numbers ([fitToScale],
      [getContainedSize], [generatePdf]) a JavaScript number is a
      binary64 number of the kernel, and the operations round as those
      of JavaScript do; these functions are written over a class of
      arithmetics, so that they can also be read on exact numbers;
    - where the code only compares, truncates or copies a number (a
      chunk size, a number in an array, the id of a license) it is an
      exact rational, or one of the three non-finite values;
    - promises are run to completion by the job queue: a promise is a
      computation over the observable world, and [then] sequences it;
    - arrays and objects live in a store of objects addressed by
      references, so that copying and sharing can be told apart. *)

From Stdlib Require Import ZArith QArith Qcanon Qpower Qminmax Lqa.
From Stdlib Require Import List Ascii String Lia.
From Stdlib Require Import PrimFloat Floats.
From stdpp Require Import base numbers list strings.

Set Warnings "-register-all".

(* ================================================================== *)
(** * Part I: definitions                                              *)
(* ================================================================== *)

(** ** Numbers *)

Inductive number :=
  | Finite (q : Qc)
  | PosInfinity
  | NegInfinity
  | NaN.

Definition num_of_Z (z : Z) : number := Finite (Qc_of_Z z).

(** [a < b] of JavaScript: false as soon as one side is [NaN]. *)
Definition num_lt (a b : number) : bool :=
  match a, b with
  | NaN, _ | _, NaN => false
  | Finite x, Finite y => bool_decide (x < y)%Qc
  | NegInfinity, (Finite _ | PosInfinity) => true
  | Finite _, PosInfinity => true
  | _, _ => false
  end.

Definition num_le (a b : number) : bool :=
  match a, b with
  | NaN, _ | _, NaN => false
  | Finite x, Finite y => bool_decide (x ≤ y)%Qc
  | NegInfinity, _ | _, PosInfinity => true
  | _, _ => false
  end.

Definition sign_inf (positive : bool) : number :=
  if positive then PosInfinity else NegInfinity.

(** [a / b] of JavaScript, with division by zero and the non-finite
    operands written out. *)
Definition num_div (a b : number) : number :=
  match a, b with
  | NaN, _ | _, NaN => NaN
  | Finite x, Finite y =>
      if decide (y = 0%Qc) then
        if decide (x = 0%Qc) then NaN else sign_inf (bool_decide (0 < x)%Qc)
      else Finite (x / y)%Qc
  | Finite _, _ => Finite 0%Qc
  | _, (PosInfinity | NegInfinity) => NaN
  | PosInfinity, Finite y => sign_inf (bool_decide (0 ≤ y)%Qc)
  | NegInfinity, Finite y => sign_inf (negb (bool_decide (0 ≤ y)%Qc))
  end.

(** ** [lodash/chunk]

    [chunk] is imported from lodash (4.17). Its body, for a size that
    is given:
<<
    size = nativeMax(toInteger(size), 0);
    var length = array == null ? 0 : array.length;
    if (!length || size < 1) { return []; }
    var index = 0, resIndex = 0, result = Array(nativeCeil(length / size));
    while (index < length) {
      result[resIndex++] = baseSlice(array, index, (index += size));
    }
    return result;
>> *)

Definition MAX_INTEGER : Z := (2 ^ 53 - 1) * 2 ^ 971.

(** Removal of the fractional part, towards zero. *)
Definition truncate (q : Qc) : Z := Z.quot (Qnum q) (Z.pos (Qden q)).

Definition toInteger (value : number) : Z :=
  match value with
  | Finite q => truncate q
  | PosInfinity => MAX_INTEGER
  | NegInfinity => - MAX_INTEGER
  | NaN => 0
  end.

(** [baseSlice(array, start, end)] for [0 <= start]: [end] is clamped to
    the length of the array. *)
Definition baseSlice {A} (array : list A) (start end_ : Z) : list A :=
  let length := Z.of_nat (length array) in
  let end_ := if (length <? end_)%Z then length else end_ in
  take (Z.to_nat (end_ - start)) (drop (Z.to_nat start) array).

(** The [while] loop; it runs at most [length] times, which bounds
    [fuel]. *)
Fixpoint chunk_loop {A} (fuel : nat) (array : list A) (size index : Z)
  : list (list A) :=
  match fuel with
  | O => []
  | S fuel' =>
      if (index <? Z.of_nat (length array))%Z
      then baseSlice array index (index + size)
             :: chunk_loop fuel' array size (index + size)
      else []
  end.

Definition chunk {A} (array : list A) (size : number) : list (list A) :=
  let size := Z.max (toInteger size) 0 in
  let length := length array in
  if (length =? 0)%nat || (size <? 1)%Z then []
  else chunk_loop length array size 0.

(** ** The store, and JSON

    Arrays and objects are mutable and are handled by reference: the
    store is the list of the objects created so far, and a reference is
    an index in it. Objects are never removed. *)

Definition loc := nat.

(** The values: the primitive values, among them the BigInts and the
    symbols (a symbol is told from the others by a number), and the
    references to objects. *)
Inductive val :=
  | VUndefined
  | VNull
  | VBool (b : bool)
  | VNumber (n : number)
  | VString (s : string)
  | VRef (l : loc)
  | VBigInt (z : Z)
  | VSymbol (id : nat).

(** An array has its elements, in order, and the properties set under
    a key that is not an index: here a negative integer, or an integer
    from [2 ^ 32 - 1] on. A hole of an array is kept as the
    [undefined] that reading it gives. Objects are plain: no [toJSON],
    no accessors. *)
Inductive obj :=
  | OArray (elems : list val) (props : list (Z * val))
  | OObject (fields : list (string * val))
  | OFunction.

Abbreviation heap := (list obj).

(** The outcome of a call: a value and the store it leaves, or an
    exception. *)
Inductive completion (T : Type) :=
  | Return (v : T) (h : heap)
  | Throw.
Global Arguments Return {T} v h.
Global Arguments Throw {T}.

Definition M (T : Type) : Type := heap → completion T.

Global Instance M_ret : MRet M := λ T v h, Return v h.
Global Instance M_bind : MBind M := λ T U f m h,
  match m h with
  | Return v h' => f v h'
  | Throw => Throw
  end.

Definition throw {T} : M T := λ _, Throw.

(** A JSON text, given by the value it writes. *)
Inductive json :=
  | JNull
  | JBool (b : bool)
  | JNumber (q : Qc)
  | JString (s : string)
  | JArray (items : list json)
  | JObject (members : list (string * json)).

(** What serializing a value comes to: an exception, [undefined] (the
    value is left out), or a text. *)
Inductive serialized :=
  | Thrown
  | Omitted
  | Json (j : json).

(** The elements of an array: one that is left out is written [null]. *)
Fixpoint serialize_items (ser : val → serialized) (elems : list val)
  : option (list json) :=
  match elems with
  | [] => Some []
  | v :: elems' =>
      match ser v with
      | Thrown => None
      | Omitted => cons JNull <$> serialize_items ser elems'
      | Json j => cons j <$> serialize_items ser elems'
      end
  end.

(** The fields of an object: one that is left out is dropped. *)
Fixpoint serialize_members (ser : val → serialized)
    (fields : list (string * val)) : option (list (string * json)) :=
  match fields with
  | [] => Some []
  | (k, v) :: fields' =>
      match ser v with
      | Thrown => None
      | Omitted => serialize_members ser fields'
      | Json j => cons (k, j) <$> serialize_members ser fields'
      end
  end.

(** [SerializeJSONProperty]. [fuel] bounds the nesting: a chain of
    references longer than the store has objects goes through one
    object twice, which is the cyclic structure that [JSON.stringify]
    rejects. Non-finite numbers are written [null]; functions,
    symbols and [undefined] are left out; a BigInt makes
    [JSON.stringify] throw a [TypeError]. *)
Fixpoint SerializeJSONProperty (fuel : nat) (h : heap) (v : val) {struct fuel}
  : serialized :=
  match v with
  | VUndefined => Omitted
  | VNull => Json JNull
  | VBool b => Json (JBool b)
  | VNumber (Finite q) => Json (JNumber q)
  | VNumber _ => Json JNull
  | VString s => Json (JString s)
  | VBigInt _ => Thrown
  | VSymbol _ => Omitted
  | VRef l =>
      match fuel with
      | O => Thrown
      | S fuel' =>
          match h !! l with
          | Some (OArray elems _) =>
              match serialize_items (SerializeJSONProperty fuel' h) elems with
              | Some items => Json (JArray items)
              | None => Thrown
              end
          | Some (OObject fields) =>
              match serialize_members (SerializeJSONProperty fuel' h) fields with
              | Some members => Json (JObject members)
              | None => Thrown
              end
          | Some OFunction => Omitted
          | None => Thrown
          end
      end
  end.

(** [JSON.stringify(v)]: the text, or [None] for [undefined]. *)
Definition JSON_stringify (v : val) : M (option json) := λ h,
  match SerializeJSONProperty (S (length h)) h v with
  | Thrown => Throw
  | Omitted => Return None h
  | Json j => Return (Some j) h
  end.

(** The value of a text, built from new objects: those of the items of
    an array, or of the members of an object, come first. *)
Section Revive.
Variable revive : json → heap → val * heap.

Fixpoint revive_items (items : list json) (h : heap) : list val * heap :=
  match items with
  | [] => ([], h)
  | j :: items' =>
      let '(v, h1) := revive j h in
      let '(vs, h2) := revive_items items' h1 in
      (v :: vs, h2)
  end.

Fixpoint revive_members (members : list (string * json)) (h : heap)
  : list (string * val) * heap :=
  match members with
  | [] => ([], h)
  | (k, j) :: members' =>
      let '(v, h1) := revive j h in
      let '(fs, h2) := revive_members members' h1 in
      ((k, v) :: fs, h2)
  end.
End Revive.

Fixpoint revive (j : json) (h : heap) : val * heap :=
  match j with
  | JNull => (VNull, h)
  | JBool b => (VBool b, h)
  | JNumber q => (VNumber (Finite q), h)
  | JString s => (VString s, h)
  | JArray items =>
      let '(elems, h') := revive_items revive items h in
      (VRef (length h'), h' ++ [OArray elems []])
  | JObject members =>
      let '(fields, h') := revive_members revive members h in
      (VRef (length h'), h' ++ [OObject fields])
  end.

(** [JSON.parse(text)]; the text [undefined] is not JSON. *)
Definition JSON_parse (text : option json) : M val :=
  match text with
  | Some j => λ h, let '(v, h') := revive j h in Return v h'
  | None => throw
  end.

(** ** Arrays in the store

    The receivers are arrays, as the documentation of the helpers has
    it; on anything else the operations below throw. So does the code
    where it calls [splice], and where it reads or writes a key of the
    copy of a primitive value; [swapElements] on a plain object, which
    would write the two keys on the copy of the object, is not
    modelled. *)

Definition array_of (h : heap) (arr : val)
  : option (loc * list val * list (Z * val)) :=
  match arr with
  | VRef l =>
      match h !! l with
      | Some (OArray elems props) => Some (l, elems, props)
      | _ => None
      end
  | _ => None
  end.

(** [arr.length] *)
Definition array_length (arr : val) : M Z := λ h,
  match array_of h arr with
  | Some (_, elems, _) => Return (Z.of_nat (length elems)) h
  | None => Throw
  end.

Fixpoint lookup_prop (key : Z) (props : list (Z * val)) : val :=
  match props with
  | [] => VUndefined
  | (k, v) :: props' => if decide (k = key) then v else lookup_prop key props'
  end.

Fixpoint store_prop (key : Z) (v : val) (props : list (Z * val))
  : list (Z * val) :=
  match props with
  | [] => [(key, v)]
  | (k, v') :: props' =>
      if decide (k = key) then (key, v) :: props'
      else (k, v') :: store_prop key v props'
  end.

(** The greatest array index is [2 ^ 32 - 2]: an integer from
    [2 ^ 32 - 1] on is the key of a property, as a negative one is. An
    array has at most [2 ^ 32 - 1] elements, so that an integer below
    its length is an index. *)
Definition MAX_ARRAY_INDEX : Z := 2 ^ 32 - 2.

(** What [arr[idx]] reads in an array. *)
Definition read_index (elems : list val) (props : list (Z * val)) (idx : Z)
  : val :=
  if (idx <? 0)%Z then lookup_prop idx props
  else if (idx <? Z.of_nat (length elems))%Z
       then default VUndefined (elems !! Z.to_nat idx)
       else if (idx <=? MAX_ARRAY_INDEX)%Z then VUndefined
            else lookup_prop idx props.

(** What [arr[idx] = v] makes of an array: past the end the array
    grows, the elements in between being holes. *)
Definition write_index (elems : list val) (props : list (Z * val)) (idx : Z)
    (v : val) : obj :=
  if (idx <? 0)%Z then OArray elems (store_prop idx v props)
  else if (idx <? Z.of_nat (length elems))%Z
       then OArray (<[Z.to_nat idx := v]> elems) props
       else if (idx <=? MAX_ARRAY_INDEX)%Z
            then OArray (elems
                         ++ replicate (Z.to_nat idx - length elems) VUndefined
                         ++ [v]) props
            else OArray elems (store_prop idx v props).

(** [arr[idx]] *)
Definition array_get (arr : val) (idx : Z) : M val := λ h,
  match array_of h arr with
  | Some (_, elems, props) => Return (read_index elems props idx) h
  | None => Throw
  end.

(** [arr[idx] = v] *)
Definition array_set (arr : val) (idx : Z) (v : val) : M () := λ h,
  match array_of h arr with
  | Some (l, elems, props) =>
      Return () (<[l := write_index elems props idx v]> h)
  | None => Throw
  end.

(** Where [splice] starts: a negative [start] counts from the end, and
    the result is clamped to the array. *)
Definition actualStart (len start : Z) : Z :=
  if (start <? 0)%Z then Z.max (len + start) 0 else Z.min start len.

(** [arr.splice(start, deleteCount, ...items)]; the array of the
    removed elements, which no caller keeps, is not created. *)
Definition splice (arr : val) (start deleteCount : Z) (items : list val)
  : M () := λ h,
  match array_of h arr with
  | Some (l, elems, props) =>
      let len := Z.of_nat (length elems) in
      let actualStart := actualStart len start in
      let actualDeleteCount :=
        Z.min (Z.max deleteCount 0) (len - actualStart) in
      let elems' :=
        take (Z.to_nat actualStart) elems ++ items
        ++ drop (Z.to_nat (actualStart + actualDeleteCount)) elems in
      Return () (<[l := OArray elems' props]> h)
  | None => Throw
  end.

(** ** The array helpers *)

Definition insertBefore (arr : val) (idx : Z) (item : val) : M val :=
  text ← JSON_stringify arr;
  newArr ← JSON_parse text;
  let insertAt := Z.max 0 idx in
  _ ← splice newArr insertAt 0 [item];
  mret newArr.

Definition insertAfter (arr : val) (idx : Z) (item : val) : M val :=
  text ← JSON_stringify arr;
  newArr ← JSON_parse text;
  length ← array_length arr;
  let insertAt := Z.min length (idx + 1) in
  _ ← splice newArr insertAt 0 [item];
  mret newArr.

Definition swapElements (arr : val) (idx1 idx2 : Z) : M val :=
  text ← JSON_stringify arr;
  newArr ← JSON_parse text;
  right1 ← array_get newArr idx2;
  right2 ← array_get newArr idx1;
  _ ← array_set newArr idx1 right1;
  _ ← array_set newArr idx2 right2;
  mret newArr.

(** ** Promises and [promiseChunk] *)

Section Promise.
Context {A B E St : Type}.

(** What a promise has come to once the job queue is empty. *)
Inductive settlement (T : Type) :=
  | Fulfilled (v : T)
  | Rejected (e : E)
  | Pending.
Global Arguments Fulfilled {T} v.
Global Arguments Rejected {T} e.
Global Arguments Pending {T}.

(** What [callback] resolves with: an array, whose elements [concat]
    appends, or any other value, which [concat] appends as one
    element. *)
Inductive chunkResults :=
  | ResultArray (l : list B)
  | ResultValue (b : B).

Definition concat_results (results : list B) (r : chunkResults) : list B :=
  match r with
  | ResultArray l => results ++ l
  | ResultValue b => results ++ [b]
  end.

Definition spread (r : chunkResults) : list B := concat_results [] r.

(** The observable history: every invocation of [callback] and every
    settlement of a promise it returned. *)
Inductive event :=
  | Invoked (thingChunk : list A)
  | Settled (thingChunk : list A) (outcome : settlement chunkResults).

Record world := World { cb_state : St; trace : list event }.

(** A promise, as the computation that leads to its settlement. Every
    promise of [promiseChunk] has exactly one continuation attached,
    so running the computation once is running the promise. *)
Definition promise (T : Type) := world → world * settlement T.

Definition Promise_resolve {T} (v : T) : promise T :=
  λ w, (w, Fulfilled v).

(** [p.then(onFulfilled)]: the handler runs once [p] is fulfilled and
    the promise returned follows the handler's promise; a rejection
    passes through, and nothing runs while [p] is pending. *)
Definition then_ {T U} (p : promise T) (onFulfilled : T → promise U)
  : promise U :=
  λ w, match p w with
       | (w', Fulfilled v) => onFulfilled v w'
       | (w', Rejected e) => (w', Rejected e)
       | (w', Pending) => (w', Pending)
       end.

(** The callback: any function of the chunk and of its own state. A
    call that throws, or that returns something without [then], makes
    the handler of the chain throw, which rejects the promise of the
    chain: such a call is a rejection here. *)
Variable callback : list A → St → St * settlement chunkResults.

Definition settle_event (thingChunk : list A)
    (o : settlement chunkResults) : list event :=
  match o with
  | Pending => []
  | _ => [Settled thingChunk o]
  end.

Definition call_callback (thingChunk : list A) : promise chunkResults :=
  λ w, let '(s, o) := callback thingChunk (cb_state w) in
       (World s (trace w ++ Invoked thingChunk :: settle_event thingChunk o),
        o).

Definition promiseChunk (things : list A) (chunkSize : number)
  : promise (list B) :=
  if (length things =? 0)%nat then Promise_resolve []
  else
    fold_left
      (λ promise thingChunk,
         then_ promise (λ results,
           then_ (call_callback thingChunk) (λ chunkResults,
             Promise_resolve (concat_results results chunkResults))))
      (chunk things chunkSize)
      (Promise_resolve []).

(** *** Specification vocabulary *)

(** The chunks on which the callback was invoked, in order. *)
Definition invoked (tr : list event) : list (list A) :=
  omap (λ ev, match ev with Invoked g => Some g | Settled _ _ => None end) tr.

(** [fulfils s gs rs s']: called on the groups [gs] one after the
    other from state [s], the callback fulfils every time, with [rs]. *)
Inductive fulfils : St → list (list A) → list chunkResults → St → Prop :=
  | fulfils_nil s : fulfils s [] [] s
  | fulfils_cons s g gs r rs s1 s2 :
      callback g s = (s1, Fulfilled r) →
      fulfils s1 gs rs s2 →
      fulfils s (g :: gs) (r :: rs) s2.

(** The history of a strictly sequential run: each invocation is
    directly followed by its own settlement. *)
Definition sequential_run (gs : list (list A)) (rs : list chunkResults)
  : list event :=
  flat_map (λ '(g, r), [Invoked g; Settled g (Fulfilled r)]) (zip gs rs).
End Promise.

Global Arguments settlement : clear implicits.
Global Arguments chunkResults : clear implicits.
Global Arguments event : clear implicits.
Global Arguments world : clear implicits.
Global Arguments promise : clear implicits.

(** A partition of [l] in consecutive groups of [n] elements, the last
    one possibly smaller. *)
Definition consecutive_groups {A} (n : nat) (l : list A)
    (gs : list (list A)) : Prop :=
  concat gs = l ∧
  Forall (λ g, 1 ≤ length g ≤ n) gs ∧
  ∀ k g, gs !! k = Some g → S k < length gs → length g = n.

(** ** Arithmetic of numbers *)

Definition num_opp (a : number) : number :=
  match a with
  | Finite x => Finite (- x)%Qc
  | PosInfinity => NegInfinity
  | NegInfinity => PosInfinity
  | NaN => NaN
  end.

Definition num_add (a b : number) : number :=
  match a, b with
  | NaN, _ | _, NaN => NaN
  | Finite x, Finite y => Finite (x + y)%Qc
  | PosInfinity, NegInfinity | NegInfinity, PosInfinity => NaN
  | PosInfinity, _ | _, PosInfinity => PosInfinity
  | NegInfinity, _ | _, NegInfinity => NegInfinity
  end.

Definition num_sub (a b : number) : number := num_add a (num_opp b).

Definition num_mul (a b : number) : number :=
  match a, b with
  | NaN, _ | _, NaN => NaN
  | Finite x, Finite y => Finite (x * y)%Qc
  | Finite x, inf | inf, Finite x =>
      if decide (x = 0%Qc) then NaN
      else if bool_decide (0 < x)%Qc then inf else num_opp inf
  | PosInfinity, PosInfinity | NegInfinity, NegInfinity => PosInfinity
  | PosInfinity, NegInfinity | NegInfinity, PosInfinity => NegInfinity
  end.

(** [ToBoolean] of a number: zero and [NaN] are falsy. *)
Definition num_truthy (a : number) : bool :=
  match a with
  | Finite x => negb (bool_decide (x = 0%Qc))
  | NaN => false
  | _ => true
  end.

Definition isNaN (a : number) : bool :=
  match a with NaN => true | _ => false end.

(** ** [animationThrottle] *)

Section Throttle.
Context {Args : Type}.

(** The function values that [lastCallback] holds, and that are handed
    to [requestAnimationFrame]. *)
Inductive frame_callback :=
  | Noop                      (* () => {} *)
  | CallWith (args : Args).   (* () => { callback(...args);
                                         animationFrameId = null; } *)

(** What the wrapper captures: [callback] and the two variables; and
    the host: the handles given out so far, the list of animation
    frame callbacks, and the invocations of [callback] that have taken
    place. Of [callback] the model keeps whether a call returns
    ([true]) or throws ([false]), which may depend on the arguments and
    on the invocations before. *)
Record throttle := Throttle {
  callback : list Args → Args → bool;
  animationFrameId : option nat;
  lastCallback : frame_callback;
  handles : nat;
  frames : list (nat * frame_callback);
  calls : list Args;
}.

(** The host increments its counter and returns it: a handle is never
    zero. *)
Definition requestAnimationFrame (cb : frame_callback) (t : throttle)
  : nat * throttle :=
  let handle := S (handles t) in
  (handle,
   Throttle (callback t) (animationFrameId t) (lastCallback t) handle
     (frames t ++ [(handle, cb)]) (calls t)).

Definition cancelAnimationFrame (handle : nat) (t : throttle) : throttle :=
  Throttle (callback t) (animationFrameId t) (lastCallback t) (handles t)
    (filter (λ f, f.1 ≠ handle) (frames t)) (calls t).

(** [if (animationFrameId)]: [null] and [0] are falsy. *)
Definition id_truthy (id : option nat) : bool :=
  match id with
  | Some (S _) => true
  | _ => false
  end.

Definition set_animationFrameId (id : option nat) (t : throttle) : throttle :=
  Throttle (callback t) id (lastCallback t) (handles t) (frames t) (calls t).

Definition set_lastCallback (cb : frame_callback) (t : throttle) : throttle :=
  Throttle (callback t) (animationFrameId t) cb (handles t) (frames t)
    (calls t).

(** [animationThrottle(callback)]: fresh variables for the wrapper, in
    a host that has given out [handles0] handles and has no frame
    callback waiting. *)
Definition animationThrottle (callback : list Args → Args → bool)
    (handles0 : nat) : throttle :=
  Throttle callback None Noop handles0 [] [].

Definition throttled (args : Args) (t : throttle) : throttle :=
  let t := set_lastCallback (CallWith args) t in
  if id_truthy (animationFrameId t) then t
  else
    let '(handle, t) := requestAnimationFrame (lastCallback t) t in
    set_animationFrameId (Some handle) t.

(** Running a function value. When [callback] throws, the assignment
    that follows the call is not reached: [animationFrameId] keeps its
    value, and the exception goes to whoever ran the function, the
    host at a refresh or the caller of [flush]. *)
Definition run_frame_callback (t : throttle) (cb : frame_callback)
  : throttle :=
  match cb with
  | Noop => t
  | CallWith args =>
      let returns := callback t (calls t) args in
      let t :=
        Throttle (callback t) (animationFrameId t) (lastCallback t)
          (handles t) (frames t) (calls t ++ [args]) in
      if returns then set_animationFrameId None t else t
  end.

Definition cancel (t : throttle) : throttle :=
  if id_truthy (animationFrameId t) then
    set_animationFrameId None
      (cancelAnimationFrame (default 0 (animationFrameId t)) t)
  else t.

Definition flush (t : throttle) : throttle :=
  let t := cancel t in
  run_frame_callback t (lastCallback t).

(** The display refresh: the host takes the list of animation frame
    callbacks and runs them in order; an exception of one of them is
    reported and does not keep the others from running. *)
Definition tick (t : throttle) : throttle :=
  fold_left run_frame_callback (map snd (frames t))
    (Throttle (callback t) (animationFrameId t) (lastCallback t) (handles t)
       [] (calls t)).
End Throttle.

Global Arguments frame_callback : clear implicits.
Global Arguments throttle : clear implicits.

(** ** [fitToScale] *)

(** The arithmetic of JavaScript numbers that [fitToScale],
    [getContainedSize] and [generatePdf] use. [binary64_arithmetic] is
    what the code computes with: the binary64 numbers of the kernel,
    whose operations round to nearest, ties to even, as [+], [-], [*] and
    [/] of JavaScript do. [exact_arithmetic] is the idealisation that
    does not round; what is stated on it says so. *)
Class Arithmetic (N : Type) := {
  of_Z : Z → N;
  plus : N → N → N;
  minus : N → N → N;
  times : N → N → N;
  divide : N → N → N;
  less_than : N → N → bool;
  truthy : N → bool;
  is_NaN : N → bool;
}.

Global Instance exact_arithmetic : Arithmetic number :=
  {| of_Z := num_of_Z; plus := num_add; minus := num_sub; times := num_mul;
     divide := num_div; less_than := num_lt; truthy := num_truthy;
     is_NaN := isNaN |}.

Fixpoint float_of_positive (p : positive) : float :=
  match p with
  | xH => 1
  | xO p' => 2 * float_of_positive p'
  | xI p' => 2 * float_of_positive p' + 1
  end%float.

Definition float_of_Z (z : Z) : float :=
  match z with
  | Z0 => 0
  | Zpos p => float_of_positive p
  | Zneg p => - float_of_positive p
  end%float.

(** [ToBoolean] of a binary64 number: the zeros and [NaN] are falsy. *)
Definition float_truthy (x : float) : bool :=
  negb (x =? 0)%float && negb (PrimFloat.is_nan x).

Global Instance binary64_arithmetic : Arithmetic float :=
  {| of_Z := float_of_Z; plus := PrimFloat.add; minus := PrimFloat.sub;
     times := PrimFloat.mul; divide := PrimFloat.div;
     less_than := PrimFloat.ltb; truthy := float_truthy;
     is_NaN := PrimFloat.is_nan |}.

Record DOMRect (N : Type) := Rect {
  rect_left : N;
  rect_top : N;
  rect_width : N;
  rect_height : N;
}.
Global Arguments Rect {N} _ _ _ _.
Global Arguments rect_left {N} _.
Global Arguments rect_top {N} _.
Global Arguments rect_width {N} _.
Global Arguments rect_height {N} _.

Definition fitToScale {N} `{Arithmetic N} (boundingRect : DOMRect N)
    (scale : option N) : N :=
  let scale := default (of_Z 1) scale in
  let pageWidth := of_Z 612 in
  let pageHeight := of_Z 792 in
  let scale :=
    if less_than (divide pageHeight scale) (rect_height boundingRect)
    then divide pageHeight (rect_height boundingRect) else scale in
  let scale :=
    if less_than (divide pageWidth scale) (rect_width boundingRect)
    then divide pageWidth (rect_width boundingRect) else scale in
  scale.

Definition Qc_min (x y : Qc) : Qc := if decide (x ≤ y)%Qc then x else y.

(** ** Binary64 numbers and their values

    The kernel gives each binary64 number its sign, mantissa and
    exponent ([Prim2SF]), and specifies each operation as the exact
    operation followed by rounding ([SpecFloat]). The definitions here
    give the value of a number as a rational, and say what it is for a
    number to be a positive real rounded to the format. *)

(** The value of a finite number; zero for the others. *)
Definition SF2Q (x : spec_float) : Q :=
  match x with
  | S754_finite s m e =>
      (if s then -1 else 1) * inject_Z (Z.pos m) * 2 ^ e
  | _ => 0
  end.

Definition float_value (x : float) : Q := SF2Q (Prim2SF x).

(** Neither zero, nor negative, nor infinite, nor [NaN]. *)
Definition positive_finite (x : float) : bool :=
  (0 <? x)%float && (x <? infinity)%float.

(** Zero or positive, and finite. *)
Definition nonnegative_finite (x : float) : bool :=
  (0 <=? x)%float && (x <? infinity)%float.

(** A mantissa and an exponent of the format: at most 53 digits, an
    exponent from -1074 on, and 53 digits above that exponent. *)
Definition canonical (m e : Z) : Prop :=
  (0 < m < 2 ^ 53)%Z ∧ (-1074 ≤ e)%Z ∧ ((-1074 < e)%Z → (2 ^ 52 ≤ m)%Z).

Definition dyadic (m e : Z) : Q := (inject_Z m * 2 ^ e)%Q.

Section Rounding.
Local Open Scope Q_scope.

(** [brackets mrs u]: the number [u] is in the interval of length one
    that starts at the mantissa of [mrs], and the two bits of [mrs] say
    where: at its start when neither is set, at or above its middle
    when the first is set, and at or below its middle unless both
    are. *)
Definition brackets (mrs : shr_record) (u : Q) : Prop :=
  (0 ≤ shr_m mrs)%Z ∧
  inject_Z (shr_m mrs) <= u ∧ u < inject_Z (shr_m mrs) + 1 ∧
  (shr_r mrs || shr_s mrs = true → inject_Z (shr_m mrs) < u) ∧
  (shr_r mrs || shr_s mrs = false → u <= inject_Z (shr_m mrs)) ∧
  (shr_r mrs = true → 2 * inject_Z (shr_m mrs) + 1 <= 2 * u) ∧
  (shr_r mrs && shr_s mrs = false → 2 * u <= 2 * inject_Z (shr_m mrs) + 1).

(** [rounded v out]: [out] is the positive number [v] rounded to the
    format, to nearest. It is zero, a positive number of the format or
    the positive infinity; no number of the format is strictly between
    [v] and [out]; [out], when finite, differs from a [v] of the normal
    range by at most one part in [2 ^ 52]; unless it is the infinity,
    [out] is at least as near to [v] as any number of the format or
    zero; and it is the infinity only from the middle between the
    greatest number of the format and [2 ^ 1024] on. *)
Definition rounded (v : Q) (out : spec_float) : Prop :=
  (out = S754_zero false ∨ out = S754_infinity false ∨
   ∃ mo eo, canonical (Z.pos mo) eo ∧ (eo ≤ 971)%Z ∧
            out = S754_finite false mo eo) ∧
  (∀ mz ez, canonical (Z.pos mz) ez → (ez ≤ 971)%Z →
            v <= dyadic (Z.pos mz) ez →
            SFltb (S754_finite false mz ez) out = false) ∧
  (∀ mz ez, canonical (Z.pos mz) ez →
            dyadic (Z.pos mz) ez <= v →
            SFltb out (S754_finite false mz ez) = false) ∧
  (∀ mo eo, 2 ^ (-1022) <= v → out = S754_finite false mo eo →
            dyadic (Z.pos mo) eo <= v * (1 + 2 ^ (-52)) ∧
            v <= dyadic (Z.pos mo) eo * (1 + 2 ^ (-52))) ∧
  (out ≠ S754_infinity false →
   ∀ mz ez, mz = 0%Z ∨ canonical mz ez →
            (dyadic mz ez <= v → SF2Q out + dyadic mz ez <= 2 * v) ∧
            (v <= dyadic mz ez → 2 * v <= SF2Q out + dyadic mz ez)) ∧
  (out = S754_infinity false →
   2 ^ 1024 + dyadic (2 ^ 53 - 1) 971 <= 2 * v).
End Rounding.

(** The relative error of one rounding in the normal range. *)
Definition epsilon : Q := (2 ^ (-52))%Q.

(** ** [generatePdf] and its helpers *)

(** [a || b] on numbers. *)
Definition num_or {N} `{Arithmetic N} (a b : N) : N :=
  if truthy a then a else b.

(** The text of a node, as UTF-16 code units. *)
Definition code_units := list N.

(** White space and line terminators, which [trim] removes. *)
Definition is_white_space (c : N) : bool :=
  bool_decide (c ∈ [9; 10; 11; 12; 13; 32; 160; 5760; 8232; 8233; 8239;
                    8287; 12288; 65279]%N)
  || ((8192 <=? c)%N && (c <=? 8202)%N).

Fixpoint trimStart (s : code_units) : code_units :=
  match s with
  | c :: s' => if is_white_space c then trimStart s' else s
  | [] => []
  end.

Definition trim (s : code_units) : code_units :=
  reverse (trimStart (reverse (trimStart s))).

(** The test of the regular expression for a character above U+00FF. *)
Definition has_char_above_ff (s : code_units) : bool :=
  existsb (λ c, (255 <? c)%N) s.

(** [s.split(sep)[0]] and [s.split(sep).slice(-1)[0]], for a separator
    of one character. *)
Fixpoint before_first (sep : ascii) (s : string) : string :=
  match s with
  | EmptyString => EmptyString
  | String c s' =>
      if Ascii.eqb c sep then EmptyString else String c (before_first sep s')
  end.

Fixpoint after_last_from (sep : ascii) (s acc : string) : string :=
  match s with
  | EmptyString => acc
  | String c s' =>
      if Ascii.eqb c sep then after_last_from sep s' s'
      else after_last_from sep s' acc
  end.

Definition after_last (sep : ascii) (s : string) : string :=
  after_last_from sep s s.

Definition toLowerCase_ascii (c : ascii) : ascii :=
  let n := N_of_ascii c in
  if ((65 <=? n) && (n <=? 90))%N then ascii_of_N (n + 32) else c.

Fixpoint toLowerCase (s : string) : string :=
  match s with
  | EmptyString => EmptyString
  | String c s' => String (toLowerCase_ascii c) (toLowerCase s')
  end.

(** The properties that every plain object inherits from
    [Object.prototype], each with a value that is truthy (a function,
    or the prototype itself for [__proto__]). *)
Definition Object_prototype : list string :=
  [ "constructor"; "hasOwnProperty"; "isPrototypeOf"; "propertyIsEnumerable";
    "toLocaleString"; "toString"; "valueOf"; "__defineGetter__";
    "__defineSetter__"; "__lookupGetter__"; "__lookupSetter__"; "__proto__" ].

Section PdfData.
(** The numbers of the document: binary64 numbers, or exact ones. *)
Context {N : Type}.

(** What the code reads of an element. [capture_as_image] tells whether
    [attributes['capture-as-image']] is there; [computedStyle] is
    [getPropertyValue] of the computed style; the last four fields are
    those of an image. *)
Record element := Element {
  capture_as_image : bool;
  innerText : code_units;
  tagName : string;
  src : string;
  boundingClientRect : DOMRect N;
  computedStyle : string → string;
  naturalWidth : N;
  naturalHeight : N;
  img_width : N;
  img_height : N;
}.

(** An element and its element children ([children.length] and
    [childElementCount] are the length of that list). *)
Inductive node := Node (el : element) (children : list node).

Inductive doc_call :=
  | NewDocument                       (* new jsPDF('p', 'pt', 'letter') *)
  | AddPage                           (* doc.addPage('letter') *)
  | SetFont (font : option string) (fontStyle : string)
  | SetFontSize (fontSize : N)
  | Text (text : code_units) (x y maxWidth : N) (align : string)
  | AddImage (image : element) (x y w h : N).

(** What visiting a node does: a call on the document, or a promise
    pushed on [promises] whose resolution adds an image made from a
    canvas. *)
Inductive effect :=
  | DocCall (c : doc_call)
  | Html2canvas (target : element) (x y w h : N)
  | SvgCanvas (target : element) (fillStyle : string) (x y w h : N).
End PdfData.

Global Arguments element : clear implicits.
Global Arguments node : clear implicits.
Global Arguments doc_call : clear implicits.
Global Arguments effect : clear implicits.

Section Pdf.
Context {N : Type} `{Arithmetic N}.

(** [parseInt] and [Number] of the host, on the strings of a computed
    style. *)
Variable parseInt : string → N.
Variable Number : string → N.

(** The font names of [doc.getFontList()], with their styles, and the
    names of the properties with a truthy value that the font list
    inherits: [fontList[name]] finds those too. *)
Variable fontList : list (string * list string).
Variable inherited : list string.

Definition insertText (node : element N) (x y maxWidth scale : N)
    (isRtl : option bool) : list (doc_call N) :=
  let isRtl := default false isRtl in
  let style := computedStyle node in
  let font :=
    if bool_decide (style "font-family" ∈ fontList.*1)
       || bool_decide (style "font-family" ∈ inherited)
    then Some (style "font-family") else head (fontList.*1) in
  let fontSize := times (parseInt (style "font-size")) scale in
  let fontStyle := style "font-style" in
  let align := style "text-align" in
  let fontWeight := style "font-weight" in
  let fontWeight :=
    if negb (is_NaN (Number fontWeight)) then
      if less_than (of_Z 400) (Number fontWeight) then "bold" else "normal"
    else if decide (fontWeight = "bolder") then "bold"
    else if decide (fontWeight = "lighter") then "normal"
    else fontWeight in
  let computedFontStyle :=
    if decide (fontStyle = "normal") then
      if decide (fontWeight = "normal") then "normal" else "bold"
    else
      if decide (fontWeight = "normal") then "italic" else "bolditalic" in
  let align :=
    if decide (align = "start") then
      if isRtl then "right" else "left"
    else if decide (align = "end") then
      if isRtl then "left" else "right"
    else align in
  [ SetFont font computedFontStyle;
    SetFontSize fontSize;
    Text (trim (innerText node)) (times scale x) (times scale y)
      (times maxWidth scale) align ].

Definition getContainedSize (img : element N) : N * N :=
  let ratio := divide (naturalWidth img) (naturalHeight img) in
  let width := times (img_height img) ratio in
  let height := img_height img in
  if less_than (img_width img) width
  then (img_width img, divide (img_width img) ratio)
  else (width, height).

Section Recurse.
Variable boundingRect : DOMRect N.
Variable scale : N.

(** What [recurseNodes] does for the node itself, once its children
    have been visited. *)
Definition visit (el : element N) (childElementCount : nat)
  : list (effect N) :=
  let nodeRect := boundingClientRect el in
  let style := computedStyle el in
  let paddingLeft := parseInt (style "padding-left") in
  let marginLeft := parseInt (style "margin-left") in
  let borderLeft := parseInt (style "border-left") in
  let paddingTop := parseInt (style "padding-top") in
  let marginTop := parseInt (style "margin-top") in
  let borderTop := parseInt (style "border-top") in
  let x := plus (plus (plus
             (minus (rect_left nodeRect) (rect_left boundingRect))
             paddingLeft) marginLeft) borderLeft in
  let y := plus (plus (plus
             (minus (rect_top nodeRect) (rect_top boundingRect))
             paddingTop) marginTop) borderTop in
  let width := rect_width nodeRect in
  let height := rect_height nodeRect in
  let isText :=
    (childElementCount =? 0)%nat && negb (length (innerText el) =? 0)%nat in
  let isNonUnicode := isText && has_char_above_ff (innerText el) in
  if capture_as_image el then
    [ Html2canvas el
        (times scale (minus x (divide width (of_Z 2))))
        (times scale y) (times scale width) (times scale height) ]
  else if isNonUnicode then
    [ Html2canvas el
        (times scale (minus x (of_Z 8)))
        (times scale y) (times scale width) (times scale height) ]
  else if isText then
    DocCall <$> insertText el x y width scale None
  else if decide (tagName el = "IMG") then
    let filename := before_first "?" (src el) in
    let extension := after_last "." filename in
    if decide (toLowerCase extension = "svg") then
      [ SvgCanvas el (style "background-color")
          (times scale x) (times scale y)
          (times scale width) (times scale height) ]
    else
      let '(containedWidth, containedHeight) := getContainedSize el in
      [ DocCall (AddImage el (times scale x) (times scale y)
                   (times scale (num_or containedWidth width))
                   (times scale (num_or containedHeight height))) ]
  else [].

Fixpoint recurseNodes (n : node N) : list (effect N) :=
  match n with
  | Node el children =>
      (if negb (length children =? 0)%nat && negb (capture_as_image el)
       then flat_map recurseNodes children else [])
      ++ visit el (length children)
  end.
End Recurse.

(** [doc] tells whether a document is passed; [scale] is the option of
    that name. The promise returned, and [save], are left out. *)
Definition generatePdf (htmlRef : node N) (doc : bool) (scale : option N)
  : list (effect N) :=
  let 'Node root _ := htmlRef in
  let boundingRect := boundingClientRect root in
  let scale :=
    match scale with
    | Some s => if truthy s then s else fitToScale boundingRect None
    | None => fitToScale boundingRect None
    end in
  DocCall (if doc then AddPage else NewDocument)
    :: recurseNodes boundingRect scale htmlRef.
End Pdf.

(** The alignment of a text under the mapping for the direction of its
    context. *)
Definition directional_align (rtl : bool) (align : string) : string :=
  if decide (align = "start") then if rtl then "right" else "left"
  else if decide (align = "end") then if rtl then "left" else "right"
  else align.

(** A leaf with text, all of whose characters are at most U+00FF, and
    that is not captured as an image. *)
Definition native_text {N} (el : element N) : Prop :=
  capture_as_image el = false ∧ innerText el ≠ [] ∧
  has_char_above_ff (innerText el) = false.

(** The alignments of the texts drawn, in order. *)
Definition text_aligns {N} (effects : list (effect N)) : list string :=
  omap (λ e, match e with DocCall (Text _ _ _ _ align) => Some align
                        | _ => None end) effects.

(** ** Specification vocabulary for the store *)

(** [denotes h v j]: in the store [h], the value [v] is the JSON value
    [j], with nothing lost: no [undefined], function or non-finite
    number in it. Two values that denote the same JSON value are equal
    in depth. *)
Inductive denotes (h : heap) : val → json → Prop :=
  | denotes_null : denotes h VNull JNull
  | denotes_bool b : denotes h (VBool b) (JBool b)
  | denotes_number q : denotes h (VNumber (Finite q)) (JNumber q)
  | denotes_string s : denotes h (VString s) (JString s)
  | denotes_array l elems props items :
      h !! l = Some (OArray elems props) →
      Forall2 (denotes h) elems items →
      denotes h (VRef l) (JArray items)
  | denotes_object l fields members :
      h !! l = Some (OObject fields) →
      Forall2 (λ f m, f.1 = m.1 ∧ denotes h f.2 m.2) fields members →
      denotes h (VRef l) (JObject members).

(** The nesting of arrays and objects in a JSON value. *)
Fixpoint depth (j : json) : nat :=
  match j with
  | JArray items => S (foldr (λ j d, depth j `max` d) 0 items)
  | JObject members => S (foldr (λ m d, depth m.2 `max` d) 0 members)
  | _ => 0
  end.

(** The values an object holds. *)
Definition obj_vals (o : obj) : list val :=
  match o with
  | OArray elems props => elems ++ props.*2
  | OObject fields => fields.*2
  | OFunction => []
  end.

(** A value that is no reference to one of the first [n] objects of the
    store. *)
Definition fresh_val (n : nat) (v : val) : Prop :=
  match v with
  | VRef l => n ≤ l
  | _ => True
  end.

(** Objects that hold no reference to one of the first [n] objects of
    the store. *)
Definition fresh_objs (n : nat) (new : list obj) : Prop :=
  Forall (λ o, Forall (fresh_val n) (obj_vals o)) new.

(** The list [l] with [x] put in at position [p], what follows moving
    one place to the right. *)
Definition inserted {T} (p : nat) (x : T) (l : list T) : list T :=
  take p l ++ x :: drop p l.

(** The list [l] with the elements at [i] and [j] exchanged, when both
    are positions of [l]. *)
Definition exchanged {T} (i j : nat) (l : list T) : list T :=
  match l !! i, l !! j with
  | Some x, Some y => <[j := x]> (<[i := y]> l)
  | _, _ => l
  end.

(** [copy_in h items r hf shared]: the store [hf] is [h] followed by
    new objects, of which [r] is the last. The object at [r] holds a
    copy of each of [items]: a value that denotes the item and that is
    no reference to an object of [h]. It holds nothing else but
    [undefined] and the values [shared], and the other new objects
    hold references to new objects only. So nothing of [h] has
    changed, the values of [r] are those of [items], equal in depth,
    and but for [shared] nothing of [h] can be reached from [r]. *)
Definition copy_in (h : heap) (items : list json) (r : loc) (hf : heap)
    (shared : list val) : Prop :=
  ∃ new o copies,
    hf = h ++ new ++ [o] ∧ r = length (h ++ new) ∧
    fresh_objs (length h) new ∧
    Forall (fresh_val (length h)) copies ∧
    Forall2 (denotes hf) copies items ∧
    Forall (λ c, c ∈ obj_vals o) copies ∧
    Forall (λ v, v ∈ copies ∨ v = VUndefined ∨ v ∈ shared) (obj_vals o).

(** ** Stores used as examples *)

Definition VInt (z : Z) : val := VNumber (num_of_Z z).
Definition JInt (z : Z) : json := JNumber (Qc_of_Z z).

(** The array [[1, 2, 3]]. *)
Definition store_123 : heap := [OArray [VInt 1; VInt 2; VInt 3] []].

(** The array [[1, 2]]. *)
Definition store_12 : heap := [OArray [VInt 1; VInt 2] []].

(** The object [{a: 1}], at 0, and the array, at 1, of that object and
    of the number 2. *)
Definition store_nested : heap :=
  [OObject [("a"%string, VInt 1)]; OArray [VRef 0; VInt 2] []].

(** ** Runs of the throttle

    What a user and the host can do with the wrapper, in any order:
    call it, flush it, cancel it, and refresh the display. *)

Section ThrottleRuns.
Context {Args : Type}.

Inductive throttle_op :=
  | Call (args : Args)
  | Flush
  | Cancel
  | Tick.

Definition throttle_step (t : throttle Args) (op : throttle_op)
  : throttle Args :=
  match op with
  | Call args => throttled args t
  | Flush => flush t
  | Cancel => cancel t
  | Tick => tick t
  end.

Definition throttle_run (callback : list Args → Args → bool) (handles0 : nat)
    (ops : list throttle_op) : throttle Args :=
  fold_left throttle_step ops (animationThrottle callback handles0).

Definition is_call (op : throttle_op) : bool :=
  match op with Call _ => true | _ => false end.

(** The operations at which [callback] can run. *)
Definition is_refresh_or_flush (op : throttle_op) : bool :=
  match op with Flush | Tick => true | _ => false end.

Definition is_call_or_refresh (op : throttle_op) : bool :=
  match op with Call _ | Tick => true | _ => false end.

(** Nothing is requested; or the one frame requested last is waiting,
    with the function of some call; or [animationFrameId] is set and
    no frame is waiting, which is how a [callback] that throws at a
    refresh leaves the wrapper. *)
Definition throttle_inv (t : throttle Args) : Prop :=
  (animationFrameId t = None ∧ frames t = []) ∨
  (∃ args, animationFrameId t = Some (handles t) ∧ 0 < handles t ∧
           frames t = [(handles t, CallWith args)]) ∨
  (id_truthy (animationFrameId t) = true ∧ frames t = []).

(** [callback] never throws. *)
Definition always_returns (callback : list Args → Args → bool) : Prop :=
  ∀ before args, callback before args = true.
End ThrottleRuns.

Global Arguments throttle_op : clear implicits.

(** ** Vocabulary for the texts drawn *)

(** The texts drawn, in order. *)
Definition drawn_texts {N} (effects : list (effect N)) : list code_units :=
  omap (λ e, match e with DocCall (Text text _ _ _ _) => Some text
                        | _ => None end) effects.

(** All characters are at most U+00FF. *)
Definition latin1 (s : code_units) : Prop := Forall (λ c, (c ≤ 255)%N) s.

(** No white space at either end. *)
Definition trimmed (s : code_units) : Prop :=
  (∀ c, head s = Some c → is_white_space c = false) ∧
  (∀ c, last s = Some c → is_white_space c = false).

(** ** Vocabulary for the copies of arrays *)

(** A value that is no reference. *)
Definition primitive (v : val) : Prop :=
  match v with VRef _ => False | _ => True end.

Definition bigint (v : val) : Prop :=
  match v with VBigInt _ => True | _ => False end.

(** What writing an element that is a primitive value, and no BigInt,
    as JSON and reading it back gives: [undefined], the symbols and
    the numbers that are not finite come back as [null]. *)
Definition json_copy (v : val) : val :=
  match v with
  | VUndefined | VSymbol _ => VNull
  | VNumber (Finite q) => VNumber (Finite q)
  | VNumber _ => VNull
  | _ => v
  end.

(** [refers h l l']: the array or the object at [l] has the reference
    [l'] among its elements, or among the values of its fields. *)
Definition refers (h : heap) (l l' : loc) : Prop :=
  match h !! l with
  | Some (OArray elems _) => VRef l' ∈ elems
  | Some (OObject fields) => VRef l' ∈ fields.*2
  | _ => False
  end.

(** ** [findLicense]

    [LicensesList] is imported from [shared/leUtils/Licenses]: the
    list, and what a license is beyond its [id] and its
    [license_name], are parameters. A key is a number or a string, and
    [parseInt(key, 10)], of the host, is a parameter as well. *)

Inductive license_key :=
  | KeyNumber (n : number)
  | KeyString (s : string).

(** [a === b] on numbers: [NaN] is equal to nothing. *)
Definition num_strict_eq (a b : number) : bool :=
  match a, b with
  | Finite x, Finite y => bool_decide (x = y)
  | PosInfinity, PosInfinity | NegInfinity, NegInfinity => true
  | _, _ => false
  end.

Section Licenses.
Context {license : Type}.
Variable id : license → number.
Variable license_name : license → string.
Variable LicensesList : list license.
Variable parseInt10 : license_key → number.

(** [license.license_name === key || license.id === parseInt(key, 10)] *)
Definition license_matches (key : license_key) (license : license) : bool :=
  match key with
  | KeyString s => bool_decide (license_name license = s)
  | KeyNumber _ => false
  end
  || num_strict_eq (id license) (parseInt10 key).

(** A license is an object, hence truthy: [license || defaultValue] is
    the license when [find] has found one. The default of
    [defaultValue], an empty object, is one of the values of [D]. *)
Definition findLicense {D} (key : license_key) (defaultValue : D)
  : license + D :=
  match List.find (license_matches key) LicensesList with
  | Some license => inl license
  | None => inr defaultValue
  end.
End Licenses.

(* ================================================================== *)
(** * Part II: theorems                                                *)
(* ================================================================== *)

(** ** [lodash/chunk] *)

Section ChunkFacts.
Context {A : Type}.
Implicit Types (array : list A) (size index : Z).

Lemma baseSlice_take_drop array size index :
  (0 ≤ index)%Z → (0 ≤ size)%Z →
  baseSlice array index (index + size)
  = take (Z.to_nat size) (drop (Z.to_nat index) array).
Proof.
  intros Hi Hs. unfold baseSlice.
  destruct (Z.ltb_spec (Z.of_nat (length array)) (index + size)) as [Hlt|Hge].
  - rewrite !take_ge; [done | rewrite length_drop; lia ..].
  - do 2 f_equal. lia.
Qed.

Lemma chunk_loop_next fuel array size index :
  chunk_loop (S fuel) array size index
  = if (index <? Z.of_nat (length array))%Z
    then baseSlice array index (index + size)
           :: chunk_loop fuel array size (index + size)
    else [].
Proof. reflexivity. Qed.

(** With a step of at least one the loop leaves when [index] has
    reached the end, and what it has collected partitions the rest
    of the array. *)
Lemma chunk_loop_groups fuel array size index :
  (1 ≤ size)%Z → (0 ≤ index)%Z →
  length (drop (Z.to_nat index) array) ≤ fuel →
  consecutive_groups (Z.to_nat size) (drop (Z.to_nat index) array)
    (chunk_loop fuel array size index).
Proof.
  intros Hs. revert index.
  induction fuel as [|fuel IH]; intros index Hi Hfuel.
  - destruct (drop (Z.to_nat index) array) eqn:Hd; [|simpl in Hfuel; lia].
    repeat split; simpl; [constructor | intros k g Hk; done].
  - rewrite chunk_loop_next.
    rewrite length_drop in Hfuel.
    destruct (Z.ltb_spec index (Z.of_nat (length array))) as [Hlt|Hge].
    + rewrite baseSlice_take_drop by lia.
      destruct (IH (index + size)%Z) as (Hcat & Hall & Hfull);
        [lia | rewrite length_drop; lia |].
      assert (Hdd : drop (Z.to_nat (index + size)) array
                    = drop (Z.to_nat size) (drop (Z.to_nat index) array)).
      { rewrite drop_drop. f_equal. lia. }
      repeat split.
      * simpl. rewrite Hcat, Hdd. apply take_drop.
      * constructor; [|done].
        rewrite length_take, length_drop. lia.
      * intros [|k] g Hk Hlen; simpl in *.
        -- injection Hk as <-. rewrite length_take, length_drop.
           destruct fuel as [|fuel']; [simpl in Hlen; lia|].
           rewrite chunk_loop_next in Hlen.
           destruct (Z.ltb_spec (index + size) (Z.of_nat (length array)));
             [lia | simpl in Hlen; lia].
        -- apply (Hfull k g Hk). lia.
    + rewrite drop_ge by lia.
      repeat split; simpl; [constructor | intros k g Hk; done].
Qed.

Lemma truncate_lt_1 (q : Qc) : (q < Qc_of_Z 1)%Qc → (truncate q ≤ 0)%Z.
Proof.
  unfold Qclt, Qlt, truncate. simpl. intros Hq.
  destruct (Z.le_gt_cases 0 (Qnum q)) as [Hpos|Hneg].
  - rewrite Z.quot_small; lia.
  - rewrite <- (Z.opp_involutive (Qnum q)), Z.quot_opp_l by lia.
    assert (0 ≤ - Qnum q ÷ Z.pos (Qden q))%Z; [|lia].
    apply Z.quot_pos; lia.
Qed.

Lemma truncate_ge_1 (q : Qc) : (Qc_of_Z 1 ≤ q)%Qc → (1 ≤ truncate q)%Z.
Proof.
  unfold Qcle, Qle, truncate. simpl. intros Hq.
  apply Z.quot_le_lower_bound; lia.
Qed.

Lemma MAX_INTEGER_pos : (1 ≤ MAX_INTEGER)%Z.
Proof. unfold MAX_INTEGER. lia. Qed.

Lemma toInteger_ge_1 (chunkSize : number) :
  num_le (num_of_Z 1) chunkSize = true → (1 ≤ toInteger chunkSize)%Z.
Proof.
  destruct chunkSize as [q| | |]; simpl; intros Hq;
    [ apply bool_decide_eq_true in Hq; by apply truncate_ge_1
    | apply MAX_INTEGER_pos | done | done ].
Qed.

Lemma toInteger_lt_1 (chunkSize : number) :
  num_lt chunkSize (num_of_Z 1) = true → (toInteger chunkSize ≤ 0)%Z.
Proof.
  destruct chunkSize as [q| | |]; simpl; intros Hq;
    [ apply bool_decide_eq_true in Hq; by apply truncate_lt_1
    | done | pose proof MAX_INTEGER_pos; lia | done ].
Qed.

Lemma chunk_groups array (chunkSize : number) :
  num_le (num_of_Z 1) chunkSize = true →
  consecutive_groups (Z.to_nat (toInteger chunkSize)) array
    (chunk array chunkSize).
Proof.
  intros Hs%toInteger_ge_1. unfold chunk.
  destruct array as [|a array].
  { repeat split; simpl; [constructor | intros k g Hk; done]. }
  rewrite Z.max_l by lia.
  destruct (Z.ltb_spec (toInteger chunkSize) 1) as [|_]; [lia|]. simpl orb.
  cbv iota. apply (chunk_loop_groups _ (a :: array) _ 0%Z); simpl; lia.
Qed.

Lemma chunk_small_size array (chunkSize : number) :
  num_lt chunkSize (num_of_Z 1) = true → chunk array chunkSize = [].
Proof.
  intros Hs%toInteger_lt_1. unfold chunk.
  rewrite Z.max_r by lia. simpl (0 <? 1)%Z. by rewrite orb_true_r.
Qed.
End ChunkFacts.

(** ** [promiseChunk] *)

Section PromiseFacts.
Context {A B E St : Type}.
Variable callback : list A → St → St * settlement E (chunkResults B).

Local Abbreviation step :=
  (λ promise thingChunk,
     then_ promise (λ results,
       then_ (call_callback callback thingChunk) (λ chunkResults,
         Promise_resolve (concat_results results chunkResults)))).

Lemma concat_results_spread (results : list B) r :
  concat_results results r = results ++ spread r.
Proof. by destruct r. Qed.

(** One link of the chain, when the promise before it is fulfilled. *)
Lemma step_fulfilled (p : promise A B E St (list B)) g w w1 acc :
  p w = (w1, Fulfilled acc) →
  step p g w
  = match callback g (cb_state w1) with
    | (s, Fulfilled r) =>
        (World s (trace w1 ++ [Invoked g; Settled g (Fulfilled r)]),
         Fulfilled (acc ++ spread r))
    | (s, Rejected e) =>
        (World s (trace w1 ++ [Invoked g; Settled g (Rejected e)]),
         Rejected e)
    | (s, Pending) => (World s (trace w1 ++ [Invoked g]), Pending)
    end.
Proof.
  intros Hp. unfold then_, call_callback. rewrite Hp.
  destruct (callback g (cb_state w1)) as [s [r|e|]]; simpl; try done.
  by rewrite concat_results_spread.
Qed.

(** A rejected or pending promise stops the chain: no later handler
    runs. *)
Lemma step_not_fulfilled (p : promise A B E St (list B)) g w w1 o :
  p w = (w1, o) → (∀ v, o ≠ Fulfilled v) →
  ∃ o', step p g w = (w1, o') ∧ (∀ v, o' ≠ Fulfilled v) ∧
        (∀ e, o = Rejected e → o' = Rejected e).
Proof.
  intros Hp Ho. unfold then_. rewrite Hp.
  destruct o as [v|e|]; [by destruct (Ho v) | ..]; eexists; eauto.
Qed.

Lemma chain_not_fulfilled gs (p : promise A B E St (list B)) w w1 o :
  p w = (w1, o) → (∀ v, o ≠ Fulfilled v) →
  ∃ o', fold_left step gs p w = (w1, o') ∧
        (∀ e, o = Rejected e → o' = Rejected e).
Proof.
  revert p o. induction gs as [|g gs IH]; intros p o Hp Ho; simpl.
  - eauto.
  - destruct (step_not_fulfilled p g w w1 o Hp Ho) as (o' & Hs & Ho' & He).
    destruct (IH _ _ Hs Ho') as (o'' & Hf & He').
    exists o''. split; [done|]. intros e ->. eauto.
Qed.

Lemma chain_rejected gs (p : promise A B E St (list B)) w w1 e :
  p w = (w1, Rejected e) → fold_left step gs p w = (w1, Rejected e).
Proof.
  intros Hp.
  destruct (chain_not_fulfilled gs p w w1 _ Hp) as (o' & -> & He); [done|].
  by rewrite (He e).
Qed.

(** The chain over groups on which the callback fulfils. *)
Lemma chain_fulfilled gs : ∀ (p : promise A B E St (list B)) w w1 acc rs s',
  p w = (w1, Fulfilled acc) →
  fulfils callback (cb_state w1) gs rs s' →
  fold_left step gs p w
  = (World s' (trace w1 ++ sequential_run gs rs),
     Fulfilled (acc ++ flat_map spread rs)).
Proof.
  induction gs as [|g gs IH]; intros p w w1 acc rs s' Hp Hrun;
    inversion Hrun as [|? ? ? r rs' s1 ? Hcb Hrest]; subst; simpl.
  - rewrite Hp. destruct w1. unfold sequential_run. simpl.
    by rewrite !app_nil_r.
  - erewrite IH; [| by erewrite step_fulfilled, Hcb | done].
    simpl. unfold sequential_run. simpl.
    by rewrite <- !app_assoc.
Qed.

Lemma invoked_app (tr1 tr2 : list (event A B E)) :
  invoked (tr1 ++ tr2) = invoked tr1 ++ invoked tr2.
Proof. apply omap_app. Qed.

Lemma invoked_sequential_run (gs : list (list A)) (rs : list (chunkResults B)) :
  length rs = length gs →
  invoked (sequential_run (E:=E) gs rs) = gs.
Proof.
  revert rs. induction gs as [|g gs IH]; intros [|r rs] Hlen;
    simpl in *; try done.
  f_equal. apply IH. lia.
Qed.

Lemma fulfils_length s gs rs s' :
  fulfils callback s gs rs s' → length rs = length gs.
Proof. induction 1; simpl; lia. Qed.

(** A callback that always fulfils does so along any list of groups. *)
Lemma fulfils_total (f : list A → chunkResults B) :
  (∀ g s, ∃ s', callback g s = (s', Fulfilled (f g))) →
  ∀ gs s, ∃ s', fulfils callback s gs (map f gs) s'.
Proof.
  intros Hcb. induction gs as [|g gs IH]; intros s; simpl.
  - eexists. constructor.
  - destruct (Hcb g s) as [s1 H1]. destruct (IH s1) as [s2 H2].
    exists s2. by econstructor.
Qed.

Lemma flat_map_spread_map (f : A → B) (gs : list (list A)) :
  flat_map spread (map (λ g, ResultArray (map f g)) gs) = map f (concat gs).
Proof.
  induction gs as [|g gs IH]; simpl; [done|].
  by rewrite IH, map_app.
Qed.

(** C1 (amended). [promiseChunk] on the empty list resolves to the
    empty list and leaves the world as it is, so the callback is not
    invoked, whatever the chunk size. For a chunk size of at least 1
    and a callback that fulfils on every group: the groups partition
    the items in consecutive groups of [toInteger chunkSize] elements,
    the last one possibly smaller; the callback is invoked once per
    group, in order, each settlement directly following its
    invocation; and the promise resolves to the results of the groups
    appended in group order. In particular a callback that maps the
    elements of its group one by one yields the image of the items in
    input order. *)
Theorem promiseChunk_sequential :
  (∀ chunkSize w, promiseChunk callback [] chunkSize w = (w, Fulfilled [])) ∧
  (∀ things chunkSize w rs s',
     num_le (num_of_Z 1) chunkSize = true →
     fulfils callback (cb_state w) (chunk things chunkSize) rs s' →
     let groups := chunk things chunkSize in
     consecutive_groups (Z.to_nat (toInteger chunkSize)) things groups ∧
     promiseChunk callback things chunkSize w
     = (World s' (trace w ++ sequential_run groups rs),
        Fulfilled (flat_map spread rs)) ∧
     invoked (sequential_run (E:=E) groups rs) = groups) ∧
  (∀ things chunkSize w (f : A → B),
     num_le (num_of_Z 1) chunkSize = true →
     (∀ g s, ∃ s', callback g s = (s', Fulfilled (ResultArray (map f g)))) →
     (promiseChunk callback things chunkSize w).2 = Fulfilled (map f things)).
Proof.
  assert (Hgen : ∀ things chunkSize w rs s',
    fulfils callback (cb_state w) (chunk things chunkSize) rs s' →
    promiseChunk callback things chunkSize w
    = (World s' (trace w ++ sequential_run (chunk things chunkSize) rs),
       Fulfilled (flat_map spread rs))).
  { intros things chunkSize w rs s' Hrun. unfold promiseChunk.
    destruct things as [|a things]; simpl.
    - inversion Hrun; subst. destruct w. unfold sequential_run. simpl.
      by rewrite app_nil_r.
    - by apply (chain_fulfilled _ _ w w []). }
  split; [done|]. split.
  - intros things chunkSize w rs s' Hsize Hrun groups.
    split; [by apply chunk_groups|]. split; [by apply Hgen|].
    apply invoked_sequential_run. by eapply fulfils_length.
  - intros things chunkSize w f Hsize Hcb.
    destruct (fulfils_total (λ g, ResultArray (map f g)) Hcb
                (chunk things chunkSize) (cb_state w)) as [s' Hrun].
    rewrite (Hgen _ _ _ _ _ Hrun). simpl.
    rewrite flat_map_spread_map.
    by destruct (chunk_groups things chunkSize Hsize) as [-> _].
Qed.

(** C2. When the callback rejects on a group, after having fulfilled
    on the groups before it, the promise of [promiseChunk] is rejected
    with that same failure and carries no result; the history ends
    with that rejection, so the callback is invoked on no later
    group. *)
Theorem promiseChunk_rejects things chunkSize w before g after rs s1 s2 e :
  chunk things chunkSize = before ++ g :: after →
  fulfils callback (cb_state w) before rs s1 →
  callback g s1 = (s2, Rejected e) →
  promiseChunk callback things chunkSize w
  = (World s2 (trace w ++ sequential_run before rs
                ++ [Invoked g; Settled g (Rejected e)]),
     Rejected e) ∧
  invoked (trace (promiseChunk callback things chunkSize w).1)
  = invoked (trace w) ++ before ++ [g].
Proof.
  intros Hchunk Hrun Hcb.
  assert (Heq : promiseChunk callback things chunkSize w
    = (World s2 (trace w ++ sequential_run before rs
                  ++ [Invoked g; Settled g (Rejected e)]), Rejected e)).
  { unfold promiseChunk. destruct things as [|a things].
    { by destruct before. }
    simpl Nat.eqb. cbv iota. rewrite Hchunk, fold_left_app. simpl.
    apply chain_rejected.
    erewrite step_fulfilled;
      [| by apply (chain_fulfilled before _ w w [] rs s1)].
    simpl. rewrite Hcb. by rewrite <- app_assoc. }
  split; [done|]. rewrite Heq. simpl.
  rewrite !invoked_app, invoked_sequential_run
    by (by eapply fulfils_length).
  done.
Qed.

(** C10. For a chunk size below 1, [chunk] yields no group at all;
    [promiseChunk] then resolves to the empty list and leaves the
    world as it is, so the callback is never invoked, also when the
    list of items is not empty. *)
Theorem promiseChunk_size_below_1 things chunkSize w :
  num_lt chunkSize (num_of_Z 1) = true →
  chunk things chunkSize = [] ∧
  promiseChunk callback things chunkSize w = (w, Fulfilled []) ∧
  invoked (trace (promiseChunk callback things chunkSize w).1)
  = invoked (trace w).
Proof.
  intros Hsize.
  assert (Heq : promiseChunk callback things chunkSize w = (w, Fulfilled [])).
  { unfold promiseChunk. rewrite (chunk_small_size _ _ Hsize).
    by destruct (length things =? 0)%nat. }
  split; [by apply chunk_small_size|]. split; [done|]. by rewrite Heq.
Qed.
End PromiseFacts.

(** A callback that multiplies each element of its chunk by ten and
    counts its invocations. *)
Lemma promiseChunk_sequential_witness :
  let cb : list nat → nat → nat * settlement unit (chunkResults nat) :=
    λ g s, (S s, Fulfilled (ResultArray (map (Nat.mul 10) g))) in
  promiseChunk cb [1; 2; 3; 4; 5] (num_of_Z 2) (World 0 [])
  = (World 3
       [ Invoked [1; 2]; Settled [1; 2] (Fulfilled (ResultArray [10; 20]));
         Invoked [3; 4]; Settled [3; 4] (Fulfilled (ResultArray [30; 40]));
         Invoked [5]; Settled [5] (Fulfilled (ResultArray [50])) ],
     Fulfilled [10; 20; 30; 40; 50]).
Proof.
  intros cb.
  refine (proj1 (proj2 (proj1 (proj2 (promiseChunk_sequential cb))
    [1; 2; 3; 4; 5] (num_of_Z 2) (World 0 [])
    [ResultArray [10; 20]; ResultArray [30; 40]; ResultArray [50]] 3 _ _))).
  - reflexivity.
  - repeat (econstructor; [reflexivity|]). constructor.
Defined.

(** C1 as stated fails for a chunk size of zero: the items are not
    partitioned, the callback is not invoked at all, and the result is
    empty although the callback would return its chunk unchanged. *)
Lemma promiseChunk_size_zero_counterexample :
  let cb : list nat → unit → unit * settlement unit (chunkResults nat) :=
    λ g s, (s, Fulfilled (ResultArray g)) in
  let run := promiseChunk cb [7] (num_of_Z 0) (World () []) in
  run.2 = Fulfilled [] ∧
  ¬ (∃ groups, concat groups = [7] ∧ invoked (trace run.1) = groups).
Proof.
  split; [reflexivity|]. intros (groups & Hcat & Hinv).
  vm_compute in Hinv. subst groups. discriminate Hcat.
Qed.

(** The callback rejects on the second of three groups. *)
Lemma promiseChunk_rejects_witness :
  let cb : list nat → unit → unit * settlement string (chunkResults nat) :=
    λ g s, (s, if decide (3 ∈ g) then Rejected "boom"%string
               else Fulfilled (ResultArray g)) in
  promiseChunk cb [1; 2; 3; 4; 5] (num_of_Z 2) (World () [])
  = (World ()
       [ Invoked [1; 2]; Settled [1; 2] (Fulfilled (ResultArray [1; 2]));
         Invoked [3; 4]; Settled [3; 4] (Rejected "boom"%string) ],
     Rejected "boom"%string).
Proof.
  intros cb.
  refine (proj1 (promiseChunk_rejects cb [1; 2; 3; 4; 5] (num_of_Z 2)
    (World () []) [[1; 2]] [3; 4] [[5]] [ResultArray [1; 2]] () ()
    "boom"%string _ _ _)).
  - reflexivity.
  - repeat (econstructor; [reflexivity|]). constructor.
  - reflexivity.
Defined.

Lemma promiseChunk_size_below_1_witness :
  let cb : list nat → unit → unit * settlement unit (chunkResults nat) :=
    λ g s, (s, Fulfilled (ResultArray g)) in
  promiseChunk cb [1; 2; 3] (Finite (Q2Qc (1 # 2))) (World () [])
  = (World () [], Fulfilled []).
Proof.
  intros cb.
  refine (proj1 (proj2 (promiseChunk_size_below_1 cb [1; 2; 3]
    (Finite (Q2Qc (1 # 2))) (World () []) _))).
  reflexivity.
Defined.

(** ** [animationThrottle] *)

Section ThrottleFacts.
Context {Args : Type}.
Implicit Types (t : throttle Args) (args : Args).

(** While a frame is requested, a call of the wrapper only replaces
    [lastCallback]. *)
Lemma throttled_while_pending args t :
  id_truthy (animationFrameId t) = true →
  throttled args t
  = Throttle (callback t) (animationFrameId t) (CallWith args) (handles t)
      (frames t) (calls t).
Proof. unfold throttled. simpl. by intros ->. Qed.

Lemma last_cons {T} (x d : T) (l : list T) :
  List.last (x :: l) d = List.last l x.
Proof.
  revert x d. induction l as [|y l IH]; intros x d; [done|].
  change (List.last (y :: l) d = List.last (y :: l) x).
  by rewrite !IH.
Qed.

Lemma last_fmap {T U} (f : T → U) (l : list T) (d : T) :
  List.last (map f l) (f d) = f (List.last l d).
Proof.
  revert d. induction l as [|x l IH]; intros d; [done|].
  cbn [map]. by rewrite !last_cons.
Qed.

Lemma throttled_calls_while_pending rest : ∀ t,
  id_truthy (animationFrameId t) = true →
  fold_left (λ t args, throttled args t) rest t
  = Throttle (callback t) (animationFrameId t)
      (List.last (map CallWith rest) (lastCallback t))
      (handles t) (frames t) (calls t).
Proof.
  induction rest as [|args rest IH]; intros t Hid.
  - by destruct t.
  - cbn [fold_left]. rewrite throttled_while_pending by done.
    rewrite IH by done.
    cbn [callback animationFrameId handles frames calls].
    f_equal. cbn [map lastCallback]. symmetry. apply last_cons.
Qed.

Lemma calls_run_frame_callback t args :
  calls (run_frame_callback t (CallWith args)) = calls t ++ [args] ∧
  frames (run_frame_callback t (CallWith args)) = frames t.
Proof. simpl. by destruct (callback t _ _). Qed.

(** C3, as the code has it. After the wrapper has been called with
    [first] and then with each of [rest], before any display refresh:
    exactly one frame callback is scheduled, and [callback] has not
    run; at the refresh [callback] runs exactly once, with the
    arguments [first] of the FIRST call, since the function value
    handed to [requestAnimationFrame] is the one of the first call;
    [flush], instead, runs [callback] with the arguments of the most
    recent call. *)
Theorem animationThrottle_frame_runs_first_arguments
    (callback : list Args → Args → bool) (handles0 : nat) (first : Args)
    (rest : list Args) :
  let t := fold_left (λ t args, throttled args t) (first :: rest)
             (animationThrottle callback handles0) in
  frames t = [(S handles0, CallWith first)] ∧
  calls t = [] ∧
  calls (tick t) = [first] ∧
  frames (tick t) = [] ∧
  calls (flush t) = [List.last rest first].
Proof.
  cbn [fold_left]. rewrite throttled_calls_while_pending by done.
  split; [done|]. split; [done|].
  unfold tick. cbn [frames map snd fold_left].
  split; [apply calls_run_frame_callback|].
  split; [apply calls_run_frame_callback|].
  unfold flush, cancel. simpl. rewrite last_fmap.
  generalize (List.last rest first). intros a.
  apply calls_run_frame_callback.
Qed.
End ThrottleFacts.

(** The wrapper is called with 1, then with 2, and the display
    refreshes: [callback] has run once, with 1. *)
Lemma animationThrottle_two_calls :
  calls (tick (throttled 2 (throttled 1 (animationThrottle (λ _ _, true) 0))))
  = [1].
Proof. reflexivity. Qed.

(** ** [fitToScale] *)

Section QcFacts.
Local Open Scope Qc_scope.
Implicit Types a b c : Qc.

Lemma Qc_div_lt_l a b c : 0 < b → (a / b < c ↔ a < c * b).
Proof.
  intros Hb. rewrite (Qcmult_lt_mono_pos_r (a / b) c b Hb).
  unfold Qcdiv. rewrite <- Qcmult_assoc, Qcmult_inv_l, Qcmult_1_r; [done|].
  intros ->. by apply (irreflexivity Qclt 0).
Qed.

Lemma Qc_div_lt_r a b c : 0 < b → (c < a / b ↔ c * b < a).
Proof.
  intros Hb. rewrite (Qcmult_lt_mono_pos_r c (a / b) b Hb).
  unfold Qcdiv. rewrite <- Qcmult_assoc, Qcmult_inv_l, Qcmult_1_r; [done|].
  intros ->. by apply (irreflexivity Qclt 0).
Qed.

Lemma Qc_div_le_l a b c : 0 < b → (a / b ≤ c ↔ a ≤ c * b).
Proof. intros Hb. rewrite !Qcle_ngt. by rewrite Qc_div_lt_r. Qed.

Lemma Qc_div_le_r a b c : 0 < b → (c ≤ a / b ↔ c * b ≤ a).
Proof. intros Hb. rewrite !Qcle_ngt. by rewrite Qc_div_lt_l. Qed.

Lemma Qc_div_pos a b : 0 < a → 0 < b → 0 < a / b.
Proof. intros Ha Hb. apply Qc_div_lt_r; [done|]. by rewrite Qcmult_0_l. Qed.

Lemma Qc_pos_ne_0 a : 0 < a → a ≠ 0.
Proof. intros Ha ->. by apply (irreflexivity Qclt 0). Qed.

Lemma Qc_of_Z_1 : Qc_of_Z 1 = 1.
Proof. by apply Qc_is_canon. Qed.

Lemma Qc_min_l a b : a ≤ b → Qc_min a b = a.
Proof. intros. unfold Qc_min. by destruct (decide _). Qed.

Lemma Qc_min_r a b : b ≤ a → Qc_min a b = b.
Proof.
  intros. unfold Qc_min. destruct (decide _); [|done].
  by apply Qcle_antisym.
Qed.

Lemma Qc_min_le_l a b : Qc_min a b ≤ a.
Proof.
  unfold Qc_min. destruct (decide _) as [|Hn]; [done|].
  by apply Qclt_le_weak, Qclt_nge.
Qed.

Lemma Qc_min_le_r a b : Qc_min a b ≤ b.
Proof. unfold Qc_min. by destruct (decide _). Qed.
End QcFacts.

(** ** Binary64 numbers: rounding

    The products and quotients of positive binary64 numbers are the
    exact ones rounded to nearest, from the specification of the
    operations that the kernel gives ([mul_spec], [div_spec], [SFmul],
    [SFdiv]). *)

Lemma digits2_pos_size (p : positive) : digits2_pos p = Pos.size p.
Proof. induction p as [p IH|p IH|]; simpl; by rewrite ?IH. Qed.

Lemma Zdigits2_bounds (p : positive) :
  (2 ^ (Zdigits2 (Z.pos p) - 1) ≤ Z.pos p < 2 ^ Zdigits2 (Z.pos p))%Z ∧
  (1 ≤ Zdigits2 (Z.pos p))%Z.
Proof.
  cbn [Zdigits2]. rewrite digits2_pos_size.
  pose proof (Pos.size_gt p) as Hgt. pose proof (Pos.size_le p) as Hle.
  assert (Hpow : ∀ q, Z.pos (2 ^ q) = (2 ^ Z.pos q)%Z).
  { intros q. by rewrite Pos2Z.inj_pow. }
  apply Pos2Z.pos_lt_pos in Hgt. rewrite Hpow in Hgt.
  apply Pos2Z.pos_le_pos in Hle. rewrite Hpow in Hle.
  set (d := Z.pos (Pos.size p)) in *.
  assert (1 ≤ d)%Z by (unfold d; lia).
  split; [|done]. split; [|done].
  replace d with (d - 1 + 1)%Z in Hle by lia.
  rewrite Z.pow_add_r, Z.pow_1_r in Hle by lia. lia.
Qed.

(** The number of digits is determined by the powers of two around. *)
Lemma Zdigits2_unique (p : positive) (d : Z) :
  (2 ^ (d - 1) ≤ Z.pos p < 2 ^ d)%Z → (1 ≤ d)%Z → Zdigits2 (Z.pos p) = d.
Proof.
  intros [Hlo Hhi] Hd.
  destruct (Zdigits2_bounds p) as [[Hlo' Hhi'] Hd'].
  set (d' := Zdigits2 (Z.pos p)) in *.
  destruct (Z.lt_trichotomy d' d) as [Hlt|[Heq|Hgt]]; [|done|].
  - assert (2 ^ d' ≤ 2 ^ (d - 1))%Z by (apply Z.pow_le_mono_r; lia). lia.
  - assert (2 ^ d ≤ 2 ^ (d' - 1))%Z by (apply Z.pow_le_mono_r; lia). lia.
Qed.

Lemma fexp_eq (e : Z) : fexp prec emax e = Z.max (e - 53) (-1074).
Proof. reflexivity. Qed.

Lemma bounded_canonical (m : positive) (e : Z) :
  bounded prec emax m e = true → canonical (Z.pos m) e ∧ (e ≤ 971)%Z.
Proof.
  unfold bounded, canonical_mantissa. rewrite fexp_eq.
  intros [Hc He]%andb_prop. apply Z.eqb_eq in Hc. apply Z.leb_le in He.
  change (emax - prec)%Z with 971%Z in He.
  destruct (Zdigits2_bounds m) as [[Hlo Hhi] Hd]. cbn [Zdigits2] in Hlo, Hhi, Hd.
  set (d := Z.pos (digits2_pos m)) in *.
  split; [|done]. repeat split; try lia.
  - assert (d ≤ 53)%Z by lia.
    assert (2 ^ d ≤ 2 ^ 53)%Z by (apply Z.pow_le_mono_r; lia). lia.
  - intros Hnormal. assert (d = 53)%Z as Hd53 by lia.
    rewrite Hd53 in Hlo. exact Hlo.
Qed.


(** [lra] reads [inject_Z] and powers: they are hidden from it. *)
Ltac hide_atoms :=
  repeat match goal with
         | |- context [inject_Z ?z] =>
             let a := fresh "a" in
             set (a := inject_Z z) in *; clearbody a
         | H : context [inject_Z ?z] |- _ =>
             let a := fresh "a" in
             set (a := inject_Z z) in *; clearbody a
         | |- context [Qpower ?b ?z] =>
             let a := fresh "a" in
             set (a := Qpower b z) in *; clearbody a
         | H : context [Qpower ?b ?z] |- _ =>
             let a := fresh "a" in
             set (a := Qpower b z) in *; clearbody a
         end.
Ltac qlra := hide_atoms; lra.

Section DyadicFacts.
Local Open Scope Q_scope.

Lemma pow2_pos (e : Z) : 0 < 2 ^ e.
Proof. by apply Qpower_0_lt. Qed.

Lemma pow2_add (a b : Z) : 2 ^ (a + b) == 2 ^ a * 2 ^ b.
Proof. by apply Qpower_plus. Qed.

Lemma pow2_le (a b : Z) : (a ≤ b)%Z → 2 ^ a <= 2 ^ b.
Proof. intros. by apply Qpower_le_compat_l. Qed.

Lemma pow2_Z (n : Z) : (0 ≤ n)%Z → 2 ^ n == inject_Z (2 ^ n).
Proof. intros. by rewrite Zpower_Qpower. Qed.

Lemma dyadic_shift (m e k : Z) :
  (0 ≤ k)%Z → dyadic m (e + k) == dyadic (m * 2 ^ k) e.
Proof.
  intros Hk. unfold dyadic.
  rewrite pow2_add, (pow2_Z k), inject_Z_mult by done. ring.
Qed.

Lemma dyadic_le (m m' e : Z) : (m ≤ m')%Z → dyadic m e <= dyadic m' e.
Proof.
  intros Hm. unfold dyadic. apply Qmult_le_compat_r.
  - by rewrite <- Zle_Qle.
  - apply Qlt_le_weak, pow2_pos.
Qed.

Lemma dyadic_lt (m m' e : Z) : (m < m')%Z → dyadic m e < dyadic m' e.
Proof.
  intros Hm. unfold dyadic. apply Qmult_lt_compat_r; [apply pow2_pos|].
  by rewrite <- Zlt_Qlt.
Qed.

Lemma dyadic_le_inv (m m' e : Z) : dyadic m e <= dyadic m' e → (m ≤ m')%Z.
Proof.
  intros H. destruct (Z.le_gt_cases m m') as [|Hgt]; [done|].
  apply (dyadic_lt _ _ e) in Hgt. lra.
Qed.

Lemma dyadic_lt_inv (m m' e : Z) : dyadic m e < dyadic m' e → (m < m')%Z.
Proof.
  intros H. destruct (Z.lt_ge_cases m m') as [|Hge]; [done|].
  apply (dyadic_le _ _ e) in Hge. lra.
Qed.

Lemma dyadic_succ (m e : Z) : dyadic (m + 1) e == dyadic m e + 2 ^ e.
Proof. unfold dyadic. rewrite inject_Z_plus. ring. Qed.

Lemma dyadic_pos (m e : Z) : (0 < m)%Z → 0 < dyadic m e.
Proof.
  intros Hm. unfold dyadic. apply Qmult_lt_0_compat; [|apply pow2_pos].
  change (inject_Z 0 < inject_Z m). by rewrite <- Zlt_Qlt.
Qed.

(** A larger exponent gives a larger number, as the mantissa at an
    exponent above the least has 53 digits. *)
Lemma canonical_lt_exponent (m1 e1 m2 e2 : Z) :
  (0 ≤ m1 < 2 ^ 53)%Z → (2 ^ 52 ≤ m2)%Z → (e1 < e2)%Z →
  dyadic m1 e1 < dyadic m2 e2.
Proof.
  intros Hm1 Hm2 He.
  apply Qlt_le_trans with (dyadic (2 ^ 53) e1); [apply dyadic_lt; lia|].
  apply Qle_trans with (dyadic (2 ^ 52) (e1 + 1)).
  { rewrite dyadic_shift by lia. apply dyadic_le. lia. }
  apply Qle_trans with (dyadic (2 ^ 52) e2).
  - unfold dyadic. apply Qmult_le_l; [done|]. apply pow2_le. lia.
  - apply dyadic_le. lia.
Qed.

(** The numbers of the format lie on the grid of a mantissa of 53
    digits: none is strictly between two neighbours of the grid. *)
Lemma canonical_grid (mz ez m e : Z) :
  canonical mz ez → (0 ≤ m)%Z → (-1074 ≤ e)%Z →
  ((-1074 < e)%Z → (2 ^ 52 ≤ m)%Z) →
  dyadic mz ez <= dyadic m e ∨ dyadic (m + 1) e <= dyadic mz ez.
Proof.
  intros ([Hz0 Hz53] & Hez & Hnormal) Hm He Hgrid.
  destruct (Z.le_gt_cases e ez) as [Hle|Hgt].
  - replace ez with (e + (ez - e))%Z by lia.
    rewrite dyadic_shift by lia.
    destruct (Z.le_gt_cases (mz * 2 ^ (ez - e)) m) as [Hk|Hk].
    + left. by apply dyadic_le.
    + right. apply dyadic_le. lia.
  - left. apply Qlt_le_weak, canonical_lt_exponent; lia.
Qed.
End DyadicFacts.


Section ShiftFacts.
Local Open Scope Q_scope.

Lemma brackets_ext mrs u u' : u == u' → brackets mrs u → brackets mrs u'.
Proof.
  intros Hu (Hm & Hlo & Hhi & Hstrict & Hexact & Habove & Hbelow).
  repeat split; [done|qlra|qlra|..].
  - intros H. specialize (Hstrict H). qlra.
  - intros H. specialize (Hexact H). qlra.
  - intros H. specialize (Habove H). qlra.
  - intros H. specialize (Hbelow H). qlra.
Qed.

Lemma shr_1_spec (m : Z) (r s : bool) :
  (0 ≤ m)%Z →
  shr_1 {| shr_m := m; shr_r := r; shr_s := s |}
  = {| shr_m := m / 2; shr_r := Z.odd m; shr_s := r || s |}.
Proof.
  intros Hm. destruct m as [|p|p]; [done| |lia].
  destruct p as [p|p|]; simpl; f_equal.
  - apply (Z.div_unique _ _ _ 1); lia.
  - apply (Z.div_unique _ _ _ 0); lia.
Qed.

Lemma shr_1_brackets mrs u u' :
  brackets mrs u → u == 2 * u' →
  brackets (shr_1 mrs) u' ∧ shr_m (shr_1 mrs) = (shr_m mrs / 2)%Z.
Proof.
  destruct mrs as [m r s].
  intros (Hm & Hlo & Hhi & Hstrict & Hexact & Habove & Hbelow) Hu.
  cbn [shr_m shr_r shr_s] in *. rewrite shr_1_spec by done.
  cbn [shr_m shr_r shr_s]. split; [|done].
  pose proof (Z.div_mod m 2 ltac:(done)) as Hdiv.
  pose proof (Z.mod_pos_bound m 2 ltac:(done)) as Hmod.
  assert (Hq : inject_Z m == 2 * inject_Z (m / 2) + inject_Z (m mod 2)).
  { rewrite Hdiv at 1. rewrite inject_Z_plus, inject_Z_mult. done. }
  assert (H0 : 0 <= inject_Z (m mod 2)).
  { change (inject_Z 0 <= inject_Z (m mod 2)). rewrite <- Zle_Qle. lia. }
  assert (H1 : inject_Z (m mod 2) <= 1).
  { change (inject_Z (m mod 2) <= inject_Z 1). rewrite <- Zle_Qle. lia. }
  assert (Hodd : Z.odd m = true → inject_Z (m mod 2) == 1).
  { intros H. rewrite Zodd_mod in H. apply Z.eqb_eq in H. by rewrite H. }
  assert (Heven : Z.odd m = false → inject_Z (m mod 2) == 0).
  { intros H. rewrite Zodd_mod in H. apply Z.eqb_neq in H.
    replace (m mod 2)%Z with 0%Z by lia. done. }
  unfold brackets. cbn [shr_m shr_r shr_s]. repeat split.
  - apply Z.div_pos; lia.
  - qlra.
  - qlra.
  - intros Hbits. apply orb_prop in Hbits as [Hbit|Hbits].
    + specialize (Hodd Hbit). qlra.
    + specialize (Hstrict Hbits). qlra.
  - intros Hbits. apply orb_false_iff in Hbits as [Hbit Hbits].
    specialize (Heven Hbit). specialize (Hexact Hbits). qlra.
  - intros Hbit. specialize (Hodd Hbit). qlra.
  - intros Hbits. apply andb_false_iff in Hbits as [Hbit|Hbits].
    + specialize (Heven Hbit). qlra.
    + specialize (Hexact Hbits). qlra.
Qed.

Lemma iter_pos_iter {A} (f : A → A) (p : positive) (x : A) :
  SpecFloat.iter_pos f p x = Nat.iter (Pos.to_nat p) f x.
Proof.
  revert x.
  induction p as [p IH|p IH|]; intros x; cbn [SpecFloat.iter_pos]; [| |done].
  - rewrite !IH, <- Nat.iter_add, <- Nat.iter_succ_r, Pos2Nat.inj_xI.
    f_equal. lia.
  - rewrite !IH, <- Nat.iter_add, Pos2Nat.inj_xO. f_equal. lia.
Qed.

Lemma shr_iter_brackets (k : nat) mrs u : ∀ u',
  brackets mrs u → u == inject_Z (2 ^ Z.of_nat k) * u' →
  brackets (Nat.iter k shr_1 mrs) u' ∧
  shr_m (Nat.iter k shr_1 mrs) = (shr_m mrs / 2 ^ Z.of_nat k)%Z.
Proof.
  induction k as [|k IH]; intros u' Hb Hu.
  - simpl. split; [|by rewrite Z.div_1_r].
    apply (brackets_ext _ u); [|done]. rewrite Hu.
    change (inject_Z (2 ^ Z.of_nat 0)) with 1. ring.
  - rewrite Nat.iter_succ.
    assert (Hpow : (2 ^ Z.of_nat (S k) = 2 ^ Z.of_nat k * 2)%Z).
    { rewrite Nat2Z.inj_succ, Z.pow_succ_r by lia. lia. }
    rewrite Hpow, inject_Z_mult in Hu. change (inject_Z 2) with 2 in Hu.
    destruct (IH (2 * u')) as [IHb IHm]; [done|by rewrite Hu; ring|].
    destruct (shr_1_brackets _ _ u' IHb) as [Hb' Hm']; [reflexivity|].
    split; [done|]. rewrite Hm', IHm, Hpow, Z.div_div; lia.
Qed.

(** Shifting [n] places to the right. *)
Lemma shr_brackets mrs e n u u' :
  (0 ≤ n)%Z → brackets mrs u → u == inject_Z (2 ^ n) * u' →
  ∃ mrs',
    shr mrs e n = (mrs', (e + n)%Z) ∧
    brackets mrs' u' ∧
    shr_m mrs' = (shr_m mrs / 2 ^ n)%Z.
Proof.
  intros Hn Hb Hu. destruct n as [|p|p]; [| |lia].
  - exists mrs. rewrite Z.add_0_r, Z.div_1_r. split; [done|]. split; [|done].
    apply (brackets_ext _ u); [|done]. rewrite Hu.
    change (inject_Z (2 ^ 0)) with 1. ring.
  - exists (SpecFloat.iter_pos shr_1 p mrs). split; [done|].
    rewrite iter_pos_iter. rewrite <- (positive_nat_Z p) in Hu |- *.
    by apply (shr_iter_brackets (Pos.to_nat p) _ u).
Qed.
End ShiftFacts.


Section RoundFacts.
Local Open Scope Q_scope.

Lemma SF2Q_finite (m : positive) (e : Z) :
  SF2Q (S754_finite false m e) == dyadic (Z.pos m) e.
Proof. unfold SF2Q, dyadic. ring. Qed.

(** On the positive numbers of the format, [<] is that of the values. *)
Lemma SFltb_canonical (m1 m2 : positive) (e1 e2 : Z) :
  canonical (Z.pos m1) e1 → canonical (Z.pos m2) e2 →
  SFltb (S754_finite false m1 e1) (S754_finite false m2 e2) = true
  ↔ dyadic (Z.pos m1) e1 < dyadic (Z.pos m2) e2.
Proof.
  intros (Hm1 & He1 & Hn1) (Hm2 & He2 & Hn2).
  unfold SFltb, SFcompare.
  destruct (Z.compare_spec e1 e2) as [->|Hlt|Hgt].
  - rewrite Pos.compare_cont_spec. simpl.
    destruct (Pos.compare_spec m1 m2) as [->|Hm|Hm].
    + split; [done|]. intros H. by apply Qlt_irrefl in H.
    + split; [|done]. intros _. apply dyadic_lt. lia.
    + split; [done|]. intros H. apply dyadic_lt_inv in H. lia.
  - split; [|done]. intros _. apply canonical_lt_exponent; lia.
  - split; [done|]. intros H.
    assert (dyadic (Z.pos m2) e2 < dyadic (Z.pos m1) e1)
      by (apply canonical_lt_exponent; lia).
    qlra.
Qed.

Lemma shr_record_of_loc_brackets (mx : Z) (lx : location) (u : Q) :
  (0 ≤ mx)%Z → inject_Z mx <= u → u < inject_Z mx + 1 →
  (lx = loc_Exact → u <= inject_Z mx) →
  (lx ≠ loc_Exact → inject_Z mx < u) →
  (lx = loc_Inexact Lt → 2 * u <= 2 * inject_Z mx + 1) →
  (lx = loc_Inexact Eq → 2 * u == 2 * inject_Z mx + 1) →
  (lx = loc_Inexact Gt → 2 * inject_Z mx + 1 <= 2 * u) →
  brackets (shr_record_of_loc mx lx) u.
Proof.
  intros Hm Hlo Hhi Hexact Hstrict Hlt Heq Hgt.
  destruct lx as [|[]].
  - specialize (Hexact eq_refl).
    repeat split; simpl; try done; intros _; qlra.
  - specialize (Hstrict ltac:(done)). specialize (Heq eq_refl).
    repeat split; simpl; try done; intros _; qlra.
  - specialize (Hstrict ltac:(done)). specialize (Hlt eq_refl).
    repeat split; simpl; try done; intros _; qlra.
  - specialize (Hstrict ltac:(done)). specialize (Hgt eq_refl).
    repeat split; simpl; try done; intros _; qlra.
Qed.

Lemma Zdigits2_0 : Zdigits2 0 = 0%Z.
Proof. done. Qed.

Lemma Zdigits2_pos_bounds (m : Z) :
  (0 < m)%Z →
  (2 ^ (Zdigits2 m - 1) ≤ m < 2 ^ Zdigits2 m)%Z ∧ (1 ≤ Zdigits2 m)%Z.
Proof. destruct m as [|p|p]; [lia| |lia]. intros _. apply Zdigits2_bounds. Qed.

Lemma Zdigits2_nonneg (m : Z) : (0 ≤ m)%Z → (0 ≤ Zdigits2 m)%Z.
Proof.
  destruct m as [|p|p]; [done| |lia]. intros _.
  pose proof (Zdigits2_bounds p). lia.
Qed.

(** What [binary_round_aux] returns for a number [u * 2 ^ ex] that the
    mantissa [mx] and the location [lx] bracket: the number lies in a
    cell [m * 2 ^ e], [(m + 1) * 2 ^ e] of the grid of the format, and
    the result is one end of the cell, the upper one only when the
    number is not the lower one. *)
Lemma binary_round_aux_spec (mx ex : Z) (lx : location) (u : Q) :
  brackets (shr_record_of_loc mx lx) u →
  (ex ≤ fexp prec emax (Zdigits2 mx + ex))%Z →
  ∃ m e mr,
    (0 ≤ m < 2 ^ 53)%Z ∧ (-1074 ≤ e)%Z ∧ ((-1074 < e)%Z → (2 ^ 52 ≤ m)%Z) ∧
    dyadic m e <= u * 2 ^ ex ∧ u * 2 ^ ex < dyadic (m + 1) e ∧
    (mr = m ∧ 2 * (u * 2 ^ ex) <= dyadic m e + dyadic (m + 1) e ∨
     mr = (m + 1)%Z ∧ dyadic m e < u * 2 ^ ex ∧
     dyadic m e + dyadic (m + 1) e <= 2 * (u * 2 ^ ex)) ∧
    ((mr = 0%Z ∧
      binary_round_aux prec emax false mx ex lx = S754_zero false) ∨
     (∃ mo eo,
        canonical (Z.pos mo) eo ∧ dyadic (Z.pos mo) eo == dyadic mr e ∧
        binary_round_aux prec emax false mx ex lx
        = if (eo <=? 971)%Z then S754_finite false mo eo
          else S754_infinity false)).
Proof.
  intros Hb HP.
  assert (Hmx : (0 ≤ mx)%Z).
  { destruct Hb as [Hm _]. by destruct lx as [|[]]. }
  assert (Hmx' : shr_m (shr_record_of_loc mx lx) = mx)
    by by destruct lx as [|[]].
  rewrite fexp_eq in HP.
  set (dx := Zdigits2 mx) in *.
  set (e := Z.max (dx + ex - 53) (-1074)).
  set (n := (e - ex)%Z).
  assert (Hn : (0 ≤ n)%Z) by (unfold n, e; lia).
  assert (Hpown : 0 < inject_Z (2 ^ n)).
  { change (inject_Z 0 < inject_Z (2 ^ n)). rewrite <- Zlt_Qlt. lia. }
  destruct (shr_brackets (shr_record_of_loc mx lx) ex n u
              (u * / inject_Z (2 ^ n)) Hn Hb)
    as (mrs' & Hshr & Hb' & Hm').
  { field. intros H0. rewrite H0 in Hpown. by apply Qlt_irrefl in Hpown. }
  rewrite Hmx' in Hm'.
  set (u1 := u * / inject_Z (2 ^ n)) in *.
  set (m := shr_m mrs') in *.
  assert (Hv : u * 2 ^ ex == u1 * 2 ^ e).
  { unfold u1. replace e with (n + ex)%Z by (unfold n; lia).
    rewrite pow2_add, (pow2_Z n) by done. field.
    intros H0. rewrite H0 in Hpown. by apply Qlt_irrefl in Hpown. }
  destruct Hb' as (Hm0 & Hlo & Hhi & Hstrict & _ & Habove & Hbelow).
  fold m in Hm0, Hlo, Hhi, Hstrict, Habove, Hbelow.
  (* the grid *)
  assert (Hgrid : (m < 2 ^ 53)%Z ∧ ((-1074 < e)%Z → (2 ^ 52 ≤ m)%Z)).
  { destruct (decide (mx = 0%Z)) as [->|Hne].
    - rewrite Z.div_0_l in Hm' by lia. rewrite Hm'. split; [done|].
      unfold e, dx in *. rewrite Zdigits2_0 in *. lia.
    - destruct (Zdigits2_pos_bounds mx) as [[Hdlo Hdhi] Hd]; [lia|].
      fold dx in Hdlo, Hdhi, Hd. split.
      + rewrite Hm'. apply Z.div_lt_upper_bound; [lia|].
        rewrite <- Z.pow_add_r by lia.
        assert (2 ^ dx ≤ 2 ^ (n + 53))%Z
          by (apply Z.pow_le_mono_r; unfold n, e; lia).
        lia.
      + intros He. assert (n = dx - 53)%Z as Hn53 by (unfold n, e in *; lia).
        rewrite Hm'. apply Z.div_le_lower_bound; [lia|].
        rewrite Hn53, <- Z.pow_add_r by lia.
        replace (dx - 53 + 52)%Z with (dx - 1)%Z by lia. lia. }
  destruct Hgrid as [Hm53 Hnormal].
  assert (Hpe : 0 < 2 ^ e) by apply pow2_pos.
  assert (Hcell_lo : dyadic m e <= u * 2 ^ ex).
  { rewrite Hv. unfold dyadic. by apply Qmult_le_compat_r; [|apply Qlt_le_weak]. }
  assert (Hcell_hi : u * 2 ^ ex < dyadic (m + 1) e).
  { rewrite Hv. unfold dyadic. rewrite inject_Z_plus.
    by apply Qmult_lt_compat_r. }
  assert (Hcell_strict : inject_Z m < u1 → dyadic m e < u * 2 ^ ex).
  { intros H. rewrite Hv. unfold dyadic. by apply Qmult_lt_compat_r. }
  (* the rounding *)
  assert (Hmiddle : dyadic m e + dyadic (m + 1) e
                    == (2 * inject_Z m + 1) * 2 ^ e).
  { unfold dyadic. rewrite inject_Z_plus. ring. }
  assert (Hcell_below : 2 * u1 <= 2 * inject_Z m + 1 →
                        2 * (u * 2 ^ ex) <= dyadic m e + dyadic (m + 1) e).
  { intros H. rewrite Hv, Hmiddle, Qmult_assoc.
    by apply Qmult_le_compat_r; [|apply Qlt_le_weak]. }
  assert (Hcell_above : 2 * inject_Z m + 1 <= 2 * u1 →
                        dyadic m e + dyadic (m + 1) e <= 2 * (u * 2 ^ ex)).
  { intros H. rewrite Hv, Hmiddle, Qmult_assoc.
    by apply Qmult_le_compat_r; [|apply Qlt_le_weak]. }
  set (mr := round_nearest_even m (loc_of_shr_record mrs')).
  assert (Hmr : mr = m ∧ 2 * (u * 2 ^ ex) <= dyadic m e + dyadic (m + 1) e ∨
                mr = (m + 1)%Z ∧ dyadic m e < u * 2 ^ ex ∧
                dyadic m e + dyadic (m + 1) e <= 2 * (u * 2 ^ ex)).
  { unfold mr. destruct mrs' as [m' r s]. simpl in *.
    destruct r, s; simpl.
    - right. auto.
    - destruct (IntDef.Z.even _); [left|right]; auto.
    - left. auto.
    - left. auto. }
  exists m, e, mr. repeat (split; [done || lia|]).
  (* the result *)
  assert (Hout : binary_round_aux prec emax false mx ex lx
    = let '(mrs'', e'') :=
        shr (shr_record_of_loc mr loc_Exact) e
          (Z.max (Zdigits2 mr + e - 53) (-1074) - e) in
      match shr_m mrs'' with
      | 0%Z => S754_zero false
      | Z.pos m0 =>
          if (e'' <=? 971)%Z then S754_finite false m0 e''
          else S754_infinity false
      | Z.neg _ => S754_nan
      end).
  { unfold binary_round_aux, shr_fexp. rewrite !fexp_eq.
    fold dx. fold e. fold n. rewrite Hshr.
    replace (ex + n)%Z with e by (unfold n; lia). done. }
  rewrite Hout. clear Hout.
  assert (Hmr_bounds : (0 ≤ mr ≤ 2 ^ 53)%Z)
    by (destruct Hmr as [[-> _]|[-> _]]; lia).
  destruct (decide (mr = 0%Z)) as [Hmr0|Hmr0].
  { left. split; [done|]. rewrite Hmr0, Zdigits2_0. simpl.
    replace (Z.max (0 + e - 53) (-1074) - e)%Z
      with (Z.max (e - 53) (-1074) - e)%Z by (f_equal; f_equal; lia).
    destruct (Z.max (e - 53) (-1074) - e)%Z as [|p|p] eqn:Hn2;
      [done| |done].
    unfold e in Hn2. lia. }
  right.
  destruct (Zdigits2_pos_bounds mr) as [[Hrlo Hrhi] Hr]; [lia|].
  set (dr := Zdigits2 mr) in *.
  destruct (decide (mr = 2 ^ 53)%Z) as [Hmax|Hmax].
  - (* the mantissa has one digit too many *)
    exists (2 ^ 52)%positive, (e + 1)%Z.
    assert (dr = 54)%Z as Hdr by (unfold dr; rewrite Hmax; done).
    split; [|split].
    + repeat split; try done; unfold e; lia.
    + rewrite Hmax, dyadic_shift by lia. done.
    + rewrite Hdr.
      replace (Z.max (54 + e - 53) (-1074) - e)%Z with 1%Z
        by (unfold e; lia).
      rewrite Hmax. done.
  - assert (Hmr53 : (mr < 2 ^ 53)%Z) by lia.
    assert (Hdr : (dr ≤ 53)%Z).
    { destruct (Z.le_gt_cases dr 53) as [|Hgt]; [done|].
      assert (2 ^ 53 ≤ 2 ^ (dr - 1))%Z by (apply Z.pow_le_mono_r; lia). lia. }
    destruct mr as [|pr|pr] eqn:Hpr; [done| |lia].
    exists pr, e. split; [|split].
    + repeat split; try lia; unfold e; lia.
    + done.
    + destruct (Z.max (dr + e - 53) (-1074) - e)%Z as [|p|p] eqn:Hn2;
        [done| |done].
      unfold e in Hn2 |- *. lia.
Qed.
End RoundFacts.


Section RoundedFacts.
Local Open Scope Q_scope.

Lemma pow2_52 (e : Z) : 2 ^ e == 2 ^ (-52) * dyadic (2 ^ 52) e.
Proof.
  unfold dyadic. rewrite <- (pow2_Z 52) by done.
  rewrite Qmult_assoc, <- pow2_add. simpl (-52 + 52)%Z.
  change (2 ^ 0) with 1. by rewrite Qmult_1_l.
Qed.

Lemma dyadic_0 (e : Z) : dyadic 0 e == 0.
Proof. unfold dyadic. change (inject_Z 0) with 0. ring. Qed.

Lemma binary_round_aux_rounded (mx ex : Z) (lx : location) (u v : Q) :
  brackets (shr_record_of_loc mx lx) u →
  (ex ≤ fexp prec emax (Zdigits2 mx + ex))%Z →
  v == u * 2 ^ ex →
  rounded v (binary_round_aux prec emax false mx ex lx).
Proof.
  intros Hb HP Hv.
  destruct (binary_round_aux_spec mx ex lx u Hb HP)
    as (m & e & mr & Hm & He & Hnormal & Hlo & Hhi & Hmr & Hout).
  rewrite <- Hv in Hlo, Hhi, Hmr. clear Hv Hb HP.
  set (out := binary_round_aux prec emax false mx ex lx) in *.
  assert (Hrlo : dyadic m e <= dyadic mr e).
  { apply dyadic_le. destruct Hmr as [[-> _]|[-> _]]; lia. }
  assert (Hrhi : dyadic mr e <= dyadic (m + 1) e).
  { apply dyadic_le. destruct Hmr as [[-> _]|[-> _]]; lia. }
  assert (Hcell : dyadic (m + 1) e == dyadic m e + 2 ^ e)
    by apply dyadic_succ.
  assert (Hnear : 2 * v <= dyadic mr e + dyadic (m + 1) e ∧
                  dyadic mr e + dyadic m e <= 2 * v).
  { destruct Hmr as [[-> Hhalf]|[-> [Hstrict Hhalf]]]; split; qlra. }
  destruct Hnear as [Hnear_hi Hnear_lo].
  assert (Hup : ∀ mz ez, canonical (Z.pos mz) ez →
                         v <= dyadic (Z.pos mz) ez →
                         dyadic mr e <= dyadic (Z.pos mz) ez).
  { intros mz ez Hz Hvz. destruct Hmr as [[-> _]|[-> [Hstrict _]]]; [qlra|].
    destruct (canonical_grid (Z.pos mz) ez m e) as [Hg|Hg];
      [done|lia|done|done| |done].
    qlra. }
  assert (Hdown : ∀ mz ez, canonical (Z.pos mz) ez →
                           dyadic (Z.pos mz) ez <= v →
                           dyadic (Z.pos mz) ez <= dyadic mr e).
  { intros mz ez Hz Hvz.
    destruct (canonical_grid (Z.pos mz) ez m e) as [Hg|Hg];
      [done|lia|done|done| |]; qlra. }
  assert (Hgrid : ∀ mz ez, mz = 0%Z ∨ canonical mz ez →
                           dyadic mz ez <= dyadic m e ∨
                           dyadic (m + 1) e <= dyadic mz ez).
  { intros mz ez [->|Hz].
    - left. rewrite dyadic_0. unfold dyadic.
      apply Qmult_le_0_compat; [|apply Qlt_le_weak, pow2_pos].
      change (inject_Z 0 <= inject_Z m). rewrite <- Zle_Qle. lia.
    - apply canonical_grid; [done|lia|done|done]. }
  assert (Hvalue : out ≠ S754_infinity false → SF2Q out == dyadic mr e).
  { intros Hfin. destruct Hout as [[-> ->]|(mo & eo & Hc & Hval & Ho)].
    - by rewrite dyadic_0.
    - rewrite Ho in Hfin |- *. destruct (Z.leb_spec eo 971); [|done].
      by rewrite SF2Q_finite. }
  split; [|split; [|split; [|split; [|split]]]].
  - destruct Hout as [[_ ->]|(mo & eo & Hc & _ & ->)]; [by left|].
    right. destruct (Z.leb_spec eo 971); [right|left]; eauto.
  - intros mz ez Hz Hez Hvz. specialize (Hup mz ez Hz Hvz).
    destruct Hout as [[_ ->]|(mo & eo & Hc & Hval & ->)]; [done|].
    destruct (Z.leb_spec eo 971) as [Heo|Heo].
    + apply not_true_is_false. rewrite SFltb_canonical by done. qlra.
    + exfalso.
      assert (dyadic (Z.pos mz) ez < dyadic (Z.pos mo) eo).
      { destruct Hz as (? & ? & ?), Hc as (? & ? & Hmo).
        apply canonical_lt_exponent; [lia| |lia]. apply Hmo. lia. }
      qlra.
  - intros mz ez Hz Hvz. specialize (Hdown mz ez Hz Hvz).
    destruct Hout as [[-> _]|(mo & eo & Hc & Hval & ->)].
    + exfalso. pose proof (dyadic_pos (Z.pos mz) ez ltac:(done)).
      rewrite dyadic_0 in Hdown. qlra.
    + destruct (Z.leb_spec eo 971) as [Heo|Heo]; [|done].
      apply not_true_is_false. rewrite SFltb_canonical by done. qlra.
  - intros mo' eo' Hnormalv Hfin.
    destruct Hout as [[_ Hz]|(mo & eo & Hc & Hval & Ho)]; [congruence|].
    rewrite Ho in Hfin. destruct (Z.leb_spec eo 971); [|done].
    injection Hfin as -> ->.
    assert (Hm52 : (2 ^ 52 ≤ m)%Z).
    { destruct (Z.le_gt_cases (2 ^ 52) m) as [|Hlt]; [done|]. exfalso.
      assert (e = -1074)%Z as -> by lia.
      assert (dyadic (m + 1) (-1074) <= dyadic (2 ^ 52) (-1074))
        by (apply dyadic_le; lia).
      assert (dyadic (2 ^ 52) (-1074) == 2 ^ (-1022)) by done.
      qlra. }
    assert (Hulp : dyadic (2 ^ 52) e <= dyadic m e) by by apply dyadic_le.
    pose proof (pow2_52 e) as H52.
    assert (H252 : 0 < 2 ^ (-52)) by apply pow2_pos.
    assert (Hstep : 2 ^ e <= 2 ^ (-52) * dyadic m e).
    { rewrite H52. by apply Qmult_le_l. }
    rewrite Hval. split.
    + apply Qle_trans with (v + 2 ^ (-52) * v); [|apply Qle_lteq; right; ring].
      apply Qle_trans with (dyadic m e + 2 ^ e); [qlra|].
      apply Qplus_le_compat; [done|].
      apply Qle_trans with (2 ^ (-52) * dyadic m e); [done|].
      by apply Qmult_le_l.
    + apply Qle_trans with (dyadic mr e + 2 ^ (-52) * dyadic mr e);
        [|apply Qle_lteq; right; ring].
      apply Qle_trans with (dyadic m e + 2 ^ e); [qlra|].
      apply Qplus_le_compat; [done|].
      apply Qle_trans with (2 ^ (-52) * dyadic m e); [done|].
      by apply Qmult_le_l.
  - intros Hfin mz ez Hz. rewrite (Hvalue Hfin).
    destruct (Hgrid mz ez Hz); split; intros; qlra.
  - intros Hinf.
    destruct Hout as [[_ Hz]|(mo & eo & Hc & Hval & Ho)]; [congruence|].
    rewrite Ho in Hinf. destruct (Z.leb_spec eo 971) as [|Heo]; [done|].
    assert (Hbig : 2 ^ 1024 <= dyadic mr e).
    { rewrite <- Hval. destruct Hc as (Hmo & _ & Hmo52).
      apply Qle_trans with (dyadic (2 ^ 52) 972); [done|].
      apply Qle_trans with (dyadic (2 ^ 52) eo).
      - unfold dyadic. apply Qmult_le_l; [done|]. apply pow2_le. lia.
      - apply dyadic_le. apply Hmo52. lia. }
    assert (Hmax : dyadic (2 ^ 53 - 1) 971 < 2 ^ 1024) by done.
    destruct (Hgrid (2 ^ 53 - 1)%Z 971%Z) as [Hg|Hg].
    + right. repeat split; done.
    + qlra.
    + qlra.
Qed.

Lemma rounded_ext (v v' : Q) (out : spec_float) :
  v == v' → rounded v out → rounded v' out.
Proof.
  intros Hv (Hclass & Hup & Hdown & Herr & Hnear & Hinf).
  split; [done|]. split; [|split; [|split; [|split]]].
  - intros mz ez Hz Hez H. apply Hup; [done..|]. by rewrite Hv.
  - intros mz ez Hz H. apply Hdown; [done|]. by rewrite Hv.
  - intros mo eo Hn Ho. rewrite <- Hv. apply Herr; [|done]. by rewrite Hv.
  - intros Hfin mz ez Hz. rewrite <- Hv. by apply Hnear.
  - intros Ho. rewrite <- Hv. by apply Hinf.
Qed.
End RoundedFacts.


Section OperationFacts.
Local Open Scope Q_scope.

Lemma inject_Z_pos (z : Z) : (0 < z)%Z → 0 < inject_Z z.
Proof. intros. change (inject_Z 0 < inject_Z z). by rewrite <- Zlt_Qlt. Qed.

Lemma pow2_lt_inv (a b : Z) : (0 ≤ b)%Z → (2 ^ a < 2 ^ b)%Z → (a < b)%Z.
Proof.
  intros Hb H. destruct (Z.lt_ge_cases a b) as [|Hge]; [done|].
  assert (2 ^ b ≤ 2 ^ a)%Z by (apply Z.pow_le_mono_r; lia). lia.
Qed.

(** The product of two positive numbers of the format. *)
Lemma SFmul_rounded (mx my : positive) (ex ey : Z) :
  canonical (Z.pos mx) ex → canonical (Z.pos my) ey →
  rounded (dyadic (Z.pos mx) ex * dyadic (Z.pos my) ey)
    (SFmul prec emax (S754_finite false mx ex) (S754_finite false my ey)).
Proof.
  intros (Hmx & Hex & Hnx) (Hmy & Hey & Hny).
  cbn [SFmul xorb].
  apply (binary_round_aux_rounded _ _ _ (inject_Z (Z.pos (mx * my)))).
  - apply shr_record_of_loc_brackets; try done.
    + apply Qle_refl.
    + qlra.
    + intros _. apply Qle_refl.
  - rewrite fexp_eq.
    destruct (Z.le_gt_cases (ex + ey) (-1074)) as [|Hsum]; [lia|].
    assert (Hprod : (2 ^ 52 ≤ Z.pos (mx * my))%Z).
    { rewrite Pos2Z.inj_mul.
      destruct (Z.le_gt_cases ex (-1074)); [specialize (Hny ltac:(lia))
                                           |specialize (Hnx ltac:(lia))]; nia. }
    destruct (Zdigits2_bounds (mx * my)) as [[_ Hhi] _].
    assert (52 < Zdigits2 (Z.pos (mx * my)))%Z.
    { apply pow2_lt_inv; [by apply Zdigits2_nonneg|lia]. }
    lia.
  - unfold dyadic. rewrite pow2_add, Pos2Z.inj_mul, inject_Z_mult. ring.
Qed.

(** The quotient of two positive numbers of the format. *)
Lemma SFdiv_rounded (mx my : positive) (ex ey : Z) (v : Q) :
  canonical (Z.pos mx) ex → canonical (Z.pos my) ey →
  v * dyadic (Z.pos my) ey == dyadic (Z.pos mx) ex →
  rounded v
    (SFdiv prec emax (S754_finite false mx ex) (S754_finite false my ey)).
Proof.
  intros (Hmx & Hex & Hnx) (Hmy & Hey & Hny) Hv.
  cbn [SFdiv xorb]. unfold SFdiv_core_binary. rewrite fexp_eq.
  destruct (Zdigits2_bounds mx) as [[Hd1lo Hd1hi] Hd1].
  destruct (Zdigits2_bounds my) as [[Hd2lo Hd2hi] Hd2].
  set (d1 := Zdigits2 (Z.pos mx)) in *. set (d2 := Zdigits2 (Z.pos my)) in *.
  set (D := (d1 + ex - (d2 + ey))%Z).
  set (e' := Z.min (Z.max (D - 53) (-1074)) (ex - ey)).
  set (s := (ex - ey - e')%Z).
  assert (Hs : (0 ≤ s)%Z) by (unfold s, e'; lia).
  set (m' := match s with
             | 0%Z => Z.pos mx
             | Z.pos _ => Z.shiftl (Z.pos mx) s
             | Z.neg _ => 0%Z
             end).
  assert (Hm' : m' = (Z.pos mx * 2 ^ s)%Z).
  { unfold m'. destruct s as [|p|p]; [lia| |lia].
    by rewrite Z.shiftl_mul_pow2. }
  clearbody m'.
  pose proof (Z.div_mod m' (Z.pos my) ltac:(done)) as Hdiv.
  pose proof (Z.mod_pos_bound m' (Z.pos my) ltac:(done)) as Hmod.
  unfold Z.div, Z.modulo in Hdiv, Hmod.
  destruct (Z.div_eucl m' (Z.pos my)) as [q r].
  assert (Hps : (0 < 2 ^ s)%Z) by lia.
  assert (Hq : (0 ≤ q)%Z) by nia.
  assert (HM2 : 0 < inject_Z (Z.pos my)) by by apply inject_Z_pos.
  assert (Hu : inject_Z m' * / inject_Z (Z.pos my) * inject_Z (Z.pos my)
               == inject_Z m').
  { field. intros H0. rewrite H0 in HM2. by apply Qlt_irrefl in HM2. }
  set (u := inject_Z m' * / inject_Z (Z.pos my)) in *.
  assert (HqM : inject_Z m' == inject_Z q * inject_Z (Z.pos my) + inject_Z r).
  { rewrite Hdiv at 1. rewrite inject_Z_plus, inject_Z_mult. ring. }
  assert (Hr0 : 0 <= inject_Z r).
  { change (inject_Z 0 <= inject_Z r). rewrite <- Zle_Qle. lia. }
  assert (Hr1 : inject_Z r < inject_Z (Z.pos my)) by (rewrite <- Zlt_Qlt; lia).
  apply (binary_round_aux_rounded _ _ _ u).
  - assert (Hur : u * inject_Z (Z.pos my)
                  == inject_Z q * inject_Z (Z.pos my) + inject_Z r)
      by by rewrite Hu, HqM.
    assert (Hhalf : ∀ a b : Q, a * inject_Z (Z.pos my) <= b * inject_Z (Z.pos my)
                               → a <= b).
    { intros a b H. by apply (Qmult_le_r _ _ _ HM2). }
    assert (Hloc : new_location (Z.pos my) r = loc_Exact ∧ r = 0%Z ∨
                   r ≠ 0%Z ∧
                   (new_location (Z.pos my) r = loc_Inexact Lt
                    ∧ (2 * r ≤ Z.pos my)%Z ∨
                    new_location (Z.pos my) r = loc_Inexact Eq
                    ∧ (2 * r = Z.pos my)%Z ∨
                    new_location (Z.pos my) r = loc_Inexact Gt
                    ∧ (Z.pos my ≤ 2 * r)%Z)).
    { unfold new_location, new_location_even, new_location_odd.
      destruct (Z.even (Z.pos my)); cbv beta;
        (destruct (Z.eqb_spec r 0) as [->|Hr]; [by left|]);
        right; (split; [done|]).
      - destruct (Z.compare_spec (2 * r) (Z.pos my));
          [right; left|left|right; right]; (split; [done|lia]).
      - destruct (Z.compare_spec (2 * r + 1) (Z.pos my));
          [left|left|right; right]; (split; [done|lia]). }
    assert (Hr2 : ∀ a b : Z, (a ≤ b)%Z → inject_Z a <= inject_Z b)
      by (intros a b; by rewrite <- Zle_Qle).
    assert (H2r : inject_Z (2 * r) == 2 * inject_Z r)
      by by rewrite inject_Z_mult.
    assert (H2u : 2 * u * inject_Z (Z.pos my)
                  == 2 * (inject_Z q * inject_Z (Z.pos my) + inject_Z r))
      by (rewrite <- Hur; ring).
    apply shr_record_of_loc_brackets; [done|..].
    + apply Hhalf. rewrite Hur. qlra.
    + apply (Qmult_lt_r _ _ _ HM2). rewrite Hur.
      rewrite Qmult_plus_distr_l, Qmult_1_l. qlra.
    + intros Hexact. destruct Hloc as [[_ ->]|[_ [[H _]|[[H _]|[H _]]]]];
        try congruence.
      apply Hhalf. rewrite Hur. change (inject_Z 0) with 0. qlra.
    + intros Hinexact. destruct Hloc as [[H _]|[Hr _]]; [done|].
      apply (Qmult_lt_r _ _ _ HM2). rewrite Hur.
      assert (0 < inject_Z r) by (apply inject_Z_pos; lia).
      qlra.
    + intros Hlt. destruct Hloc as [[H _]|[_ [[_ H]|[[H _]|[H _]]]]];
        try congruence.
      apply Hr2 in H. rewrite H2r in H.
      apply Hhalf. rewrite H2u. qlra.
    + intros Heq. destruct Hloc as [[H _]|[_ [[H _]|[[_ H]|[H _]]]]];
        try congruence.
      assert (H' : inject_Z (2 * r) == inject_Z (Z.pos my)) by by rewrite H.
      rewrite H2r in H'.
      apply (Qmult_inj_r _ _ (inject_Z (Z.pos my))).
      { intros H0. rewrite H0 in HM2. by apply Qlt_irrefl in HM2. }
      rewrite H2u. qlra.
    + intros Hgt. destruct Hloc as [[H _]|[_ [[H _]|[[H _]|[_ H]]]]];
        try congruence.
      apply Hr2 in H. rewrite H2r in H.
      apply Hhalf. rewrite H2u. qlra.
  - rewrite fexp_eq.
    destruct (decide (q = 0%Z)) as [->|Hq0].
    + rewrite Zdigits2_0.
      assert (Z.pos mx * 2 ^ s < Z.pos my)%Z by lia.
      assert (2 ^ (d1 - 1 + s) < 2 ^ d2)%Z.
      { rewrite Z.pow_add_r by lia. nia. }
      assert (d1 - 1 + s < d2)%Z by (apply pow2_lt_inv; lia).
      unfold s, e', D in *. lia.
    + destruct (Zdigits2_pos_bounds q) as [[Hqlo Hqhi] Hdq]; [lia|].
      set (dq := Zdigits2 q) in *.
      assert (2 ^ (d1 - 1 + s) < 2 ^ (dq + d2))%Z.
      { rewrite !Z.pow_add_r by lia. nia. }
      assert (d1 - 1 + s < dq + d2)%Z by (apply pow2_lt_inv; lia).
      unfold s, e', D in *. lia.
  - apply (Qmult_inj_r _ _ (dyadic (Z.pos my) ey)).
    { pose proof (dyadic_pos (Z.pos my) ey ltac:(done)) as Hpos.
      intros H0. rewrite H0 in Hpos. by apply Qlt_irrefl in Hpos. }
    rewrite Hv. unfold dyadic.
    transitivity (u * inject_Z (Z.pos my) * (2 ^ e' * 2 ^ ey)); [|ring].
    rewrite Hu, Hm', inject_Z_mult, <- (pow2_Z s), <- pow2_add by done.
    rewrite <- Qmult_assoc, <- pow2_add.
    replace (s + (e' + ey))%Z with ex by (unfold s; lia). done.
Qed.
End OperationFacts.


Section Binary64Facts.
Local Open Scope Q_scope.

Lemma positive_finite_inv (x : float) :
  positive_finite x = true →
  ∃ m e, Prim2SF x = S754_finite false m e ∧
         canonical (Z.pos m) e ∧ (e ≤ 971)%Z.
Proof.
  unfold positive_finite. rewrite !ltb_spec.
  change (Prim2SF 0) with (S754_zero false).
  change (Prim2SF infinity) with (S754_infinity false).
  pose proof (Prim2SF_valid x) as Hvalid.
  destruct (Prim2SF x) as [s|s| |s m e];
    [by destruct s|by destruct s|done|].
  destruct s; [done|]. intros _. exists m, e. split; [done|].
  by apply bounded_canonical.
Qed.

Lemma positive_finite_intro (x : float) (m : positive) (e : Z) :
  Prim2SF x = S754_finite false m e → positive_finite x = true.
Proof.
  intros Hx. unfold positive_finite. rewrite !ltb_spec, Hx. done.
Qed.

Lemma float_value_finite (x : float) (m : positive) (e : Z) :
  Prim2SF x = S754_finite false m e → float_value x == dyadic (Z.pos m) e.
Proof. intros Hx. unfold float_value. rewrite Hx. apply SF2Q_finite. Qed.

Lemma float_value_pos (x : float) :
  positive_finite x = true → 0 < float_value x.
Proof.
  intros (m & e & Hx & _)%positive_finite_inv.
  rewrite (float_value_finite _ _ _ Hx). by apply dyadic_pos.
Qed.

(** On positive numbers, [<] of binary64 is that of the values. *)
Lemma ltb_positive_finite (a b : float) :
  positive_finite a = true → positive_finite b = true →
  ((a <? b)%float = true ↔ float_value a < float_value b).
Proof.
  intros (ma & ea & Ha & Hca & _)%positive_finite_inv
         (mb & eb & Hb & Hcb & _)%positive_finite_inv.
  rewrite ltb_spec, Ha, Hb, (float_value_finite _ _ _ Ha),
    (float_value_finite _ _ _ Hb).
  by apply SFltb_canonical.
Qed.

Lemma ltb_positive_finite_false (a b : float) :
  positive_finite a = true → positive_finite b = true →
  ((a <? b)%float = false ↔ float_value b <= float_value a).
Proof.
  intros Ha Hb. pose proof (ltb_positive_finite a b Ha Hb) as Hlt.
  destruct (a <? b)%float.
  - split; [done|]. intros Hle. apply proj1 in Hlt.
    specialize (Hlt eq_refl). qlra.
  - split; [|done]. intros _. apply Qnot_lt_le. intros H.
    by apply Hlt in H.
Qed.

(** The quotient and the product of two positive numbers are the
    numbers rounded. *)
Lemma div_rounded (x y : float) (v : Q) :
  positive_finite x = true → positive_finite y = true →
  v * float_value y == float_value x →
  rounded v (Prim2SF (x / y)).
Proof.
  intros (mx & ex & Hx & Hcx & _)%positive_finite_inv
         (my & ey & Hy & Hcy & _)%positive_finite_inv.
  rewrite div_spec, Hx, Hy, (float_value_finite _ _ _ Hx),
    (float_value_finite _ _ _ Hy).
  by apply SFdiv_rounded.
Qed.

Lemma mul_rounded (x y : float) :
  positive_finite x = true → positive_finite y = true →
  rounded (float_value x * float_value y) (Prim2SF (x * y)).
Proof.
  intros (mx & ex & Hx & Hcx & _)%positive_finite_inv
         (my & ey & Hy & Hcy & _)%positive_finite_inv.
  rewrite mul_spec, Hx, Hy.
  eapply rounded_ext; [|by apply SFmul_rounded].
  by rewrite (float_value_finite _ _ _ Hx), (float_value_finite _ _ _ Hy).
Qed.

(** What [rounded] says of a number of binary64. *)
Lemma rounded_class (v : Q) (q : float) :
  rounded v (Prim2SF q) →
  Prim2SF q = S754_zero false ∨ Prim2SF q = S754_infinity false ∨
  positive_finite q = true.
Proof.
  intros ([Hz|[Hi|(mo & eo & _ & _ & Ho)]] & _); auto.
  right. right. by eapply positive_finite_intro.
Qed.

(** Below a number of the format the result is at most that number. *)
Lemma rounded_le (v : Q) (q hi : float) :
  rounded v (Prim2SF q) → positive_finite hi = true →
  v <= float_value hi →
  (hi <? q)%float = false ∧
  (Prim2SF q = S754_zero false ∨
   positive_finite q = true ∧ float_value q <= float_value hi).
Proof.
  intros Hr Hhi Hv. pose proof (rounded_class _ _ Hr) as Hclass.
  destruct Hr as (_ & Hup & _).
  pose proof Hhi as (mz & ez & Hz & Hcz & Hez)%positive_finite_inv.
  rewrite (float_value_finite _ _ _ Hz) in Hv.
  specialize (Hup mz ez Hcz Hez Hv).
  assert (Hlt : (hi <? q)%float = false) by by rewrite ltb_spec, Hz.
  split; [done|].
  destruct Hclass as [Hq|[Hq|Hq]]; [by left| |].
  - by rewrite Hq in Hup.
  - right. split; [done|]. by apply ltb_positive_finite_false.
Qed.

(** Above a number of the format the result is at least that number. *)
Lemma rounded_ge (v : Q) (q lo : float) :
  rounded v (Prim2SF q) → positive_finite lo = true →
  float_value lo <= v →
  (q <? lo)%float = false ∧
  (Prim2SF q = S754_infinity false ∨
   positive_finite q = true ∧ float_value lo <= float_value q).
Proof.
  intros Hr Hlo Hv. pose proof (rounded_class _ _ Hr) as Hclass.
  destruct Hr as (_ & _ & Hdown & _).
  pose proof Hlo as (mz & ez & Hz & Hcz & Hez)%positive_finite_inv.
  rewrite (float_value_finite _ _ _ Hz) in Hv.
  specialize (Hdown mz ez Hcz Hv).
  assert (Hlt : (q <? lo)%float = false) by by rewrite ltb_spec, Hz.
  split; [done|].
  destruct Hclass as [Hq|[Hq|Hq]]; [|by left|].
  - by rewrite Hq in Hdown.
  - right. split; [done|]. by apply ltb_positive_finite_false.
Qed.

(** Between two numbers of the format the result is positive and
    finite, and between them. *)
Lemma rounded_between (v : Q) (q lo hi : float) :
  rounded v (Prim2SF q) →
  positive_finite lo = true → positive_finite hi = true →
  float_value lo <= v → v <= float_value hi →
  positive_finite q = true ∧
  float_value lo <= float_value q ∧ float_value q <= float_value hi.
Proof.
  intros Hr Hlo Hhi Hvlo Hvhi.
  destruct (rounded_le _ _ _ Hr Hhi Hvhi) as [_ [Hz|[Hq Hle]]].
  - destruct (rounded_ge _ _ _ Hr Hlo Hvlo) as [_ [Hi|[Hq _]]].
    + congruence.
    + apply positive_finite_inv in Hq as (m & e & Hq & _). congruence.
  - destruct (rounded_ge _ _ _ Hr Hlo Hvlo) as [_ [Hi|[_ Hge]]]; [|done].
    apply positive_finite_inv in Hq as (m & e & Hq & _). congruence.
Qed.

(** In the normal range the result differs from the number by at most
    one part in [2 ^ 52]. *)
Lemma rounded_error (v : Q) (q : float) :
  rounded v (Prim2SF q) → positive_finite q = true → 2 ^ (-1022) <= v →
  float_value q <= v * (1 + 2 ^ (-52)) ∧
  v <= float_value q * (1 + 2 ^ (-52)).
Proof.
  intros (_ & _ & _ & Herr & _) (m & e & Hq & _)%positive_finite_inv Hv.
  rewrite (float_value_finite _ _ _ Hq). by apply Herr.
Qed.

Lemma canonical_le_max (m e : Z) :
  canonical m e → (e ≤ 971)%Z → dyadic m e <= dyadic (2 ^ 53 - 1) 971.
Proof.
  intros (Hm & He & Hn) He'.
  destruct (decide (e = 971%Z)) as [->|Hne]; [apply dyadic_le; lia|].
  apply Qlt_le_weak, canonical_lt_exponent; lia.
Qed.

(** Rounding is monotone: of two numbers, the greater is not rounded
    to less than the other is. *)
Lemma rounded_monotone (v1 v2 : Q) (out1 out2 : spec_float) :
  rounded v1 out1 → rounded v2 out2 → 0 <= v1 → v1 < v2 →
  SFltb out2 out1 = false.
Proof.
  intros (Hc1 & Hup1 & Hdown1 & _ & Hnear1 & Hinf1)
         (Hc2 & Hup2 & Hdown2 & _ & Hnear2 & Hinf2) Hv1 Hlt.
  assert (Hmax : dyadic (2 ^ 53 - 1) 971 < dyadic (2 ^ 52) 972) by done.
  assert (Hbig : canonical (Z.pos (2 ^ 52)) 972) by (repeat split; done).
  assert (Hmax0 : 0 < dyadic (2 ^ 53 - 1) 971) by by apply dyadic_pos.
  destruct Hc1 as [->|[->|(m1 & e1 & Hcan1 & He1 & ->)]].
  - by destruct Hc2 as [->|[->|(m2 & e2 & _ & _ & ->)]].
  - specialize (Hinf1 eq_refl).
    change (2 ^ 1024) with (dyadic (2 ^ 52) 972) in Hinf1.
    destruct Hc2 as [->|[->|(m2 & e2 & Hcan2 & He2 & ->)]]; [|done|].
    + destruct (Qlt_le_dec v2 (dyadic (Z.pos (2 ^ 52)) 972)) as [Hv2|Hv2].
      * destruct (Hnear2 ltac:(done) _ _ (or_intror Hbig)) as [_ Hz].
        specialize (Hz (Qlt_le_weak _ _ Hv2)). simpl in Hz.
        change (Z.pos (2 ^ 52)) with (2 ^ 52)%Z in *. qlra.
      * specialize (Hdown2 _ _ Hbig Hv2). discriminate Hdown2.
    + pose proof (canonical_le_max _ _ Hcan2 He2) as Hle.
      destruct (Qlt_le_dec v2 (dyadic (Z.pos (2 ^ 52)) 972)) as [Hv2|Hv2].
      * destruct (Hnear2 ltac:(done) _ _ (or_intror Hbig)) as [_ Hz].
        specialize (Hz (Qlt_le_weak _ _ Hv2)). rewrite SF2Q_finite in Hz.
        change (Z.pos (2 ^ 52)) with (2 ^ 52)%Z in *. qlra.
      * specialize (Hdown2 _ _ Hbig Hv2).
        apply not_true_iff_false in Hdown2. exfalso. apply Hdown2.
        apply SFltb_canonical; [done..|].
        change (Z.pos (2 ^ 52)) with (2 ^ 52)%Z in *. qlra.
  - destruct Hc2 as [->|[->|(m2 & e2 & Hcan2 & He2 & ->)]]; [|done|].
    + exfalso.
      destruct (Qlt_le_dec v2 (dyadic (Z.pos m1) e1)) as [Hv2|Hv2].
      * destruct (Hnear2 ltac:(done) _ _ (or_intror Hcan1)) as [_ Hz].
        specialize (Hz (Qlt_le_weak _ _ Hv2)). simpl in Hz.
        destruct (Hnear1 ltac:(done) 0%Z 0%Z (or_introl eq_refl)) as [Hz0 _].
        rewrite dyadic_0, SF2Q_finite in Hz0. specialize (Hz0 Hv1). qlra.
      * specialize (Hdown2 _ _ Hcan1 Hv2). discriminate Hdown2.
    + apply not_true_iff_false. rewrite SFltb_canonical by done. intros Hw.
      destruct (Qlt_le_dec v1 (dyadic (Z.pos m2) e2)) as [Hv|Hv].
      * specialize (Hup1 _ _ Hcan2 He2 (Qlt_le_weak _ _ Hv)).
        apply not_true_iff_false in Hup1. apply Hup1.
        by apply SFltb_canonical.
      * destruct (Hnear1 ltac:(done) _ _ (or_intror Hcan2)) as [Hz1 _].
        specialize (Hz1 Hv). rewrite SF2Q_finite in Hz1.
        destruct (Qlt_le_dec (dyadic (Z.pos m1) e1) v2) as [Hv'|Hv'].
        -- specialize (Hdown2 _ _ Hcan1 (Qlt_le_weak _ _ Hv')).
           apply not_true_iff_false in Hdown2. apply Hdown2.
           by apply SFltb_canonical.
        -- destruct (Hnear2 ltac:(done) _ _ (or_intror Hcan1)) as [_ Hz2].
           specialize (Hz2 Hv'). rewrite SF2Q_finite in Hz2. qlra.
Qed.

(** Two positive numbers of the format that have the same value are
    the same number. *)
Lemma positive_finite_eq (x y : float) :
  positive_finite x = true → positive_finite y = true →
  float_value x == float_value y → x = y.
Proof.
  intros Hx Hy Hv.
  assert (Hxy : (x <? y)%float = false)
    by (apply ltb_positive_finite_false; [done..|qlra]).
  assert (Hyx : (y <? x)%float = false)
    by (apply ltb_positive_finite_false; [done..|qlra]).
  apply positive_finite_inv in Hx as (mx & ex & Hx & Hcx & _).
  apply positive_finite_inv in Hy as (my & ey & Hy & Hcy & _).
  apply Prim2SF_inj. rewrite Hx, Hy.
  rewrite ltb_spec, Hx, Hy in Hxy, Hyx.
  unfold SFltb, SFcompare in Hxy, Hyx.
  destruct (Z.compare_spec ex ey) as [->|Hlt|Hgt]; [|done|].
  - rewrite Pos.compare_cont_spec in Hxy. simpl in Hxy.
    destruct (Pos.compare_spec mx my) as [->|Hm|Hm]; [done|done|].
    destruct (Z.compare_spec ey ey); [|lia|lia].
    rewrite Pos.compare_cont_spec in Hyx. simpl in Hyx.
    destruct (Pos.compare_spec my mx); [lia|done|lia].
  - destruct (Z.compare_spec ey ex); [lia|done|lia].
Qed.

(** The quotient by a greater number is not greater. *)
Lemma div_antitone (x y1 y2 : float) :
  positive_finite x = true → positive_finite y1 = true →
  positive_finite y2 = true → float_value y2 < float_value y1 →
  (x / y2 <? x / y1)%float = false.
Proof.
  intros Hx Hy1 Hy2 Hlt.
  pose proof (float_value_pos _ Hx) as Hx0.
  pose proof (float_value_pos _ Hy1) as H10.
  pose proof (float_value_pos _ Hy2) as H20.
  assert (Hv1 : (float_value x / float_value y1) * float_value y1
                == float_value x) by (field; lra).
  assert (Hv2 : (float_value x / float_value y2) * float_value y2
                == float_value x) by (field; lra).
  pose proof (div_rounded x y1 _ Hx Hy1 Hv1) as Hr1.
  pose proof (div_rounded x y2 _ Hx Hy2 Hv2) as Hr2.
  set (v1 := float_value x / float_value y1) in *.
  set (v2 := float_value x / float_value y2) in *. clearbody v1 v2.
  set (a := float_value x) in *. set (b1 := float_value y1) in *.
  set (b2 := float_value y2) in *. clearbody a b1 b2.
  assert (H1 : 0 < v1).
  { apply Qnot_le_lt. intros H. assert (v1 * b1 <= 0) by nra. lra. }
  assert (H2 : v1 < v2).
  { apply Qnot_le_lt. intros H.
    assert (v2 * b2 <= v1 * b2) by nra.
    assert (v1 * b2 < v1 * b1) by nra. lra. }
  rewrite ltb_spec.
  apply (rounded_monotone v1 v2); [done|done|by apply Qlt_le_weak|done].
Qed.

(** The order of a number below and a number not below a positive
    number of the format. *)
Lemma ltb_below_not_below (v1 v2 : Q) (a b h : float) :
  rounded v1 (Prim2SF a) → rounded v2 (Prim2SF b) →
  positive_finite h = true →
  (a <? h)%float = true → (b <? h)%float = false → (a <? b)%float = true.
Proof.
  intros Ha Hb Hh Hah Hbh.
  pose proof Hh as (mh & eh & Hh' & _)%positive_finite_inv.
  destruct (rounded_class _ _ Ha) as [Hza|[Hia|Hpa]];
    destruct (rounded_class _ _ Hb) as [Hzb|[Hib|Hpb]].
  - by rewrite ltb_spec, Hzb, Hh' in Hbh.
  - by rewrite ltb_spec, Hza, Hib.
  - pose proof Hpb as (mb & eb & Hb' & _)%positive_finite_inv.
    by rewrite ltb_spec, Hza, Hb'.
  - by rewrite ltb_spec, Hia, Hh' in Hah.
  - by rewrite ltb_spec, Hia, Hh' in Hah.
  - by rewrite ltb_spec, Hia, Hh' in Hah.
  - by rewrite ltb_spec, Hzb, Hh' in Hbh.
  - pose proof Hpa as (ma & ea & Ha' & _)%positive_finite_inv.
    by rewrite ltb_spec, Ha', Hib.
  - apply (ltb_positive_finite _ _ Hpa Hh) in Hah.
    apply (ltb_positive_finite_false _ _ Hpb Hh) in Hbh.
    apply ltb_positive_finite; [done..|]. qlra.
Qed.
End Binary64Facts.

(** ** [fitToScale] on binary64 numbers *)

Section FitBinary64Facts.
Local Open Scope Q_scope.

Lemma float_value_lt_max (x : float) :
  positive_finite x = true → float_value x < 2 ^ 1024.
Proof.
  intros (m & e & Hx & (Hm & _) & He)%positive_finite_inv.
  rewrite (float_value_finite _ _ _ Hx).
  apply Qlt_le_trans with (dyadic (2 ^ 53) e); [apply dyadic_lt; lia|].
  unfold dyadic. change 1024%Z with (53 + 971)%Z. rewrite pow2_add.
  rewrite <- (pow2_Z 53) by done.
  apply Qmult_le_l; [apply pow2_pos|]. by apply pow2_le.
Qed.

(** The least positive normal number. *)
Lemma float_value_min_normal : float_value 0x1p-1022 == 2 ^ (-1022).
Proof. vm_compute. reflexivity. Qed.

(** A quotient of a number that is at least 4 is in the normal
    range. *)
Lemma quotient_normal (x y : float) (v : Q) :
  positive_finite y = true → 4 <= float_value x →
  v * float_value y == float_value x → 2 ^ (-1022) <= v.
Proof.
  intros Hy Hx Hv. pose proof (float_value_lt_max y Hy) as Hmax.
  pose proof (float_value_pos y Hy) as Hpos.
  assert (Hpow : 2 ^ (-1022) * 2 ^ 1024 == 4).
  { rewrite <- pow2_add. reflexivity. }
  pose proof (pow2_pos (-1022)) as Hp.
  apply Qnot_lt_le. intros Hlt.
  assert (v * float_value y < 2 ^ (-1022) * 2 ^ 1024).
  { destruct (Qlt_le_dec 0 v) as [Hv0|Hv0].
    - set (a := 2 ^ (-1022)) in *. set (b := 2 ^ 1024) in *. clearbody a b.
      nra.
    - set (a := 2 ^ (-1022)) in *. set (b := 2 ^ 1024) in *. clearbody a b.
      nra. }
  qlra.
Qed.

(** One of the two adjustments of [fitToScale]: the scale is replaced
    by the quotient of the page by the extent when the page, divided by
    the scale, is less than the extent. The scale is not grown, the
    scaled extent exceeds the page by one rounding at most, and a
    scale that is replaced falls short of the page by one rounding at
    most. *)
Lemma fit_step_binary64 (page scale extent : float) :
  positive_finite page = true → 4 <= float_value page →
  positive_finite scale = true → positive_finite extent = true →
  let scale' :=
    if (page / scale <? extent)%float then (page / extent)%float else scale in
  positive_finite scale' = true ∧
  float_value scale' <= float_value scale ∧
  float_value scale' * float_value extent <= float_value page * (1 + epsilon) ∧
  (scale' = scale ∨
   scale' = (page / extent)%float ∧
   float_value page <= float_value scale' * float_value extent * (1 + epsilon)).
Proof.
  intros Hpage Hpage4 Hscale Hextent. cbv zeta.
  pose proof (float_value_pos _ Hscale) as Hs0.
  pose proof (float_value_pos _ Hextent) as He0.
  pose proof (float_value_pos _ Hpage) as Hp0.
  set (P := float_value page) in *. set (s := float_value scale) in *.
  set (e := float_value extent) in *.
  assert (Hv : (P / s) * s == P) by (field; lra).
  assert (Hv' : (P / e) * e == P) by (field; lra).
  pose proof (div_rounded page scale _ Hpage Hscale Hv) as Hq.
  pose proof (div_rounded page extent _ Hpage Hextent Hv') as Hq'.
  pose proof (quotient_normal page scale _ Hscale Hpage4 Hv) as Hn.
  pose proof (quotient_normal page extent _ Hextent Hpage4 Hv') as Hn'.
  fold P s e in Hn, Hn'.
  set (v := P / s) in *. set (v' := P / e) in *. clearbody v v'.
  pose proof (pow2_pos (-52)) as Heps. unfold epsilon.
  destruct (page / scale <? extent)%float eqn:Htest.
  - (* the page is too small *)
    assert (Hlt : v < e).
    { apply Qnot_le_lt. intros Hle.
      destruct (rounded_ge _ _ _ Hq Hextent Hle) as [Hno _]. congruence. }
    assert (Hle' : v' <= s) by (apply Qnot_lt_le; intros Hgt; nra).
    assert (Hlo : float_value 0x1p-1022 <= v')
      by by rewrite float_value_min_normal.
    destruct (rounded_between _ _ 0x1p-1022%float _ Hq' eq_refl Hscale Hlo Hle')
      as (Hpf & _ & Hle).
    destruct (rounded_error _ _ Hq' Hpf Hn') as [Herr Herr'].
    fold s in Hle. set (r := float_value (page / extent)) in *.
    set (eps := 2 ^ (-52)) in *. clearbody r eps.
    split; [done|]. split; [done|]. split; [nra|].
    right. split; [done|]. nra.
  - (* the page is large enough *)
    split; [done|]. split; [apply Qle_refl|]. split; [|by left]. fold s e.
    destruct (rounded_class _ _ Hq) as [Hzero|[Hinf|Hpf]].
    + rewrite ltb_spec, Hzero in Htest.
      apply positive_finite_inv in Hextent as (m & ex & Hex & _).
      by rewrite Hex in Htest.
    + assert (Hle : e <= v).
      { apply Qnot_lt_le. intros Hlt.
        destruct (rounded_le _ _ _ Hq Hextent (Qlt_le_weak _ _ Hlt))
          as [Hno _].
        rewrite ltb_spec, Hinf in Hno.
        apply positive_finite_inv in Hextent as (m & ex & Hex & _).
        by rewrite Hex in Hno. }
      set (eps := 2 ^ (-52)) in *. clearbody eps. nra.
    + apply (ltb_positive_finite_false _ _ Hpf Hextent) in Htest.
      destruct (rounded_error _ _ Hq Hpf Hn) as [Herr _]. fold e in Htest.
      set (r := float_value (page / scale)) in *.
      set (eps := 2 ^ (-52)) in *. clearbody r eps. nra.
Qed.

Lemma float_value_792 : float_value 792 == 792.
Proof. vm_compute. reflexivity. Qed.

Lemma float_value_612 : float_value 612 == 612.
Proof. vm_compute. reflexivity. Qed.

Lemma float_value_1 : float_value 1 == 1.
Proof. vm_compute. reflexivity. Qed.

(** [fitToScale] on binary64 numbers, unfolded. *)
Lemma fitToScale_binary64_unfold (l t w h scale : float) :
  fitToScale (Rect l t w h) (Some scale)
  = let scale1 :=
      if (792 / scale <? h)%float then (792 / h)%float else scale in
    if (612 / scale1 <? w)%float then (612 / w)%float else scale1.
Proof. reflexivity. Qed.

(** [fitToScale] on a rectangle of positive width and height, with a
    positive scale: the scale returned is the one passed or one of the
    two quotients, it is not larger than the one passed, and the scaled
    rectangle exceeds the page by one rounding at most; unless it is
    the scale passed, one of the scaled dimensions falls short of the
    page by one rounding at most. *)
Lemma fitToScale_binary64 (l t w h scale : float) :
  positive_finite w = true → positive_finite h = true →
  positive_finite scale = true →
  let fitted := fitToScale (Rect l t w h) (Some scale) in
  positive_finite fitted = true ∧
  (fitted = scale ∨ fitted = (792 / h)%float ∨ fitted = (612 / w)%float) ∧
  float_value fitted <= float_value scale ∧
  float_value fitted * float_value w <= 612 * (1 + epsilon) ∧
  float_value fitted * float_value h <= 792 * (1 + epsilon) ∧
  (fitted = scale ∨
   792 <= float_value fitted * float_value h * (1 + epsilon) ∨
   612 <= float_value fitted * float_value w * (1 + epsilon)).
Proof.
  intros Hw Hh Hs. rewrite fitToScale_binary64_unfold. cbv zeta.
  destruct (fit_step_binary64 792 scale h) as (Hpf1 & Hle1 & Hfit1 & Hcase1);
    [done|by rewrite float_value_792|done|done|].
  set (scale1 := if (792 / scale <? h)%float then _ else _) in *.
  destruct (fit_step_binary64 612 scale1 w) as (Hpf2 & Hle2 & Hfit2 & Hcase2);
    [done|by rewrite float_value_612|done|done|].
  set (scale2 := if (612 / scale1 <? w)%float then _ else _) in *.
  clearbody scale2 scale1.
  rewrite float_value_792 in Hfit1, Hcase1.
  rewrite float_value_612 in Hfit2, Hcase2.
  pose proof (float_value_pos _ Hh) as Hh0.
  pose proof (float_value_pos _ Hpf2) as H20.
  split; [done|]. split; [|split; [|split; [|split]]].
  - destruct Hcase2 as [->|[-> _]]; [|by auto].
    destruct Hcase1 as [|[]]; auto.
  - by apply Qle_trans with (float_value scale1).
  - done.
  - unfold epsilon in *. set (eps := 2 ^ (-52)) in *.
    set (a := float_value scale2) in *. set (b := float_value scale1) in *.
    set (c := float_value h) in *. clearbody eps a b c. nra.
  - destruct Hcase2 as [->|[_ Hshort]]; [|by auto].
    destruct Hcase1 as [|[_ Hshort]]; auto.
Qed.

(** The bounds of [fitToScale_binary64], read with the least of the
    scale and the two exact quotients. *)
Lemma near_least (fitted scale w h eps : Q) :
  0 < eps → 0 < fitted → 0 < w → 0 < h →
  fitted <= scale →
  fitted * w <= 612 * (1 + eps) → fitted * h <= 792 * (1 + eps) →
  (fitted == scale ∨ 792 <= fitted * h * (1 + eps)
   ∨ 612 <= fitted * w * (1 + eps)) →
  let least := Qmin scale (Qmin (612 / w) (792 / h)) in
  fitted <= least * (1 + eps) ∧ least <= fitted * (1 + eps).
Proof.
  intros Heps Hf Hw Hh Hle Hfitw Hfith Hshort. cbv zeta. split.
  - assert (Hq : (fitted / (1 + eps)) * (1 + eps) == fitted)
      by (field; lra).
    set (q := fitted / (1 + eps)) in *. clearbody q.
    rewrite <- Hq. apply Qmult_le_compat_r; [|lra].
    repeat apply Q.min_glb.
    + nra.
    + apply Qle_shift_div_l; [done|]. nra.
    + apply Qle_shift_div_l; [done|]. nra.
  - apply Q.min_le_iff. destruct Hshort as [Hsame|[Hshort|Hshort]].
    + left. nra.
    + right. apply Q.min_le_iff. right.
      apply Qle_shift_div_r; [done|]. nra.
    + right. apply Q.min_le_iff. left.
      apply Qle_shift_div_r; [done|]. nra.
Qed.

(** Without a scale, the scale is 1. *)
Lemma fitToScale_default (boundingRect : DOMRect float) :
  fitToScale boundingRect None = fitToScale boundingRect (Some 1%float).
Proof. reflexivity. Qed.

(** A rectangle that the page holds is not scaled, and one that it
    does not hold is scaled by one of the two quotients. *)
Lemma fitToScale_binary64_fits (l t w h : float) :
  (792 <? h)%float = false → (612 <? w)%float = false →
  fitToScale (Rect l t w h) None = 1%float.
Proof.
  intros Hh Hw. rewrite fitToScale_default, fitToScale_binary64_unfold.
  change (792 / 1)%float with 792%float. rewrite Hh. cbv beta iota zeta.
  change (612 / 1)%float with 612%float. by rewrite Hw.
Qed.

Lemma fitToScale_binary64_shrinks (l t w h : float) :
  (792 <? h)%float = true ∨ (612 <? w)%float = true →
  fitToScale (Rect l t w h) None = (792 / h)%float ∨
  fitToScale (Rect l t w h) None = (612 / w)%float.
Proof.
  intros Hpage. rewrite fitToScale_default, fitToScale_binary64_unfold.
  change (792 / 1)%float with 792%float. cbv zeta.
  destruct (792 <? h)%float.
  - destruct (612 / (792 / h) <? w)%float; auto.
  - destruct Hpage as [|Hw]; [done|]. cbv beta iota zeta.
    change (612 / 1)%float with 612%float. rewrite Hw. auto.
Qed.

(** [fitToScale({width: 1224, height: 1584})]: both quotients,
    792/1584 and 612/0.5, are exact. *)
Lemma fitToScale_binary64_half (l t : float) :
  fitToScale (Rect l t 1224 1584)%float None = 0.5%float.
Proof. reflexivity. Qed.

(** C9 (amended). For a rectangle of positive width and height,
    [fitToScale] with the default scale returns a positive scale, at
    most 1: it is 1 when the page holds the rectangle, and otherwise
    one of the quotients 792/height and 612/width, as the division of
    binary64 rounds them. It is the least of 1, 612/width and
    792/height up to the rounding of that one division, one part in
    [2 ^ 52] either way, and so the scaled width and height fit in 612
    and 792 up to one part in [2 ^ 52]. For a rectangle of 1224 by
    1584 the scale is exactly one half. *)
Theorem fitToScale_shrinks_to_page (l t w h : float) :
  positive_finite w = true → positive_finite h = true →
  let scale := fitToScale (Rect l t w h) None in
  let least := Qmin 1 (Qmin (612 / float_value w) (792 / float_value h)) in
  positive_finite scale = true ∧
  ((792 <? h)%float = false → (612 <? w)%float = false → scale = 1%float) ∧
  ((792 <? h)%float = true ∨ (612 <? w)%float = true →
   scale = (792 / h)%float ∨ scale = (612 / w)%float) ∧
  float_value scale <= 1 ∧
  float_value scale <= least * (1 + epsilon) ∧
  least <= float_value scale * (1 + epsilon) ∧
  float_value scale * float_value w <= 612 * (1 + epsilon) ∧
  float_value scale * float_value h <= 792 * (1 + epsilon) ∧
  fitToScale (Rect l t 1224 1584)%float None = 0.5%float.
Proof.
  intros Hw Hh. cbv zeta.
  pose proof (fitToScale_binary64_fits l t w h) as Hfits.
  pose proof (fitToScale_binary64_shrinks l t w h) as Hshrinks.
  rewrite (fitToScale_default (Rect l t w h)) in *.
  destruct (fitToScale_binary64 l t w h 1 Hw Hh eq_refl)
    as (Hpf & Hcase & Hle & Hfitw & Hfith & Hshort).
  set (scale := fitToScale (Rect l t w h) (Some 1%float)) in *.
  clearbody scale. rewrite float_value_1 in Hle.
  assert (Hshort' : float_value scale == 1 ∨
                    792 <= float_value scale * float_value h * (1 + epsilon) ∨
                    612 <= float_value scale * float_value w * (1 + epsilon)).
  { destruct Hshort as [->|Hshort]; auto. left. by rewrite float_value_1. }
  pose proof (near_least (float_value scale) 1 (float_value w) (float_value h)
                epsilon eq_refl (float_value_pos _ Hpf) (float_value_pos _ Hw)
                (float_value_pos _ Hh) Hle Hfitw Hfith Hshort') as [Hup Hdown].
  repeat split; done.
Qed.

(** An image of 1063 by 100: the scale is 612/1063 rounded, and 1063
    times that scale is more than 612, in binary64 arithmetic and
    exactly. An image of 612/(792/838) by 838: the scale is 792/838
    rounded, which is more than 612 divided by the width. *)
Lemma fitToScale_rounding_counterexample :
  (let scale := fitToScale (Rect 0 0 1063 100)%float None in
   scale = (612 / 1063)%float ∧
   (612 <? scale * 1063)%float = true ∧
   612 < float_value scale * float_value 1063) ∧
  (let w := (612 / (792 / 838))%float in
   let scale := fitToScale (Rect 0 0 w 838)%float None in
   positive_finite w = true ∧
   scale = (792 / 838)%float ∧
   (612 / w <? scale)%float = true ∧
   612 < float_value scale * float_value w).
Proof. vm_compute. repeat split. Qed.

(** A rectangle of 1063 by 100. *)
Lemma fitToScale_shrinks_to_page_witness :
  let scale := fitToScale (Rect 0 0 1063 100)%float None in
  positive_finite scale = true ∧
  float_value scale <= 1 ∧
  float_value scale * float_value 1063 <= 612 * (1 + epsilon) ∧
  float_value scale * float_value 100 <= 792 * (1 + epsilon).
Proof.
  destruct (fitToScale_shrinks_to_page 0 0 1063 100)
    as (Hpf & _ & _ & Hle & _ & _ & Hw & Hh & _); [reflexivity..|].
  exact (conj Hpf (conj Hle (conj Hw Hh))).
Defined.
End FitBinary64Facts.

(** ** [generatePdf] *)

Section PdfFacts.
Context {N : Type} `{Arithmetic N}.
Variable parseInt : string → N.
Variable Number : string → N.
Variable fontList : list (string * list string).
Variable inherited : list string.

(** [insertText] maps [start] and [end] by the direction it is
    given. *)
Lemma insertText_align el x y maxWidth scale isRtl :
  text_aligns (DocCall <$> insertText parseInt Number fontList inherited el
                             x y maxWidth scale isRtl)
  = [directional_align (default false isRtl)
       (computedStyle el "text-align")].
Proof. reflexivity. Qed.

(** A leaf with text in representable characters is drawn by
    [insertText], called without [isRtl]. *)
Lemma visit_native_text boundingRect scale el :
  native_text el →
  ∃ x y maxWidth,
    visit parseInt Number fontList inherited boundingRect scale el 0
    = DocCall <$> insertText parseInt Number fontList inherited el x y
                    maxWidth scale None.
Proof.
  intros (Hcap & Htext & Hchars). unfold visit.
  rewrite Hcap, Hchars.
  destruct (innerText el) as [|c s] eqn:Hs; [done|]. simpl.
  eauto.
Qed.

(** What [recurseNodes] passes as alignment for a leaf with text does
    not depend on anything but [text-align]: the mapping used is always
    the left-to-right one. *)
Lemma recurseNodes_text_align boundingRect scale el :
  native_text el →
  text_aligns (recurseNodes parseInt Number fontList inherited boundingRect
                 scale (Node el []))
  = [directional_align false (computedStyle el "text-align")].
Proof.
  intros Hel. simpl.
  destruct (visit_native_text boundingRect scale el Hel)
    as (x & y & maxWidth & ->).
  apply insertText_align.
Qed.

(** C4, as the code has it. A paragraph whose computed style has
    [direction: rtl] and [text-align: start] is drawn as native text
    with the alignment [left], where the right-to-left mapping gives
    [right]: [recurseNodes] calls [insertText] without [isRtl], which
    then is [false]. This is so in either arithmetic, whatever the
    numbers of the paragraph, the fonts, the scale and the document. *)
Theorem generatePdf_rtl_start_aligned_left (rect : DOMRect N)
    (naturalWidth naturalHeight width height : N) (doc : bool)
    (scale : option N) :
  let style := λ property : string,
    if decide (property = "text-align") then "start"
    else if decide (property = "direction") then "rtl"
    else ""%string in
  let el := Element false [97; 98; 99]%N "P" "" rect style
              naturalWidth naturalHeight width height in
  native_text el ∧
  text_aligns (generatePdf parseInt Number fontList inherited (Node el [])
                 doc scale)
  = ["left"] ∧
  directional_align true (style "text-align") = "right".
Proof.
  intros style el.
  assert (Hel : native_text el) by done.
  split; [done|]. split; [|done].
  unfold generatePdf.
  set (scale' := match scale with Some _ => _ | None => _ end).
  destruct doc;
  change (text_aligns (recurseNodes parseInt Number fontList inherited
                         (boundingClientRect el) scale' (Node el []))
          = ["left"]);
  by rewrite recurseNodes_text_align.
Qed.
End PdfFacts.

(** The paragraph on binary64 numbers, with the font list of a new
    document. *)
Lemma generatePdf_rtl_start_aligned_left_binary64 :
  let style := λ property : string,
    if decide (property = "text-align") then "start"
    else if decide (property = "direction") then "rtl"
    else ""%string in
  let el := Element false [97; 98; 99]%N "P" "" (Rect 0 0 100 20)%float style
              nan nan nan nan in
  text_aligns (generatePdf (λ _, nan) (λ _, nan) [("helvetica", ["normal"])]
                 Object_prototype (Node el []) false (Some 1%float))
  = ["left"].
Proof. reflexivity. Qed.

(** ** JSON values in the store *)

(** Induction on a JSON value, with the property for the items of an
    array and for the members of an object. *)
Lemma json_nested_ind (P : json → Prop) :
  P JNull → (∀ b, P (JBool b)) → (∀ q, P (JNumber q)) → (∀ s, P (JString s)) →
  (∀ items, Forall P items → P (JArray items)) →
  (∀ members, Forall (λ m, P m.2) members → P (JObject members)) →
  ∀ j, P j.
Proof.
  intros Hnull Hbool Hnum Hstr Harr Hobj. fix IH 1.
  intros [ |b|q|s|items|members];
    [apply Hnull | apply Hbool | apply Hnum | apply Hstr | apply Harr
    | apply Hobj].
  - induction items as [|j items IHitems]; constructor;
      [apply IH | apply IHitems].
  - induction members as [|[k j] members IHmembers]; constructor;
      [apply IH | apply IHmembers].
Qed.

Lemma fresh_val_le n m v : n ≤ m → fresh_val m v → fresh_val n v.
Proof. destruct v; simpl; lia. Qed.

(** Objects added to the store change nothing to what a value denotes. *)
Lemma denotes_app h k v j : denotes h v j → denotes (h ++ k) v j.
Proof.
  revert v. induction j as [ | | | |items IH|members IH] using json_nested_ind;
    intros v Hv; inversion Hv as [ | | | |l elems props ? Hl Hall
                                         |l fields ? Hl Hall]; subst;
    try by constructor.
  - eapply denotes_array; [by apply lookup_app_l_Some|].
    clear Hl Hv. revert elems Hall.
    induction IH as [|j items Hj _ IHitems]; intros elems Hall;
      inversion Hall; subst; constructor; auto.
  - eapply denotes_object; [by apply lookup_app_l_Some|].
    clear Hl Hv. revert fields Hall.
    induction IH as [|m members Hm _ IHmembers]; intros fields Hall;
      inversion Hall as [|f ? ? ? [Hk Hf]]; subst; constructor; auto.
Qed.

(** A value denotes at most one JSON value. *)
Lemma denotes_inj h v j1 j2 : denotes h v j1 → denotes h v j2 → j1 = j2.
Proof.
  revert v j2.
  induction j1 as [ | | | |items IH|members IH] using json_nested_ind;
    intros v j2 H1 H2;
    inversion H1 as [ | | | |l elems props ? Hl Hall
                            |l fields ? Hl Hall]; subst;
    inversion H2 as [ | | | |l' elems' props' items' Hl' Hall'
                            |l' fields' members' Hl' Hall']; subst;
    try done; simplify_eq.
  - f_equal. clear -IH Hall Hall'. revert elems items' Hall Hall'.
    induction IH as [|j items Hj _ IHitems]; intros elems items' Hall Hall';
      inversion Hall; subst; inversion Hall'; subst; f_equal; eauto.
  - f_equal. clear -IH Hall Hall'. revert fields members' Hall Hall'.
    induction IH as [|[k j] members Hm _ IHmembers];
      intros fields members' Hall Hall';
      inversion Hall as [|[k1 v1] ? ? ? [Hk Hf]]; subst;
      inversion Hall' as [|? [k2 j2] ? ? [Hk' Hf']]; subst;
      simpl in *; subst; f_equal; eauto.
    f_equal. eauto.
Qed.

Lemma fresh_objs_le n m new : n ≤ m → fresh_objs m new → fresh_objs n new.
Proof.
  intros Hnm Hnew. eapply Forall_impl; [exact Hnew|]. intros o Ho.
  eapply Forall_impl; [exact Ho|]. intros v. by apply fresh_val_le.
Qed.

(** [revive] only adds objects to the store; they hold references to
    added objects only, and the value returned is the JSON value. *)
Local Abbreviation revives j :=
  (∀ h v h', revive j h = (v, h') →
     ∃ new, h' = h ++ new ∧ denotes h' v j ∧ fresh_val (length h) v ∧
            fresh_objs (length h) new).

Lemma revive_items_spec items :
  Forall (λ j, revives j) items →
  ∀ h vs h', revive_items revive items h = (vs, h') →
    ∃ new, h' = h ++ new ∧ Forall2 (denotes h') vs items ∧
           Forall (fresh_val (length h)) vs ∧ fresh_objs (length h) new.
Proof.
  induction 1 as [|j items Hj _ IH]; intros h vs h' Hrev; simpl in Hrev.
  - injection Hrev as <- <-. exists []. rewrite app_nil_r.
    repeat split; constructor.
  - destruct (revive j h) as [v h1] eqn:Hv.
    destruct (revive_items revive items h1) as [vs' h2] eqn:Hvs.
    injection Hrev as <- <-.
    destruct (Hj _ _ _ Hv) as (n1 & -> & Hd1 & Hf1 & Ho1).
    destruct (IH _ _ _ Hvs) as (n2 & -> & Hd2 & Hf2 & Ho2).
    rewrite length_app in Hf2, Ho2.
    exists (n1 ++ n2). rewrite app_assoc. repeat split.
    + constructor; [by apply denotes_app | done].
    + constructor; [done|].
      eapply Forall_impl; [done|]. intros v'. apply fresh_val_le. lia.
    + apply Forall_app. split; [done|].
      eapply fresh_objs_le; [|done]. lia.
Qed.

Lemma revive_members_spec members :
  Forall (λ m, revives m.2) members →
  ∀ h fs h', revive_members revive members h = (fs, h') →
    ∃ new, h' = h ++ new ∧
           Forall2 (λ f m, f.1 = m.1 ∧ denotes h' f.2 m.2) fs members ∧
           Forall (fresh_val (length h)) fs.*2 ∧ fresh_objs (length h) new.
Proof.
  induction 1 as [|[k j] members Hj _ IH]; intros h fs h' Hrev;
    simpl in Hrev.
  - injection Hrev as <- <-. exists []. rewrite app_nil_r.
    repeat split; constructor.
  - destruct (revive j h) as [v h1] eqn:Hv.
    destruct (revive_members revive members h1) as [fs' h2] eqn:Hfs.
    injection Hrev as <- <-.
    destruct (Hj _ _ _ Hv) as (n1 & -> & Hd1 & Hf1 & Ho1).
    destruct (IH _ _ _ Hfs) as (n2 & -> & Hd2 & Hf2 & Ho2).
    rewrite length_app in Hf2, Ho2.
    exists (n1 ++ n2). rewrite app_assoc. repeat split.
    + constructor; [split; [done | by apply denotes_app] | done].
    + constructor; [done|].
      eapply Forall_impl; [done|]. intros v'. apply fresh_val_le. lia.
    + apply Forall_app. split; [done|].
      eapply fresh_objs_le; [|done]. lia.
Qed.

Lemma revive_spec j : revives j.
Proof.
  induction j as [ | | | |items IH|members IH] using json_nested_ind;
    intros h v h' Hrev; simpl in Hrev.
  1-4: injection Hrev as <- <-; exists []; rewrite app_nil_r;
       repeat split; constructor.
  - destruct (revive_items revive items h) as [elems h1] eqn:Hitems.
    injection Hrev as <- <-.
    destruct (revive_items_spec items IH _ _ _ Hitems)
      as (new & -> & Hd & Hf & Ho).
    exists (new ++ [OArray elems []]). rewrite app_assoc. repeat split.
    + eapply denotes_array; [by apply list_lookup_middle|].
      eapply Forall2_impl; [done|]. intros. by apply denotes_app.
    + simpl. rewrite length_app. lia.
    + apply Forall_app. split; [done|]. constructor; [|constructor].
      simpl. by rewrite app_nil_r.
  - destruct (revive_members revive members h) as [fields h1] eqn:Hmembers.
    injection Hrev as <- <-.
    destruct (revive_members_spec members IH _ _ _ Hmembers)
      as (new & -> & Hd & Hf & Ho).
    exists (new ++ [OObject fields]). rewrite app_assoc. repeat split.
    + eapply denotes_object; [by apply list_lookup_middle|].
      eapply Forall2_impl; [done|]. intros f m [Hk Hm].
      split; [done | by apply denotes_app].
    + simpl. rewrite length_app. lia.
    + apply Forall_app. split; [done|]. by constructor; [|constructor].
Qed.

(** ** [JSON.stringify] on values that denote a JSON value *)

Lemma serialize_items_denoted ser elems items :
  Forall2 (λ v j, ser v = Json j) elems items →
  serialize_items ser elems = Some items.
Proof.
  induction 1 as [|v j elems items Hv _ IH]; simpl; [done|].
  by rewrite Hv, IH.
Qed.

Lemma serialize_members_denoted ser (fields : list (string * val)) members :
  Forall2 (λ f m, f.1 = m.1 ∧ ser f.2 = Json m.2) fields members →
  serialize_members ser fields = Some members.
Proof.
  induction 1 as [|[k v] [k' j] fields members [Hk Hv] _ IH]; simpl in *;
    [done|].
  by rewrite Hv, IH, Hk.
Qed.

Lemma depth_items_le (j : json) items :
  j ∈ items → depth j ≤ foldr (λ j d, depth j `max` d) 0 items.
Proof. induction 1; simpl; lia. Qed.

Lemma depth_members_le (m : string * json) members :
  m ∈ members → depth m.2 ≤ foldr (λ m d, depth m.2 `max` d) 0 members.
Proof. induction 1; simpl; lia. Qed.

(** With fuel for its nesting, a value that denotes [j] is written
    [j]. *)
Lemma serialize_denoted h j : ∀ fuel v,
  denotes h v j → depth j ≤ fuel → SerializeJSONProperty fuel h v = Json j.
Proof.
  induction j as [ | | | |items IH|members IH] using json_nested_ind;
    intros fuel v Hv Hfuel;
    inversion Hv as [ | | | |l elems props ? Hl Hall
                            |l fields ? Hl Hall]; subst;
    try by destruct fuel.
  - destruct fuel as [|fuel]; [simpl in Hfuel; lia|].
    simpl. rewrite Hl.
    erewrite serialize_items_denoted; [done|].
    apply Forall2_same_length_lookup. split; [by eapply Forall2_length|].
    intros i v j Hi Hj.
    rewrite Forall_lookup in IH. apply (IH i j Hj).
    + by eapply Forall2_lookup_lr.
    + pose proof (depth_items_le j items (list_elem_of_lookup_2 _ _ _ Hj)).
      simpl in Hfuel. lia.
  - destruct fuel as [|fuel]; [simpl in Hfuel; lia|].
    simpl. rewrite Hl.
    erewrite serialize_members_denoted; [done|].
    apply Forall2_same_length_lookup. split; [by eapply Forall2_length|].
    intros i f m Hi Hj.
    destruct (Forall2_lookup_lr _ _ _ _ _ _ Hall Hi Hj) as [Hk Hm].
    split; [done|].
    rewrite Forall_lookup in IH. apply (IH i m Hj); [done|].
    pose proof (depth_members_le m members (list_elem_of_lookup_2 _ _ _ Hj)).
    simpl in Hfuel. lia.
Qed.

(** *** The nesting of a denoted value is bounded by the store *)

Lemma depth_items_reached k items :
  1 ≤ k → k ≤ foldr (λ j d, depth j `max` d) 0 items →
  ∃ j, j ∈ items ∧ k ≤ depth j.
Proof.
  intros Hk. induction items as [|j items IH]; simpl; [lia|]. intros Hle.
  destruct (decide (k ≤ depth j)) as [|Hn].
  - exists j. split; [left | done].
  - destruct IH as (j' & Hin & Hj'); [lia|]. exists j'. split; [by right|done].
Qed.

Lemma depth_members_reached k (members : list (string * json)) :
  1 ≤ k → k ≤ foldr (λ m d, depth m.2 `max` d) 0 members →
  ∃ m, m ∈ members ∧ k ≤ depth m.2.
Proof.
  intros Hk. induction members as [|m members IH]; simpl; [lia|]. intros Hle.
  destruct (decide (k ≤ depth m.2)) as [|Hn].
  - exists m. split; [left | done].
  - destruct IH as (m' & Hin & Hm'); [lia|]. exists m'. split; [by right|done].
Qed.

(** Below a value of nesting [d] there is, for every [k] from 1 to [d],
    an object of nesting [k]. *)
Lemma denotes_chain h j : ∀ v k,
  denotes h v j → 1 ≤ k ≤ depth j →
  ∃ l j', l < length h ∧ denotes h (VRef l) j' ∧ depth j' = k.
Proof.
  induction j as [ | | | |items IH|members IH] using json_nested_ind;
    intros v k Hv Hk; try (simpl in Hk; lia);
    inversion Hv as [ | | | |l elems props ? Hl Hall
                            |l fields ? Hl Hall]; subst.
  - destruct (decide (k = depth (JArray items))) as [->|Hne].
    { exists l, (JArray items). split; [by eapply lookup_lt_Some | done]. }
    destruct (depth_items_reached k items) as (j & Hin & Hj);
      [lia | simpl in Hk, Hne; lia |].
    apply list_elem_of_lookup in Hin as [i Hi].
    destruct (Forall2_lookup_r _ _ _ _ _ Hall Hi) as (v & _ & Hvj).
    rewrite Forall_lookup in IH. eapply (IH i j Hi); [done | lia].
  - destruct (decide (k = depth (JObject members))) as [->|Hne].
    { exists l, (JObject members). split; [by eapply lookup_lt_Some | done]. }
    destruct (depth_members_reached k members) as (m & Hin & Hm);
      [lia | simpl in Hk, Hne; lia |].
    apply list_elem_of_lookup in Hin as [i Hi].
    destruct (Forall2_lookup_r _ _ _ _ _ Hall Hi) as (f & _ & _ & Hfm).
    rewrite Forall_lookup in IH. eapply (IH i m Hi); [done | lia].
Qed.

(** As many distinct locations as there are levels. *)
Lemma distinct_levels (bound d : nat) (level : nat → nat → Prop) :
  (∀ l k1 k2, level l k1 → level l k2 → k1 = k2) →
  (∀ k, 1 ≤ k ≤ d → ∃ l, l < bound ∧ level l k) →
  d ≤ bound.
Proof.
  intros Hfun Hlevels.
  assert (Hls : ∀ d', d' ≤ d →
    ∃ ls : list nat, length ls = d' ∧ NoDup ls ∧
      ∀ l, l ∈ ls → l < bound ∧ ∃ k, 1 ≤ k ≤ d' ∧ level l k).
  { induction d' as [|d' IH]; intros Hd'.
    - exists []. split; [done|]. split; [apply NoDup_nil_2|].
      intros l Hl. inversion Hl.
    - destruct IH as (ls & Hlen & Hnd & Hall); [lia|].
      destruct (Hlevels (S d')) as (l & Hl & Hlk); [lia|].
      exists (l :: ls). split; [simpl; lia|]. split.
      + apply NoDup_cons_2; [|done]. intros Hin.
        destruct (Hall l Hin) as (_ & k & Hk & Hlk').
        pose proof (Hfun _ _ _ Hlk Hlk'). lia.
      + intros l' [->|Hin]%elem_of_cons.
        * split; [done|]. exists (S d'). split; [lia | done].
        * destruct (Hall l' Hin) as (Hlt & k & Hk & Hlk').
          split; [done|]. exists k. split; [lia | done]. }
  destruct (Hls d) as (ls & <- & Hnd & Hall); [done|].
  trans (length (seq 0 bound)); [|by rewrite length_seq].
  apply submseteq_length.
  apply NoDup_submseteq; [done|]. intros l Hl.
  apply elem_of_seq. destruct (Hall l Hl). lia.
Qed.

Lemma denotes_depth h v j : denotes h v j → depth j ≤ length h.
Proof.
  intros Hv.
  apply (distinct_levels _ _
           (λ l k, ∃ j', denotes h (VRef l) j' ∧ depth j' = k)).
  - intros l k1 k2 (j1 & H1 & <-) (j2 & H2 & <-).
    by rewrite (denotes_inj _ _ _ _ H1 H2).
  - intros k Hk. destruct (denotes_chain h j v k Hv Hk) as (l & j' & ?& ? & ?).
    eauto.
Qed.

(** [JSON.stringify] returns the text of a value that denotes a JSON
    value. *)
Lemma JSON_stringify_denoted h v j :
  denotes h v j → JSON_stringify v h = Return (Some j) h.
Proof.
  intros Hv. unfold JSON_stringify.
  rewrite (serialize_denoted h j _ v Hv); [done|].
  pose proof (denotes_depth h v j Hv). lia.
Qed.

(** ** The array helpers *)

Lemma bind_Return {T U} (m : M T) (f : T → M U) h v h' :
  m h = Return v h' → (m ≫= f) h = f v h'.
Proof. unfold mbind, M_bind. by intros ->. Qed.

Lemma serialize_items_length ser elems : ∀ items,
  serialize_items ser elems = Some items → length items = length elems.
Proof.
  induction elems as [|v elems IH]; simpl; intros items Hitems.
  - by injection Hitems as <-.
  - destruct (ser v); [done | ..];
      destruct (serialize_items ser elems) as [items'|]; simplify_eq/=;
      f_equal; eauto.
Qed.

(** The text of an array has one item for each element. *)
Lemma JSON_stringify_array_length h arr s ps items :
  h !! arr = Some (OArray s ps) →
  JSON_stringify (VRef arr) h = Return (Some (JArray items)) h →
  length items = length s.
Proof.
  intros Harr. unfold JSON_stringify. simpl. rewrite Harr.
  destruct (serialize_items _ s) as [items'|] eqn:Hitems; [|done].
  intros [= <-]. by eapply serialize_items_length.
Qed.

(** [JSON.parse(JSON.stringify(arr))] on an array that can be written:
    the copy is the last of the objects added, its elements are the
    items of the text, and what was added refers to nothing of the
    store before. *)
Lemma clone_array h arr items :
  JSON_stringify arr h = Return (Some (JArray items)) h →
  ∃ new copies,
    (JSON_stringify arr ≫= JSON_parse) h
    = Return (VRef (length (h ++ new))) ((h ++ new) ++ [OArray copies []]) ∧
    fresh_objs (length h) new ∧
    Forall (fresh_val (length h)) copies ∧
    Forall2 (denotes (h ++ new)) copies items.
Proof.
  intros Htext. rewrite (bind_Return _ _ _ _ _ Htext).
  unfold JSON_parse. simpl.
  destruct (revive_items revive items h) as [copies h'] eqn:Hrev.
  destruct (revive_items_spec items) with (h := h) (vs := copies) (h' := h')
    as (new & -> & Hd & Hf & Ho); [|done|].
  { apply Forall_forall. intros j _. apply revive_spec. }
  by exists new, copies.
Qed.

Lemma array_of_last (h : heap) elems props :
  array_of (h ++ [OArray elems props]) (VRef (length h))
  = Some (length h, elems, props).
Proof. simpl. by rewrite list_lookup_middle. Qed.

Lemma insert_last (h : heap) (o o' : obj) :
  <[length h := o']> (h ++ [o]) = h ++ [o'].
Proof. rewrite insert_app_r_alt by lia. by rewrite Nat.sub_diag. Qed.

Lemma actualStart_bounds len start :
  (0 ≤ len)%Z → (0 ≤ actualStart len start ≤ len)%Z.
Proof. unfold actualStart. destruct (Z.ltb_spec start 0); lia. Qed.

(** [splice(start, 0, item)] on the array that ends the store. *)
Lemma splice_insert_last (h : heap) elems props start item :
  splice (VRef (length h)) start 0 [item] (h ++ [OArray elems props])
  = Return ()
      (h ++ [OArray
               (inserted (Z.to_nat (actualStart (Z.of_nat (length elems)) start))
                  item elems) props]).
Proof.
  unfold splice. rewrite array_of_last. cbv zeta. rewrite insert_last.
  pose proof (actualStart_bounds (Z.of_nat (length elems)) start).
  do 4 f_equal. unfold inserted. simpl. do 3 f_equal. lia.
Qed.

Lemma array_get_last (h : heap) elems props idx :
  array_get (VRef (length h)) idx (h ++ [OArray elems props])
  = Return (read_index elems props idx) (h ++ [OArray elems props]).
Proof. unfold array_get. by rewrite array_of_last. Qed.

Lemma array_set_last (h : heap) elems props idx v :
  array_set (VRef (length h)) idx v (h ++ [OArray elems props])
  = Return () (h ++ [write_index elems props idx v]).
Proof. unfold array_set. rewrite array_of_last. by rewrite insert_last. Qed.

(** An index in the array reads and writes the element. *)
Lemma read_index_in_range elems props (i : nat) v :
  elems !! i = Some v → read_index elems props (Z.of_nat i) = v.
Proof.
  intros Hi. pose proof (lookup_lt_Some _ _ _ Hi). unfold read_index.
  destruct (Z.ltb_spec (Z.of_nat i) 0) as [|_]; [lia|].
  destruct (Z.ltb_spec (Z.of_nat i) (Z.of_nat (length elems))) as [_|]; [|lia].
  by rewrite Nat2Z.id, Hi.
Qed.

Lemma write_index_in_range elems props (i : nat) v :
  i < length elems →
  write_index elems props (Z.of_nat i) v = OArray (<[i := v]> elems) props.
Proof.
  intros Hi. unfold write_index.
  destruct (Z.ltb_spec (Z.of_nat i) 0) as [|_]; [lia|].
  destruct (Z.ltb_spec (Z.of_nat i) (Z.of_nat (length elems))) as [_|]; [|lia].
  by rewrite Nat2Z.id.
Qed.

(** What the three helpers come to, on an array that can be written. *)
Lemma insertBefore_run h arr items idx item :
  JSON_stringify arr h = Return (Some (JArray items)) h →
  ∃ new copies,
    insertBefore arr idx item h
    = Return (VRef (length (h ++ new)))
        ((h ++ new)
         ++ [OArray (inserted (Z.to_nat (actualStart (Z.of_nat (length copies))
                                           (Z.max 0 idx))) item copies) []]) ∧
    fresh_objs (length h) new ∧
    Forall (fresh_val (length h)) copies ∧
    Forall2 (denotes (h ++ new)) copies items.
Proof.
  intros Htext.
  destruct (clone_array h arr items Htext) as (new & copies & Hclone & Hrest).
  exists new, copies. split; [|done].
  unfold insertBefore. unfold mbind, M_bind in *.
  destruct (JSON_stringify arr h) as [text h0|]; [|done].
  rewrite Hclone. cbv zeta. by rewrite splice_insert_last.
Qed.

Lemma insertAfter_run h arr s ps items idx item :
  h !! arr = Some (OArray s ps) →
  JSON_stringify (VRef arr) h = Return (Some (JArray items)) h →
  ∃ new copies,
    insertAfter (VRef arr) idx item h
    = Return (VRef (length (h ++ new)))
        ((h ++ new)
         ++ [OArray (inserted (Z.to_nat (actualStart (Z.of_nat (length copies))
                                 (Z.min (Z.of_nat (length s)) (idx + 1))))
                       item copies) []]) ∧
    fresh_objs (length h) new ∧
    Forall (fresh_val (length h)) copies ∧
    Forall2 (denotes (h ++ new)) copies items.
Proof.
  intros Harr Htext.
  destruct (clone_array h _ items Htext) as (new & copies & Hclone & Hrest).
  exists new, copies. split; [|done].
  unfold insertAfter. unfold mbind, M_bind in *.
  destruct (JSON_stringify (VRef arr) h) as [text h0|]; [|done].
  rewrite Hclone. unfold array_length, array_of.
  rewrite <- app_assoc, (lookup_app_l_Some _ _ _ _ Harr), app_assoc.
  cbv zeta. by rewrite splice_insert_last.
Qed.

(** Reading and writing an element keep any property that the values
    of the array and [undefined] have. *)
Section ArrayAccess.
Variable P : val → Prop.
Hypothesis P_undefined : P VUndefined.

Lemma lookup_prop_keeps key props : Forall P props.*2 → P (lookup_prop key props).
Proof.
  induction props as [|[k v] props IH]; simpl; [done|].
  intros [Hv Hprops]%Forall_cons. destruct (decide (k = key)); auto.
Qed.

Lemma store_prop_keeps key v props :
  P v → Forall P props.*2 → Forall P (store_prop key v props).*2.
Proof.
  intros Hv. induction props as [|[k v'] props IH]; simpl.
  - by repeat constructor.
  - intros [Hv' Hprops]%Forall_cons.
    destruct (decide (k = key)); simpl; constructor; auto.
Qed.

Lemma array_get_keeps (h : heap) elems props idx :
  Forall P (obj_vals (OArray elems props)) →
  ∃ v, array_get (VRef (length h)) idx (h ++ [OArray elems props])
       = Return v (h ++ [OArray elems props]) ∧ P v.
Proof.
  simpl. intros [Helems Hprops]%Forall_app. rewrite array_get_last.
  eexists. split; [done|]. unfold read_index.
  destruct (idx <? 0)%Z; [by apply lookup_prop_keeps|].
  destruct (idx <? _)%Z.
  - destruct (elems !! Z.to_nat idx) as [v|] eqn:Hv; simpl; [|done].
    exact (Forall_lookup_1 _ _ _ _ Helems Hv).
  - destruct (idx <=? _)%Z; [done|]. by apply lookup_prop_keeps.
Qed.

Lemma array_set_keeps (h : heap) elems props idx v :
  P v → Forall P (obj_vals (OArray elems props)) →
  ∃ elems' props',
    array_set (VRef (length h)) idx v (h ++ [OArray elems props])
    = Return () (h ++ [OArray elems' props']) ∧
    Forall P (obj_vals (OArray elems' props')).
Proof.
  simpl. intros Hv [Helems Hprops]%Forall_app. rewrite array_set_last.
  unfold write_index.
  destruct (idx <? 0)%Z;
    [|destruct (idx <? _)%Z; [|destruct (idx <=? _)%Z]]; do 2 eexists;
    (split; [done|]); simpl; rewrite ?Forall_app; repeat split; try done.
  - by apply store_prop_keeps.
  - by apply Forall_insert.
  - by apply Forall_replicate.
  - by repeat constructor.
  - by apply store_prop_keeps.
Qed.
End ArrayAccess.

(** [swapElements], whatever the indices: the copy holds copies of
    elements and [undefined], nothing else. *)
Lemma swapElements_run h arr items idx1 idx2 :
  JSON_stringify arr h = Return (Some (JArray items)) h →
  ∃ new elems props,
    swapElements arr idx1 idx2 h
    = Return (VRef (length (h ++ new))) ((h ++ new) ++ [OArray elems props]) ∧
    fresh_objs (length h) new ∧
    Forall (fresh_val (length h)) (obj_vals (OArray elems props)).
Proof.
  intros Htext.
  destruct (clone_array h arr items Htext)
    as (new & copies & Hclone & Hnew & Hcopies & _).
  assert (Hvals : Forall (fresh_val (length h)) (obj_vals (OArray copies []))).
  { simpl. by rewrite app_nil_r. }
  destruct (array_get_keeps (fresh_val (length h)) I (h ++ new) copies []
              idx2 Hvals) as (right1 & Hget1 & Hright1).
  destruct (array_get_keeps (fresh_val (length h)) I (h ++ new) copies []
              idx1 Hvals) as (right2 & Hget2 & Hright2).
  destruct (array_set_keeps (fresh_val (length h)) I (h ++ new) copies []
              idx1 right1 Hright1 Hvals) as (elems1 & props1 & Hset1 & Hvals1).
  destruct (array_set_keeps (fresh_val (length h)) I (h ++ new) elems1 props1
              idx2 right2 Hright2 Hvals1) as (elems2 & props2 & Hset2 & Hvals2).
  exists new, elems2, props2. split; [|done].
  unfold swapElements. unfold mbind, M_bind in *.
  destruct (JSON_stringify arr h) as [text h0|]; [|done].
  by rewrite Hclone, Hget1, Hget2, Hset1, Hset2.
Qed.

(** With both indices in the array, the two elements are exchanged. *)
Lemma swapElements_in_range h arr items (i j : nat) :
  JSON_stringify arr h = Return (Some (JArray items)) h →
  i < length items → j < length items →
  ∃ new copies,
    swapElements arr (Z.of_nat i) (Z.of_nat j) h
    = Return (VRef (length (h ++ new)))
        ((h ++ new) ++ [OArray (exchanged i j copies) []]) ∧
    Forall2 (denotes (h ++ new)) copies items.
Proof.
  intros Htext Hi Hj.
  destruct (clone_array h arr items Htext)
    as (new & copies & Hclone & _ & _ & Hcopies).
  exists new, copies. split; [|done].
  pose proof (Forall2_length _ _ _ Hcopies) as Hlen.
  destruct (lookup_lt_is_Some_2 copies i) as [ci Hci]; [lia|].
  destruct (lookup_lt_is_Some_2 copies j) as [cj Hcj]; [lia|].
  unfold swapElements. unfold mbind, M_bind in *.
  destruct (JSON_stringify arr h) as [text h0|]; [|done].
  rewrite Hclone, !array_get_last.
  rewrite (read_index_in_range _ _ _ _ Hci), (read_index_in_range _ _ _ _ Hcj).
  rewrite array_set_last, write_index_in_range by lia.
  rewrite array_set_last, write_index_in_range by (rewrite length_insert; lia).
  unfold exchanged. by rewrite Hci, Hcj.
Qed.

(** *** Insertion and exchange in a list *)

Section ListFacts.
Context {T : Type}.
Implicit Types (l : list T) (x : T).

Lemma length_inserted p x l : length (inserted p x l) = S (length l).
Proof.
  unfold inserted. rewrite length_app, length_take. simpl.
  rewrite length_drop. lia.
Qed.

Lemma inserted_lookup p x l : p ≤ length l → inserted p x l !! p = Some x.
Proof.
  intros Hp. unfold inserted.
  rewrite lookup_app_r; rewrite length_take; [|lia].
  by replace (p - p `min` length l) with 0 by lia.
Qed.

Lemma inserted_first x l : inserted 0 x l = x :: l.
Proof. unfold inserted. by rewrite take_0, drop_0. Qed.

Lemma inserted_last p x l : length l ≤ p → inserted p x l = l ++ [x].
Proof. intros Hp. unfold inserted. by rewrite take_ge, drop_ge. Qed.

Lemma exchanged_length i j l : length (exchanged i j l) = length l.
Proof.
  unfold exchanged. destruct (l !! i), (l !! j); try done.
  by rewrite !length_insert.
Qed.

Lemma exchanged_involutive i j l : exchanged i j (exchanged i j l) = l.
Proof.
  unfold exchanged at 2.
  destruct (l !! i) as [x|] eqn:Hi; [|by unfold exchanged; rewrite Hi].
  destruct (l !! j) as [y|] eqn:Hj; [|by unfold exchanged; rewrite Hi, Hj].
  pose proof (lookup_lt_Some _ _ _ Hi) as Hilt.
  pose proof (lookup_lt_Some _ _ _ Hj) as Hjlt.
  unfold exchanged.
  rewrite (list_lookup_insert_eq _ j) by by rewrite length_insert.
  destruct (decide (i = j)) as [->|Hne].
  - rewrite list_lookup_insert_eq by by rewrite length_insert.
    simplify_eq. rewrite !list_insert_insert_eq. by apply list_insert_id.
  - rewrite list_lookup_insert_ne by done.
    rewrite list_lookup_insert_eq by done.
    apply list_eq. intros k.
    destruct (decide (k = j)) as [->|Hkj].
    { rewrite list_lookup_insert_eq by by rewrite !length_insert. done. }
    rewrite list_lookup_insert_ne by done.
    destruct (decide (k = i)) as [->|Hki].
    { rewrite list_lookup_insert_eq by by rewrite !length_insert. done. }
    by rewrite !list_lookup_insert_ne by done.
Qed.

Lemma Forall2_exchanged {U} (R : T → U → Prop) i j l (k : list U) :
  Forall2 R l k → Forall2 R (exchanged i j l) (exchanged i j k).
Proof.
  intros Hlk. unfold exchanged.
  destruct (l !! i) as [x|] eqn:Hi.
  - destruct (Forall2_lookup_l _ _ _ _ _ Hlk Hi) as (x' & -> & Hx).
    destruct (l !! j) as [y|] eqn:Hj.
    + destruct (Forall2_lookup_l _ _ _ _ _ Hlk Hj) as (y' & -> & Hy).
      by repeat apply Forall2_insert.
    + rewrite (lookup_ge_None_2 k j); [done|].
      rewrite <- (Forall2_length _ _ _ Hlk). by apply lookup_ge_None.
  - rewrite (lookup_ge_None_2 k i); [done|].
    rewrite <- (Forall2_length _ _ _ Hlk). by apply lookup_ge_None.
Qed.
End ListFacts.

(** *** The specified properties *)

Lemma actualStart_nonneg len start :
  (0 ≤ start)%Z → actualStart len start = Z.min start len.
Proof. unfold actualStart. destruct (Z.ltb_spec start 0); [lia | done]. Qed.

Lemma actualStart_neg len start :
  (start < 0)%Z → actualStart len start = Z.max (len + start) 0.
Proof. unfold actualStart. destruct (Z.ltb_spec start 0); [done | lia]. Qed.

(** An array that [JSON.stringify] writes as an array is an array of the
    store. *)
Lemma JSON_stringify_array_inv arr h items :
  JSON_stringify arr h = Return (Some (JArray items)) h →
  ∃ l s ps, arr = VRef l ∧ h !! l = Some (OArray s ps).
Proof.
  unfold JSON_stringify. destruct arr as [ | | |[]| |l| | ]; simpl; try done.
  destruct (h !! l) as [[s ps|fields|]|] eqn:Hl; try done; [by eauto|].
  by destruct (serialize_members _ fields).
Qed.

(** C7 (amended). For an array [s] of the store that [JSON.stringify]
    can write, [insertBefore(s, idx, item)] returns a new array, of length
    [len(s) + 1]: the copies of the elements of [s] with [item] put in
    at position [max(0, idx)], clamped to [len(s)], what follows moving
    one place to the right. So for [0 <= idx <= len(s)] the element at
    [idx] is [item], a negative [idx] puts [item] first, and an [idx]
    beyond [len(s)] puts it last. The copies denote the items that
    [JSON.stringify] wrote, which are those that [s] denotes when it
    denotes a JSON value; [s] itself is as it was. *)
Theorem insertBefore_inserts h arr s ps items idx item :
  h !! arr = Some (OArray s ps) →
  JSON_stringify (VRef arr) h = Return (Some (JArray items)) h →
  ∃ r hf copies,
    let position :=
      Z.to_nat (Z.min (Z.max 0 idx) (Z.of_nat (length s))) in
    let result := inserted position item copies in
    insertBefore (VRef arr) idx item h = Return (VRef r) hf ∧
    hf !! r = Some (OArray result []) ∧
    Forall2 (denotes hf) copies items ∧
    (∀ j, denotes h (VRef arr) j → j = JArray items) ∧
    length copies = length s ∧
    length result = S (length s) ∧
    ((0 ≤ idx ≤ Z.of_nat (length s))%Z → result !! Z.to_nat idx = Some item) ∧
    ((idx < 0)%Z → result = item :: copies) ∧
    ((Z.of_nat (length s) < idx)%Z → result = copies ++ [item]) ∧
    hf !! arr = Some (OArray s ps) ∧ r ≠ arr.
Proof.
  intros Harr Htext.
  destruct (insertBefore_run h _ items idx item Htext)
    as (new & copies & Hrun & _ & _ & Hcopies).
  pose proof (JSON_stringify_array_length _ _ _ _ _ Harr Htext) as Hitems.
  pose proof (Forall2_length _ _ _ Hcopies) as Hlen.
  rewrite actualStart_nonneg in Hrun by lia.
  replace (Z.of_nat (length copies)) with (Z.of_nat (length s)) in Hrun by lia.
  eexists _, _, copies. cbv zeta.
  split; [exact Hrun|]. split; [by apply list_lookup_middle|].
  split; [eapply Forall2_impl; [done|]; intros; by apply denotes_app|].
  split.
  { intros j Hj. pose proof (JSON_stringify_denoted _ _ _ Hj). congruence. }
  split; [lia|]. split; [rewrite length_inserted; lia|].
  split; [|split; [|split; [|split]]].
  - intros Hidx.
    replace (Z.min (Z.max 0 idx) (Z.of_nat (length s))) with idx by lia.
    apply inserted_lookup. lia.
  - intros Hidx.
    replace (Z.min (Z.max 0 idx) (Z.of_nat (length s))) with 0%Z by lia.
    apply inserted_first.
  - intros Hidx. apply inserted_last. lia.
  - rewrite <- app_assoc. by apply lookup_app_l_Some.
  - pose proof (lookup_lt_Some _ _ _ Harr). rewrite length_app. lia.
Qed.

(** C5 (amended). For an array [s] of the store that [JSON.stringify]
    can write, [insertAfter(s, idx, item)] returns a new array: the
    copies of the elements of [s] with [item] put in at position
    [min(len(s), idx + 1)] when [idx >= -1], and at position
    [max(0, len(s) + idx + 1)] when [idx < -1], since [splice] counts a
    negative start from the end. With [idx = len(s) - 1] the item comes
    last. *)
Theorem insertAfter_inserts h arr s ps items idx item :
  h !! arr = Some (OArray s ps) →
  JSON_stringify (VRef arr) h = Return (Some (JArray items)) h →
  ∃ r hf copies,
    let len := Z.of_nat (length s) in
    let position :=
      Z.to_nat (if (idx <? -1)%Z then Z.max 0 (len + idx + 1)
                else Z.min len (idx + 1)) in
    let result := inserted position item copies in
    insertAfter (VRef arr) idx item h = Return (VRef r) hf ∧
    hf !! r = Some (OArray result []) ∧
    Forall2 (denotes hf) copies items ∧
    (∀ j, denotes h (VRef arr) j → j = JArray items) ∧
    length copies = length s ∧
    length result = S (length s) ∧
    (idx = (len - 1)%Z → result = copies ++ [item]) ∧
    hf !! arr = Some (OArray s ps) ∧ r ≠ arr.
Proof.
  intros Harr Htext.
  destruct (insertAfter_run h _ _ _ items idx item Harr Htext)
    as (new & copies & Hrun & _ & _ & Hcopies).
  pose proof (JSON_stringify_array_length _ _ _ _ _ Harr Htext) as Hitems.
  pose proof (Forall2_length _ _ _ Hcopies) as Hlen.
  replace (Z.of_nat (length copies)) with (Z.of_nat (length s)) in Hrun by lia.
  assert (Hpos : actualStart (Z.of_nat (length s))
                   (Z.min (Z.of_nat (length s)) (idx + 1))
                 = if (idx <? -1)%Z
                   then Z.max 0 (Z.of_nat (length s) + idx + 1)
                   else Z.min (Z.of_nat (length s)) (idx + 1)).
  { destruct (Z.ltb_spec idx (-1)).
    - rewrite actualStart_neg; lia.
    - rewrite actualStart_nonneg; lia. }
  rewrite Hpos in Hrun.
  eexists _, _, copies. cbv zeta.
  split; [exact Hrun|]. split; [by apply list_lookup_middle|].
  split; [eapply Forall2_impl; [done|]; intros; by apply denotes_app|].
  split.
  { intros j Hj. pose proof (JSON_stringify_denoted _ _ _ Hj). congruence. }
  split; [lia|]. split; [rewrite length_inserted; lia|].
  split; [|split].
  - intros ->. apply inserted_last.
    destruct (Z.ltb_spec (Z.of_nat (length s) - 1) (-1)); lia.
  - rewrite <- app_assoc. by apply lookup_app_l_Some.
  - pose proof (lookup_lt_Some _ _ _ Harr). rewrite length_app. lia.
Qed.

(** C6 (amended). For an array [s] of the store that [JSON.stringify]
    can write, and two indices in the array, [swapElements(s, i, j)]
    returns a new array that denotes the items written for [s] with
    those at [i] and [j] exchanged, and applying [swapElements] with the
    same indices to that array returns one that denotes the items
    written for [s]: it is equal to the JSON copy of [s], and so to [s]
    in depth when [s] denotes a JSON value, that is when nothing is
    lost in writing it. [s] itself is as it was. *)
Theorem swapElements_twice h arr items (i j : nat) :
  JSON_stringify (VRef arr) h = Return (Some (JArray items)) h →
  i < length items → j < length items →
  ∃ r1 h1 r2 h2,
    swapElements (VRef arr) (Z.of_nat i) (Z.of_nat j) h = Return (VRef r1) h1 ∧
    denotes h1 (VRef r1) (JArray (exchanged i j items)) ∧
    swapElements (VRef r1) (Z.of_nat i) (Z.of_nat j) h1 = Return (VRef r2) h2 ∧
    denotes h2 (VRef r2) (JArray items) ∧
    (∀ js, denotes h (VRef arr) js →
           js = JArray items ∧ denotes h2 (VRef arr) (JArray items)).
Proof.
  intros Htext Hi Hj.
  destruct (swapElements_in_range h _ items i j Htext Hi Hj)
    as (new1 & copies1 & Hrun1 & Hcopies1).
  set (h1 := (h ++ new1) ++ [OArray (exchanged i j copies1) []]) in *.
  assert (Hd1 : denotes h1 (VRef (length (h ++ new1)))
                  (JArray (exchanged i j items))).
  { eapply denotes_array; [by apply list_lookup_middle|].
    apply Forall2_exchanged.
    eapply Forall2_impl; [done|]. intros. by apply denotes_app. }
  pose proof (JSON_stringify_denoted _ _ _ Hd1) as Htext1.
  destruct (swapElements_in_range h1 _ _ i j Htext1)
    as (new2 & copies2 & Hrun2 & Hcopies2);
    [by rewrite exchanged_length .. |].
  eexists _, _, _, _.
  split; [exact Hrun1|]. split; [exact Hd1|]. split; [exact Hrun2|]. split.
  - rewrite <- (exchanged_involutive i j items).
    eapply denotes_array; [by apply list_lookup_middle|].
    apply Forall2_exchanged.
    eapply Forall2_impl; [done|]. intros. by apply denotes_app.
  - intros js Hs.
    assert (js = JArray items) as ->.
    { pose proof (JSON_stringify_denoted _ _ _ Hs). congruence. }
    split; [done|]. unfold h1. by do 4 apply denotes_app.
Qed.

Lemma copy_in_unchanged h items r hf shared :
  copy_in h items r hf shared →
  length h ≤ r ∧ (∀ l o, h !! l = Some o → hf !! l = Some o) ∧
  ∃ o, hf !! r = Some o ∧
       Forall (λ v, fresh_val (length h) v ∨ v ∈ shared) (obj_vals o).
Proof.
  intros (new & o & copies & -> & -> & _ & Hfresh & _ & _ & Hvals).
  split; [rewrite length_app; lia|]. split.
  { intros l o'. apply lookup_app_l_Some. }
  exists o. split; [by rewrite app_assoc, list_lookup_middle|].
  eapply Forall_impl; [done|]. intros v [Hv|[->|Hv]]; [|by left|by right].
  left. rewrite Forall_forall in Hfresh. by apply Hfresh.
Qed.

(** *** Reading and writing at an index *)

Lemma lookup_prop_store_same key v props :
  lookup_prop key (store_prop key v props) = v.
Proof.
  induction props as [|[k v'] props IH]; simpl.
  - by rewrite decide_True.
  - destruct (decide (k = key)) as [->|Hk]; simpl.
    + by rewrite decide_True.
    + by rewrite decide_False.
Qed.

Lemma lookup_prop_store_other key key' v props :
  key ≠ key' →
  lookup_prop key' (store_prop key v props) = lookup_prop key' props.
Proof.
  intros Hne. induction props as [|[k v'] props IH]; simpl.
  - by rewrite decide_False.
  - destruct (decide (k = key)) as [->|Hk]; simpl.
    + by rewrite !decide_False.
    + destruct (decide (k = key')); [done|]. apply IH.
Qed.

Lemma lookup_prop_elem key props :
  lookup_prop key props ≠ VUndefined → lookup_prop key props ∈ props.*2.
Proof.
  induction props as [|[k v] props IH]; simpl; [done|].
  destruct (decide (k = key)); [intros _; apply elem_of_cons; by left|].
  intros H. apply elem_of_cons. right. by apply IH.
Qed.

Lemma store_prop_keeps_others key v props c :
  c ∈ props.*2 →
  c ∈ (store_prop key v props).*2 ∨ c = lookup_prop key props.
Proof.
  induction props as [|[k v'] props IH]; simpl; [by intros ?%elem_of_nil|].
  intros [->|Hc]%elem_of_cons; destruct (decide (k = key)); simpl.
  - by right.
  - left. apply elem_of_cons. by left.
  - left. apply elem_of_cons. by right.
  - destruct (IH Hc) as [H|H]; [|by right].
    left. apply elem_of_cons. by right.
Qed.

Section ReadWrite.
Variables (elems : list val) (props : list (Z * val)) (idx : Z) (v : val).
Variables (elems' : list val) (props' : list (Z * val)).
Hypothesis Hwrite : write_index elems props idx v = OArray elems' props'.

(** What is written at an index is read there. *)
Lemma read_index_write_same : read_index elems' props' idx = v.
Proof using Hwrite.
  revert Hwrite. unfold write_index, read_index.
  destruct (Z.ltb_spec idx 0) as [Hneg|Hpos].
  { intros [= <- <-]. apply lookup_prop_store_same. }
  destruct (Z.ltb_spec idx (Z.of_nat (length elems))) as [Hin|Hout].
  { intros [= <- <-]. rewrite length_insert.
    destruct (Z.ltb_spec idx (Z.of_nat (length elems))) as [_|]; [|lia].
    rewrite list_lookup_insert_eq by lia. done. }
  destruct (Z.leb_spec idx MAX_ARRAY_INDEX) as [Hmax|Hmax].
  - intros [= <- <-]. rewrite !length_app, length_replicate. simpl.
    destruct (Z.ltb_spec idx (Z.of_nat (length elems
                                 + (Z.to_nat idx - length elems + 1))))
      as [_|]; [|lia].
    rewrite lookup_app_r by lia.
    rewrite lookup_app_r by (rewrite length_replicate; lia).
    rewrite length_replicate.
    by replace (Z.to_nat idx - length elems
                - (Z.to_nat idx - length elems)) with 0 by lia.
  - intros [= <- <-].
    destruct (Z.ltb_spec idx (Z.of_nat (length elems))) as [|_]; [lia|].
    apply lookup_prop_store_same.
Qed.

(** Writing at an index changes what is read at no other. *)
Lemma read_index_write_other (idx' : Z) :
  idx' ≠ idx → read_index elems' props' idx' = read_index elems props idx'.
Proof using Hwrite.
  intros Hne. revert Hwrite. unfold write_index, read_index.
  destruct (Z.ltb_spec idx 0) as [Hneg|Hpos].
  { intros [= <- <-]. by rewrite lookup_prop_store_other. }
  destruct (Z.ltb_spec idx (Z.of_nat (length elems))) as [Hin|Hout].
  { intros [= <- <-]. rewrite length_insert.
    destruct (Z.ltb_spec idx' 0); [done|].
    destruct (Z.ltb_spec idx' (Z.of_nat (length elems))); [|done].
    rewrite list_lookup_insert_ne by lia. done. }
  destruct (Z.leb_spec idx MAX_ARRAY_INDEX) as [Hmax|Hmax].
  - intros [= <- <-]. rewrite !length_app, length_replicate. simpl.
    destruct (Z.ltb_spec idx' 0); [done|].
    destruct (Z.ltb_spec idx' (Z.of_nat (length elems))) as [Hin'|Hout'].
    + destruct (Z.ltb_spec idx' (Z.of_nat (length elems
                                 + (Z.to_nat idx - length elems + 1))))
        as [_|]; [|lia].
      by rewrite lookup_app_l by lia.
    + destruct (Z.ltb_spec idx' (Z.of_nat (length elems
                                 + (Z.to_nat idx - length elems + 1))))
        as [Hin''|Hout''].
      * rewrite lookup_app_r by lia.
        rewrite lookup_app_l by (rewrite length_replicate; lia).
        rewrite lookup_replicate_2 by lia.
        destruct (Z.leb_spec idx' MAX_ARRAY_INDEX); [done|lia].
      * done.
  - intros [= <- <-]. by rewrite lookup_prop_store_other.
Qed.

(** Writing at an index loses at most what was read there. *)
Lemma write_index_keeps_others (c : val) :
  c ∈ elems ++ props.*2 →
  c ∈ elems' ++ props'.*2 ∨ c = read_index elems props idx.
Proof using Hwrite.
  revert Hwrite. unfold write_index, read_index.
  rewrite !elem_of_app.
  destruct (Z.ltb_spec idx 0) as [Hneg|Hpos].
  { intros [= <- <-] [Hc|Hc]; [by left; left|].
    destruct (store_prop_keeps_others idx v props c Hc); auto. }
  destruct (Z.ltb_spec idx (Z.of_nat (length elems))) as [Hin|Hout].
  { intros [= <- <-] [Hc|Hc]; [|by left; right].
    apply list_elem_of_lookup in Hc as [k Hk].
    destruct (decide (k = Z.to_nat idx)) as [->|Hne].
    - right. by rewrite Hk.
    - left. left. apply list_elem_of_lookup. exists k.
      by rewrite list_lookup_insert_ne. }
  destruct (Z.leb_spec idx MAX_ARRAY_INDEX) as [Hmax|Hmax].
  - intros [= <- <-] [Hc|Hc]; [|by left; right].
    left. left. rewrite elem_of_app. by left.
  - intros [= <- <-] [Hc|Hc]; [by left; left|].
    destruct (store_prop_keeps_others idx v props c Hc); auto.
Qed.
End ReadWrite.

(** What is read at an index, unless [undefined], is a value of the
    array. *)
Lemma read_index_elem elems props idx :
  read_index elems props idx ≠ VUndefined →
  read_index elems props idx ∈ elems ++ props.*2.
Proof.
  unfold read_index. rewrite elem_of_app.
  destruct (idx <? 0)%Z; [right; by apply lookup_prop_elem|].
  destruct (idx <? _)%Z.
  - destruct (elems !! Z.to_nat idx) as [w|] eqn:Hw; simpl; [|done].
    intros _. left. by eapply list_elem_of_lookup_2.
  - destruct (idx <=? _)%Z; [done|]. right. by apply lookup_prop_elem.
Qed.

(** Exchanging what is read at two indices loses no value but
    [undefined]. *)
Lemma exchange_keeps elems props idx1 idx2 elems1 props1 elems2 props2 c :
  write_index elems props idx1 (read_index elems props idx2)
  = OArray elems1 props1 →
  write_index elems1 props1 idx2 (read_index elems props idx1)
  = OArray elems2 props2 →
  c ≠ VUndefined → c ∈ elems ++ props.*2 → c ∈ elems2 ++ props2.*2.
Proof.
  intros Hw1 Hw2 Hc Hin.
  assert (Hlast : c = read_index elems props idx1 → c ∈ elems2 ++ props2.*2).
  { intros Heq. rewrite <- Heq in Hw2.
    rewrite <- (read_index_write_same _ _ _ _ _ _ Hw2).
    apply read_index_elem.
    by rewrite (read_index_write_same _ _ _ _ _ _ Hw2). }
  destruct (write_index_keeps_others _ _ _ _ _ _ Hw1 c Hin) as [Hin1|Heq];
    [|by apply Hlast].
  destruct (write_index_keeps_others _ _ _ _ _ _ Hw2 c Hin1) as [Hin2|Heq];
    [done|].
  destruct (decide (idx2 = idx1)) as [->|Hne].
  - rewrite (read_index_write_same _ _ _ _ _ _ Hw1) in Heq. by apply Hlast.
  - rewrite (read_index_write_other _ _ _ _ _ _ Hw1) in Heq by done.
    assert (Hread : read_index elems2 props2 idx1 = c).
    { rewrite (read_index_write_other _ _ _ _ _ _ Hw2) by done.
      by rewrite (read_index_write_same _ _ _ _ _ _ Hw1). }
    rewrite <- Hread. apply read_index_elem. by rewrite Hread.
Qed.

Lemma write_index_array elems props idx v :
  ∃ elems' props', write_index elems props idx v = OArray elems' props'.
Proof.
  unfold write_index.
  destruct (idx <? 0)%Z; [|destruct (idx <? _)%Z; [|destruct (idx <=? _)%Z]];
    eauto.
Qed.

Lemma denotes_not_undefined h v j : denotes h v j → v ≠ VUndefined.
Proof. by inversion 1. Qed.

(** C8 (amended). On an array of the store that [JSON.stringify] can
    write, each of the three helpers leaves the store as it was and adds
    objects to it, of which the array returned is one. The array
    returned holds a copy of each element of the input, that is a
    value, made of objects added, that denotes the item written for
    the element; besides it holds [item], as it was passed, when it is
    returned by [insertBefore] or [insertAfter], and nothing else but
    holes. So the array returned is new, its elements are those of the
    input copied in depth, it shares nothing with the input when
    [swapElements] returns it, and shares with the input at most what
    [item] refers to when an insertion returns it. *)
Theorem array_helpers_copy h arr items :
  JSON_stringify arr h = Return (Some (JArray items)) h →
  (∀ idx item, ∃ r hf,
     insertBefore arr idx item h = Return (VRef r) hf ∧
     copy_in h items r hf [item]) ∧
  (∀ idx item, ∃ r hf,
     insertAfter arr idx item h = Return (VRef r) hf ∧
     copy_in h items r hf [item]) ∧
  (∀ idx1 idx2, ∃ r hf,
     swapElements arr idx1 idx2 h = Return (VRef r) hf ∧
     copy_in h items r hf []).
Proof.
  intros Htext.
  assert (Hins : ∀ new copies p item,
    fresh_objs (length h) new → Forall (fresh_val (length h)) copies →
    Forall2 (denotes (h ++ new)) copies items →
    copy_in h items (length (h ++ new))
      ((h ++ new) ++ [OArray (inserted p item copies) []]) [item]).
  { intros new copies p item Hnew Hfresh Hcopies.
    exists new, (OArray (inserted p item copies) []), copies.
    rewrite <- app_assoc. repeat split; [done|done| | |].
    - rewrite app_assoc. eapply Forall2_impl; [done|].
      intros. by apply denotes_app.
    - simpl. rewrite app_nil_r. apply Forall_forall. intros c Hc.
      unfold inserted. rewrite <- (take_drop p copies) in Hc.
      rewrite elem_of_app, elem_of_cons.
      apply elem_of_app in Hc as [Hc|Hc]; auto.
    - simpl. rewrite app_nil_r. apply Forall_forall. intros v.
      unfold inserted. rewrite elem_of_app, elem_of_cons.
      intros [Hv|[->|Hv]].
      + left. rewrite <- (take_drop p copies), elem_of_app. by left.
      + right. right. apply elem_of_cons. by left.
      + left. rewrite <- (take_drop p copies), elem_of_app. by right. }
  split; [|split].
  - intros idx item.
    destruct (insertBefore_run h arr items idx item Htext)
      as (new & copies & Hrun & Hnew & Hfresh & Hcopies).
    eexists _, _. split; [exact Hrun|]. by apply Hins.
  - intros idx item.
    destruct (JSON_stringify_array_inv _ _ _ Htext) as (l & s & ps & -> & Hl).
    destruct (insertAfter_run h l s ps items idx item Hl Htext)
      as (new & copies & Hrun & Hnew & Hfresh & Hcopies).
    eexists _, _. split; [exact Hrun|]. by apply Hins.
  - intros idx1 idx2.
    destruct (clone_array h arr items Htext)
      as (new & copies & Hclone & Hnew & Hfresh & Hcopies).
    destruct (write_index_array copies [] idx1 (read_index copies [] idx2))
      as (elems1 & props1 & Hw1).
    destruct (write_index_array elems1 props1 idx2 (read_index copies [] idx1))
      as (elems2 & props2 & Hw2).
    exists (length (h ++ new)), ((h ++ new) ++ [OArray elems2 props2]).
    split.
    { unfold swapElements. unfold mbind, M_bind in *.
      destruct (JSON_stringify arr h) as [text h0|]; [|done].
      rewrite Hclone, !array_get_last, array_set_last, Hw1.
      by rewrite array_set_last, Hw2. }
    exists new, (OArray elems2 props2), copies.
    rewrite <- app_assoc. repeat split; [done|done| | |].
    + rewrite app_assoc. eapply Forall2_impl; [done|].
      intros. by apply denotes_app.
    + apply Forall_forall. intros c Hc. simpl.
      apply (exchange_keeps copies [] idx1 idx2 elems1 props1); try done.
      * apply list_elem_of_lookup in Hc as [k Hk].
        destruct (Forall2_lookup_l _ _ _ _ _ Hcopies Hk) as (j & _ & Hj).
        by eapply denotes_not_undefined.
      * simpl. by rewrite app_nil_r.
    + assert (Hvals : Forall (λ v, v ∈ copies ∨ v = VUndefined)
                        (obj_vals (OArray copies []))).
      { simpl. rewrite app_nil_r. apply Forall_forall. auto. }
      destruct (array_get_keeps (λ v, v ∈ copies ∨ v = VUndefined)
                  ltac:(by right) (h ++ new) copies [] idx2 Hvals)
        as (right1 & Hget1 & Hright1).
      destruct (array_get_keeps (λ v, v ∈ copies ∨ v = VUndefined)
                  ltac:(by right) (h ++ new) copies [] idx1 Hvals)
        as (right2 & Hget2 & Hright2).
      rewrite array_get_last in Hget1, Hget2.
      injection Hget1 as <-. injection Hget2 as <-.
      destruct (array_set_keeps (λ v, v ∈ copies ∨ v = VUndefined)
                  ltac:(by right) (h ++ new) copies [] idx1 _ Hright1 Hvals)
        as (e1 & p1 & Hset1 & Hvals1).
      rewrite array_set_last, Hw1 in Hset1.
      injection Hset1 as Heq1%app_inv_head. injection Heq1 as <- <-.
      destruct (array_set_keeps (λ v, v ∈ copies ∨ v = VUndefined)
                  ltac:(by right) (h ++ new) elems1 props1 idx2 _
                  Hright2 Hvals1)
        as (e2 & p2 & Hset2 & Hvals2).
      rewrite array_set_last, Hw2 in Hset2.
      injection Hset2 as Heq2%app_inv_head. injection Heq2 as <- <-.
      eapply Forall_impl; [exact Hvals2|]. intros v [Hv| ->]; auto.
Qed.

(** *** The helpers on the example stores *)

(** [insertBefore([1, 2, 3], 1, "x")] *)
Lemma insertBefore_inserts_witness :
  ∃ r hf result,
    insertBefore (VRef 0) 1 (VString "x") store_123 = Return (VRef r) hf ∧
    hf !! r = Some (OArray result []) ∧
    length result = 4 ∧ result !! 1 = Some (VString "x") ∧
    hf !! 0 = Some (OArray [VInt 1; VInt 2; VInt 3] []).
Proof.
  destruct (insertBefore_inserts store_123 0 [VInt 1; VInt 2; VInt 3] []
              [JInt 1; JInt 2; JInt 3] 1 (VString "x"))
    as (r & hf & copies & Hrun & Hr & _ & _ & _ & Hlen & Hidx & _ & _ & Harr & _).
  - reflexivity.
  - reflexivity.
  - exists r, hf, (inserted 1 (VString "x") copies).
    repeat split; [exact Hrun | exact Hr | exact Hlen | | exact Harr].
    apply Hidx. simpl. lia.
Defined.

(** [insertAfter([1, 2, 3], 2, "x")]: after the last element. *)
Lemma insertAfter_inserts_witness :
  ∃ r hf copies,
    insertAfter (VRef 0) 2 (VString "x") store_123 = Return (VRef r) hf ∧
    hf !! r = Some (OArray (copies ++ [VString "x"]) []) ∧
    Forall2 (denotes hf) copies [JInt 1; JInt 2; JInt 3].
Proof.
  destruct (insertAfter_inserts store_123 0 [VInt 1; VInt 2; VInt 3] []
              [JInt 1; JInt 2; JInt 3] 2 (VString "x"))
    as (r & hf & copies & Hrun & Hr & Hcopies & _ & _ & _ & Hlast & _).
  - reflexivity.
  - reflexivity.
  - exists r, hf, copies. rewrite <- Hlast by reflexivity. done.
Defined.

(** C5 as stated fails for an index below -1.
    [insertAfter([1, 2, 3], -2, "x")] is [[1, 2, "x", 3]]: [splice] is
    given [min(3, -2 + 1) = -1], which it counts from the end. No
    position of a list is -1, and the item is not first either, as it
    would be were -1 clamped to 0. *)
Lemma insertAfter_negative_counterexample :
  let s := [VInt 1; VInt 2; VInt 3] in
  let result := [VInt 1; VInt 2; VString "x"; VInt 3] in
  insertAfter (VRef 0) (-2) (VString "x") store_123
  = Return (VRef 1) (store_123 ++ [OArray result []]) ∧
  Z.min (Z.of_nat (length s)) (-2 + 1) = (-1)%Z ∧
  ¬ (∃ position : nat,
       Z.of_nat position = Z.min (Z.of_nat (length s)) (-2 + 1) ∧
       result = inserted position (VString "x") s) ∧
  result ≠ inserted (Z.to_nat (Z.min (Z.of_nat (length s)) (-2 + 1)))
             (VString "x") s.
Proof.
  repeat split.
  - intros (position & Hposition & _). simpl in Hposition. lia.
  - discriminate.
Qed.

(** [swapElements([1, 2, 3], 0, 2)], twice. *)
Lemma swapElements_twice_witness :
  ∃ r1 h1 r2 h2,
    swapElements (VRef 0) 0 2 store_123 = Return (VRef r1) h1 ∧
    denotes h1 (VRef r1) (JArray [JInt 3; JInt 2; JInt 1]) ∧
    swapElements (VRef r1) 0 2 h1 = Return (VRef r2) h2 ∧
    denotes h2 (VRef r2) (JArray [JInt 1; JInt 2; JInt 3]) ∧
    denotes h2 (VRef 0) (JArray [JInt 1; JInt 2; JInt 3]).
Proof.
  destruct (swapElements_twice store_123 0 [JInt 1; JInt 2; JInt 3] 0 2)
    as (r1 & h1 & r2 & h2 & Hrun1 & Hd1 & Hrun2 & Hd2 & Hs).
  - reflexivity.
  - simpl. lia.
  - simpl. lia.
  - exists r1, h1, r2, h2. repeat split; try done.
    apply (Hs (JArray [JInt 1; JInt 2; JInt 3])).
    eapply denotes_array; [reflexivity|]. repeat constructor.
Defined.

(** C6 as stated fails for an index outside the array.
    [swapElements([1, 2], 0, 5)] is [[undefined, 2, , , , 1]], of
    length 6, and applying it again gives
    [[1, 2, null, null, null, null]]: not the array [[1, 2]]. *)
Lemma swapElements_out_of_range_counterexample :
  ∃ hf,
    (swapElements (VRef 0) 0 5 ≫= λ r1, swapElements r1 0 5) store_12
    = Return (VRef 2) hf ∧
    hf !! 2 = Some (OArray [VInt 1; VInt 2; VNull; VNull; VNull; VNull] []) ∧
    denotes store_12 (VRef 0) (JArray [JInt 1; JInt 2]) ∧
    ¬ denotes hf (VRef 2) (JArray [JInt 1; JInt 2]).
Proof.
  eexists. split; [reflexivity|]. split; [reflexivity|]. split.
  - eapply denotes_array; [reflexivity|]. repeat constructor.
  - intros Hd. inversion Hd as [ | | | |l elems props items Hl Hall| ]; subst.
    injection Hl as <- <-. apply Forall2_length in Hall. discriminate Hall.
Qed.

(** The three helpers on the array of [store_nested]. *)
Lemma array_helpers_copy_witness :
  let items := [JObject [("a"%string, JInt 1)]; JInt 2] in
  (∃ r hf, insertBefore (VRef 1) 0 (VString "x") store_nested
           = Return (VRef r) hf ∧
           copy_in store_nested items r hf [VString "x"]) ∧
  (∃ r hf, insertAfter (VRef 1) 0 (VString "x") store_nested
           = Return (VRef r) hf ∧
           copy_in store_nested items r hf [VString "x"]) ∧
  (∃ r hf, swapElements (VRef 1) 0 1 store_nested
           = Return (VRef r) hf ∧ copy_in store_nested items r hf []).
Proof.
  destruct (array_helpers_copy store_nested (VRef 1)
              [JObject [("a"%string, JInt 1)]; JInt 2])
    as (Hbefore & Hafter & Hswap).
  - reflexivity.
  - split; [apply Hbefore | split; [apply Hafter | apply Hswap]].
Defined.

(** C8 as stated fails when the item is an element of the input, as in
    [insertBefore(arr, 0, arr[0])]: the first element of the array
    returned is the very object that is the first element of [arr],
    not a copy of it. *)
Lemma insertBefore_shares_item_counterexample :
  ∃ hf,
    insertBefore (VRef 1) 0 (VRef 0) store_nested = Return (VRef 3) hf ∧
    hf !! 3 = Some (OArray [VRef 0; VRef 2; VInt 2] []) ∧
    store_nested !! 1 = Some (OArray [VRef 0; VInt 2] []) ∧
    ¬ copy_in store_nested [JObject [("a"%string, JInt 1)]; JInt 2] 3 hf [].
Proof.
  exists (store_nested
          ++ [OObject [("a"%string, VInt 1)];
              OArray [VRef 0; VRef 2; VInt 2] []]).
  split; [reflexivity|]. split; [reflexivity|]. split; [reflexivity|].
  intros (new & o & copies & Hhf & _ & _ & Hfresh & _ & _ & Hvals).
  apply (f_equal last) in Hhf. rewrite app_assoc, last_snoc in Hhf.
  injection Hhf as <-. simpl in Hvals.
  apply Forall_cons in Hvals as [[Hcopy|[Hundefined|Hshared]] _].
  - rewrite Forall_forall in Hfresh. apply Hfresh in Hcopy.
    simpl in Hcopy. lia.
  - done.
  - inversion Hshared.
Qed.

(** C7 as stated fails for a sequence that [JSON.stringify] cannot
    write. On the array that is its own element, made by
    [s = []; s.push(s)], [insertBefore(s, 0, "x")] throws the
    [TypeError] of [JSON.stringify]: it returns no sequence. *)
Lemma insertBefore_cyclic_counterexample :
  let h := [OArray [VRef 0] []] in
  h !! 0 = Some (OArray [VRef 0] []) ∧
  insertBefore (VRef 0) 0 (VString "x") h = Throw ∧
  ¬ ∃ r hf, insertBefore (VRef 0) 0 (VString "x") h = Return r hf.
Proof. repeat split. by intros (r & hf & H). Qed.


(* ================================================================== *)
(** * Part III: further properties                                     *)
(* ================================================================== *)

(** ** [animationThrottle]: any run of calls, flushes, cancels and
    refreshes *)

Section ThrottleRunFacts.
Context {Args : Type}.
Variable cb : list Args → Args → bool.
Implicit Types (t : throttle Args) (op : throttle_op Args).

Lemma run_frame_callback_fields t (f : frame_callback Args) :
  callback (run_frame_callback t f) = callback t ∧
  lastCallback (run_frame_callback t f) = lastCallback t ∧
  frames (run_frame_callback t f) = frames t ∧
  handles (run_frame_callback t f) = handles t.
Proof. destruct f as [|args]; simpl; [done|]. by destruct (callback t _ _). Qed.

Lemma fold_run_frame_callback_fields (fs : list (frame_callback Args)) : ∀ t,
  callback (fold_left run_frame_callback fs t) = callback t ∧
  lastCallback (fold_left run_frame_callback fs t) = lastCallback t ∧
  frames (fold_left run_frame_callback fs t) = frames t.
Proof.
  induction fs as [|f fs IH]; intros t; simpl; [done|].
  destruct (IH (run_frame_callback t f)) as (-> & -> & ->).
  destruct (run_frame_callback_fields t f) as (-> & -> & -> & _). done.
Qed.

Lemma throttle_step_callback t op :
  callback (throttle_step t op) = callback t.
Proof.
  destruct op as [args| | |]; simpl.
  - unfold throttled. simpl. by destruct (id_truthy _).
  - unfold flush. destruct (run_frame_callback_fields (cancel t)
                              (lastCallback (cancel t))) as [-> _].
    unfold cancel. by destruct (id_truthy _).
  - unfold cancel. by destruct (id_truthy _).
  - unfold tick. by destruct (fold_run_frame_callback_fields
      (map snd (frames t))
      (Throttle (callback t) (animationFrameId t) (lastCallback t)
         (handles t) [] (calls t))) as [-> _].
Qed.

Lemma throttle_run_snoc handles0 (ops : list (throttle_op Args)) op :
  throttle_run cb handles0 (ops ++ [op])
  = throttle_step (throttle_run cb handles0 ops) op.
Proof. unfold throttle_run. by rewrite fold_left_app. Qed.

Lemma throttle_run_callback handles0 (ops : list (throttle_op Args)) :
  callback (throttle_run cb handles0 ops) = cb.
Proof.
  unfold throttle_run.
  induction ops as [|op ops IH] using rev_ind; [done|].
  by rewrite fold_left_app; simpl; rewrite throttle_step_callback.
Qed.

(** [cancel] leaves nothing requested. *)
Lemma cancel_inv t :
  throttle_inv t →
  animationFrameId (cancel t) = None ∧ frames (cancel t) = [] ∧
  calls (cancel t) = calls t ∧ lastCallback (cancel t) = lastCallback t ∧
  callback (cancel t) = callback t.
Proof.
  intros [[Hid Hfs]|[(a & Hid & Hpos & Hfs)|[Hid Hfs]]]; unfold cancel.
  - by rewrite Hid.
  - rewrite Hid. simpl. destruct (handles t) as [|n] eqn:Hn; [lia|]. simpl.
    rewrite Hfs. cbn. case_decide as Hne; [by destruct Hne|done].
  - rewrite Hid. simpl. by rewrite Hfs.
Qed.

Lemma throttle_step_inv t op : throttle_inv t → throttle_inv (throttle_step t op).
Proof.
  intros Hinv. destruct op as [args| | |]; simpl.
  - destruct Hinv as [[Hid Hfs]|[(a & Hid & Hpos & Hfs)|[Hid Hfs]]];
      unfold throttled; simpl; rewrite ?Hid; simpl.
    + right. left. exists args. rewrite Hfs. simpl. repeat split. lia.
    + destruct (handles t) as [|n] eqn:Hn; [lia|]. simpl.
      right. left. exists a. simpl. rewrite Hn. repeat split; (lia || done).
    + right. right. by split.
  - destruct (cancel_inv t Hinv) as (Hid & Hfs & _). unfold flush.
    left. destruct (lastCallback (cancel t)) as [|args]; simpl; [done|].
    destruct (callback _ _ _); simpl; by rewrite ?Hid, Hfs.
  - destruct (cancel_inv t Hinv) as (Hid & Hfs & _). by left.
  - destruct Hinv as [[Hid Hfs]|[(a & Hid & Hpos & Hfs)|[Hid Hfs]]];
      unfold tick; rewrite Hfs; simpl.
    + by left.
    + destruct (callback _ _ _); simpl; [by left|].
      right. right. rewrite Hid. destruct (handles t); [lia|done].
    + by right; right.
Qed.

Lemma throttle_run_inv handles0 (ops : list (throttle_op Args)) :
  throttle_inv (throttle_run cb handles0 ops).
Proof.
  unfold throttle_run.
  induction ops as [|op ops IH] using rev_ind; [by left|].
  rewrite fold_left_app. by apply throttle_step_inv.
Qed.

(** With a [callback] that never throws, [animationFrameId] is set only
    while a frame is waiting. *)
Lemma throttle_step_idle t op :
  always_returns (callback t) → throttle_inv t →
  (frames t = [] → id_truthy (animationFrameId t) = false) →
  frames (throttle_step t op) = [] →
  id_truthy (animationFrameId (throttle_step t op)) = false.
Proof.
  intros Hcb Hinv Hidle. destruct op as [args| | |]; simpl.
  - unfold throttled. simpl.
    destruct (id_truthy (animationFrameId t)) eqn:Hid; simpl.
    + intros Hfs. by rewrite Hidle in Hid.
    + intros Hfs. by destruct (frames t).
  - intros _. destruct (cancel_inv t Hinv) as (Hid & _). unfold flush.
    destruct (lastCallback (cancel t)) as [|args]; simpl; [by rewrite Hid|].
    destruct (callback _ _ _); simpl; [done|by rewrite Hid].
  - intros _. destruct (cancel_inv t Hinv) as (Hid & _). by rewrite Hid.
  - intros _.
    destruct Hinv as [[Hid Hfs]|[(a & Hid & Hpos & Hfs)|[Hid Hfs]]];
      unfold tick; rewrite Hfs; simpl.
    + by rewrite Hid.
    + by rewrite Hcb.
    + by apply Hidle.
Qed.

Lemma throttle_run_idle handles0 (ops : list (throttle_op Args)) :
  always_returns cb →
  frames (throttle_run cb handles0 ops) = [] →
  id_truthy (animationFrameId (throttle_run cb handles0 ops)) = false.
Proof.
  intros Hcb. induction ops as [|op ops IH] using rev_ind; [done|].
  rewrite throttle_run_snoc.
  apply throttle_step_idle; [|apply throttle_run_inv|done].
  by rewrite throttle_run_callback.
Qed.


Lemma throttle_step_calls t op :
  throttle_inv t →
  length (calls (throttle_step t op))
  ≤ length (calls t) + (if is_refresh_or_flush op then 1 else 0).
Proof.
  intros Hinv. destruct op as [args| | |]; simpl.
  - unfold throttled. simpl. destruct (id_truthy _); simpl; lia.
  - destruct (cancel_inv t Hinv) as (_ & _ & Hcalls & _). unfold flush.
    destruct (lastCallback (cancel t)) as [|args]; simpl;
      [rewrite Hcalls; lia|].
    destruct (callback _ _ _); simpl; rewrite length_app, Hcalls; simpl; lia.
  - destruct (cancel_inv t Hinv) as (_ & _ & Hcalls & _). rewrite Hcalls. lia.
  - destruct Hinv as [[Hid Hfs]|[(a & Hid & Hpos & Hfs)|[Hid Hfs]]];
      unfold tick; rewrite Hfs; simpl; try lia.
    destruct (callback _ _ _); simpl; rewrite length_app; simpl; lia.
Qed.


(** [cancel] on a wrapper that has been used: no frame is left, and
    [callback] has not run. *)
Lemma cancel_after_run handles0 (ops : list (throttle_op Args)) :
  let t := throttle_run cb handles0 ops in
  frames (cancel t) = [] ∧ calls (cancel t) = calls t.
Proof.
  cbv zeta.
  by destruct (cancel_inv _ (throttle_run_inv handles0 ops)) as (_ & ? & ? & _).
Qed.


Lemma throttle_step_lastCallback t op :
  lastCallback (throttle_step t op)
  = match op with Call args => CallWith args | _ => lastCallback t end.
Proof.
  destruct op as [args| | |]; simpl.
  - unfold throttled. simpl. by destruct (id_truthy _).
  - unfold flush. destruct (run_frame_callback_fields (cancel t)
                              (lastCallback (cancel t))) as (_ & -> & _).
    unfold cancel. by destruct (id_truthy _).
  - unfold cancel. by destruct (id_truthy _).
  - unfold tick. by destruct (fold_run_frame_callback_fields
      (map snd (frames t))
      (Throttle (callback t) (animationFrameId t) (lastCallback t)
         (handles t) [] (calls t))) as (_ & -> & _).
Qed.

Lemma throttle_lastCallback_after (ops : list (throttle_op Args)) : ∀ t,
  forallb (λ op, negb (is_call op)) ops = true →
  lastCallback (fold_left throttle_step ops t) = lastCallback t.
Proof.
  induction ops as [|op ops IH]; intros t Hops; [done|].
  simpl in *. apply andb_true_iff in Hops as [Hop Hops].
  rewrite IH by done. rewrite throttle_step_lastCallback.
  by destruct op.
Qed.



(** Once [animationFrameId] is set and no frame is waiting, calls of
    the wrapper and refreshes change neither. *)
Lemma throttle_stuck (later : list (throttle_op Args)) : ∀ t,
  id_truthy (animationFrameId t) = true → frames t = [] →
  forallb is_call_or_refresh later = true →
  calls (fold_left throttle_step later t) = calls t ∧
  frames (fold_left throttle_step later t) = [] ∧
  id_truthy (animationFrameId (fold_left throttle_step later t)) = true.
Proof.
  induction later as [|op later IH]; intros t Hid Hfs Hops; [done|].
  simpl in *. apply andb_true_iff in Hops as [Hop Hops].
  destruct op as [args| | |]; try done; simpl.
  - rewrite throttled_while_pending by done.
    by destruct (IH (Throttle (callback t) (animationFrameId t)
                       (CallWith args) (handles t) (frames t) (calls t))).
  - unfold tick. rewrite Hfs. simpl.
    by destruct (IH (Throttle (callback t) (animationFrameId t)
                       (lastCallback t) (handles t) [] (calls t))).
Qed.

End ThrottleRunFacts.




(** ** [promiseChunk]: a promise that stays pending, and the number
    of calls *)

Section PromiseMoreFacts.
Context {A B E St : Type}.
Variable callback : list A → St → St * settlement E (chunkResults B).

Local Abbreviation step :=
  (λ promise thingChunk,
     then_ promise (λ results,
       then_ (call_callback callback thingChunk) (λ chunkResults,
         Promise_resolve (concat_results results chunkResults)))).

Lemma chain_pending gs (p : promise A B E St (list B)) w w1 :
  p w = (w1, Pending) → fold_left step gs p w = (w1, Pending).
Proof.
  revert p. induction gs as [|g gs IH]; intros p Hp; simpl; [done|].
  apply IH. unfold then_. by rewrite Hp.
Qed.

(** X6. When the promise that the callback returns for a group never
    settles, after the groups before it have been fulfilled, the
    promise of [promiseChunk] never settles either, and the callback is
    invoked on no later group. *)
Theorem promiseChunk_pending things chunkSize w before g after rs s1 s2 :
  chunk things chunkSize = before ++ g :: after →
  fulfils callback (cb_state w) before rs s1 →
  callback g s1 = (s2, Pending) →
  promiseChunk callback things chunkSize w
  = (World s2 (trace w ++ sequential_run before rs ++ [Invoked g]), Pending) ∧
  invoked (trace (promiseChunk callback things chunkSize w).1)
  = invoked (trace w) ++ before ++ [g].
Proof.
  intros Hchunk Hrun Hcb.
  assert (Heq : promiseChunk callback things chunkSize w
    = (World s2 (trace w ++ sequential_run before rs ++ [Invoked g]),
       Pending)).
  { unfold promiseChunk. destruct things as [|a things].
    { by destruct before. }
    simpl Nat.eqb. cbv iota. rewrite Hchunk, fold_left_app. simpl.
    apply chain_pending.
    erewrite step_fulfilled;
      [| by apply (chain_fulfilled callback before _ w w [] rs s1)].
    simpl. rewrite Hcb. by rewrite <- app_assoc. }
  split; [done|]. rewrite Heq. simpl.
  rewrite !invoked_app, invoked_sequential_run
    by (by eapply fulfils_length).
  done.
Qed.

Lemma groups_total_length (n : nat) (gs : list (list A)) :
  Forall (λ g, 1 ≤ length g ≤ n) gs →
  (∀ k g, gs !! k = Some g → S k < length gs → length g = n) →
  gs ≠ [] →
  ∃ m, 1 ≤ m ≤ n ∧ length (concat gs) = (length gs - 1) * n + m.
Proof.
  induction gs as [|g gs IH]; [done|]. intros Hall Hfull _.
  apply Forall_cons in Hall as [Hg Hall].
  destruct gs as [|g' gs].
  - exists (length g). simpl. rewrite app_nil_r. lia.
  - destruct IH as (m & Hm & Hlen); [done | | done |].
    { intros k g0 Hk Hlt. apply (Hfull (S k) g0 Hk). simpl in *. lia. }
    exists m. split; [done|].
    rewrite (Hfull 0 g eq_refl) in * by (simpl; lia).
    change (concat (g :: g' :: gs)) with (g ++ concat (g' :: gs)).
    rewrite length_app, Hlen, (Hfull 0 g eq_refl) by (simpl; lia).
    simpl. lia.
Qed.

Lemma groups_count (n : nat) (l : list A) gs :
  1 ≤ n → consecutive_groups n l gs →
  length gs = (length l + n - 1) / n.
Proof.
  intros Hn (Hcat & Hall & Hfull). destruct gs as [|g gs].
  - simpl in Hcat. subst l. simpl.
    symmetry. apply Nat.div_small. lia.
  - destruct (groups_total_length n (g :: gs)) as (m & Hm & Hlen);
      [done..|].
    rewrite Hcat in Hlen. rewrite Hlen.
    apply (Nat.div_unique _ _ _ (m - 1)); [lia|].
    simpl length. nia.
Qed.

(** X7. With a chunk size of at least 1 and a callback that fulfils on
    every group, [promiseChunk] invokes the callback as many times as
    the number of items divided by the chunk size, rounded up. *)
Theorem promiseChunk_number_of_calls things chunkSize w rs s' :
  num_le (num_of_Z 1) chunkSize = true →
  fulfils callback (cb_state w) (chunk things chunkSize) rs s' →
  let size := Z.to_nat (toInteger chunkSize) in
  length (invoked (trace (promiseChunk callback things chunkSize w).1))
  = length (invoked (trace w)) + (length things + size - 1) / size.
Proof.
  intros Hsize Hrun size.
  assert (Heq : promiseChunk callback things chunkSize w
    = (World s' (trace w ++ sequential_run (chunk things chunkSize) rs),
       Fulfilled (flat_map spread rs))).
  { unfold promiseChunk. destruct things as [|a things]; simpl.
    - inversion Hrun; subst. destruct w. unfold sequential_run. simpl.
      by rewrite app_nil_r.
    - by apply (chain_fulfilled callback _ _ w w []). }
  rewrite Heq. simpl.
  rewrite invoked_app, length_app, invoked_sequential_run
    by (by eapply fulfils_length).
  f_equal. apply groups_count; [|by apply chunk_groups].
  pose proof (toInteger_ge_1 chunkSize Hsize). unfold size. lia.
Qed.

Lemma chunk_single_group (things : list A) chunkSize :
  things ≠ [] →
  (Z.of_nat (length things) ≤ toInteger chunkSize)%Z →
  chunk things chunkSize = [things].
Proof.
  intros Hne Hsize. unfold chunk.
  destruct things as [|a things]; [done|].
  rewrite Z.max_l by lia.
  destruct (Z.ltb_spec (toInteger chunkSize) 1) as [Hlt|_];
    [simpl in Hsize; lia|].
  simpl orb. cbv iota. simpl length. rewrite chunk_loop_next.
  destruct (Z.ltb_spec 0 (Z.of_nat (S (length things)))) as [_|]; [|lia].
  rewrite baseSlice_take_drop by lia. simpl drop.
  rewrite take_ge by (simpl in *; lia). f_equal.
  destruct (length things) as [|fuel]; [done|].
  rewrite chunk_loop_next.
  destruct (Z.ltb_spec (0 + toInteger chunkSize)
              (Z.of_nat (length (a :: things)))) as [Hlt|_]; [|done].
  simpl in *. lia.
Qed.

(** X8. With a chunk size of at least the number of items (an infinite
    one, for instance) and a list that is not empty, the callback is
    invoked exactly once, on all the items, and [promiseChunk] settles
    as that one call does. *)
Theorem promiseChunk_single_call things chunkSize w :
  things ≠ [] →
  (Z.of_nat (length things) ≤ toInteger chunkSize)%Z →
  promiseChunk callback things chunkSize w
  = match callback things (cb_state w) with
    | (s, Fulfilled r) =>
        (World s (trace w ++ [Invoked things; Settled things (Fulfilled r)]),
         Fulfilled (spread r))
    | (s, Rejected e) =>
        (World s (trace w ++ [Invoked things; Settled things (Rejected e)]),
         Rejected e)
    | (s, Pending) => (World s (trace w ++ [Invoked things]), Pending)
    end.
Proof.
  intros Hne Hsize. unfold promiseChunk.
  rewrite (chunk_single_group things chunkSize Hne Hsize).
  destruct things as [|a things]; [done|]. simpl Nat.eqb. cbv iota.
  cbn [fold_left].
  exact (step_fulfilled callback (Promise_resolve []) (a :: things) w w []
           eq_refl).
Qed.
End PromiseMoreFacts.

(** The callback never settles on the second of three groups. *)
Lemma promiseChunk_pending_witness :
  let cb : list nat → unit → unit * settlement unit (chunkResults nat) :=
    λ g s, (s, if decide (3 ∈ g) then Pending
               else Fulfilled (ResultArray g)) in
  promiseChunk cb [1; 2; 3; 4; 5] (num_of_Z 2) (World () [])
  = (World ()
       [ Invoked [1; 2]; Settled [1; 2] (Fulfilled (ResultArray [1; 2]));
         Invoked [3; 4] ],
     Pending).
Proof.
  intros cb.
  refine (proj1 (promiseChunk_pending cb [1; 2; 3; 4; 5] (num_of_Z 2)
    (World () []) [[1; 2]] [3; 4] [[5]] [ResultArray [1; 2]] () () _ _ _)).
  - reflexivity.
  - repeat (econstructor; [reflexivity|]). constructor.
  - reflexivity.
Defined.

(** Five items by chunks of two: three calls. *)
Lemma promiseChunk_number_of_calls_witness :
  let cb : list nat → unit → unit * settlement unit (chunkResults nat) :=
    λ g s, (s, Fulfilled (ResultArray g)) in
  length (invoked (trace (promiseChunk cb [1; 2; 3; 4; 5] (num_of_Z 2)
                            (World () [])).1)) = 3.
Proof.
  intros cb.
  refine (promiseChunk_number_of_calls cb [1; 2; 3; 4; 5] (num_of_Z 2)
    (World () [])
    [ResultArray [1; 2]; ResultArray [3; 4]; ResultArray [5]] () _ _).
  - reflexivity.
  - repeat (econstructor; [reflexivity|]). constructor.
Defined.

(** Three items and an infinite chunk size. *)
Lemma promiseChunk_single_call_witness :
  let cb : list nat → unit → unit * settlement unit (chunkResults nat) :=
    λ g s, (s, Fulfilled (ResultArray g)) in
  promiseChunk cb [1; 2; 3] PosInfinity (World () [])
  = (World () [Invoked [1; 2; 3];
               Settled [1; 2; 3] (Fulfilled (ResultArray [1; 2; 3]))],
     Fulfilled [1; 2; 3]).
Proof.
  intros cb.
  refine (promiseChunk_single_call cb [1; 2; 3] PosInfinity (World () []) _ _).
  - discriminate.
  - pose proof MAX_INTEGER_pos. simpl. unfold MAX_INTEGER. lia.
Defined.

(** ** [fitToScale] with a scale passed, and [getContainedSize] *)

Section FitBinary64MoreFacts.
Local Open Scope Q_scope.

(** X9. For a rectangle of positive width and height, [fitToScale]
    with a positive scale passed returns that scale or one of the
    quotients 792/height and 612/width, as the division of binary64
    rounds them: a positive scale that is at most the one passed (it is
    shrunk when the page asks for it, and never grown). It is the
    least of the scale passed, 612/width and 792/height up to one part
    in [2 ^ 52] either way, and so the scaled width and height fit in
    612 and 792 up to one part in [2 ^ 52]. *)
Theorem fitToScale_never_grows (l t w h scale : float) :
  positive_finite w = true → positive_finite h = true →
  positive_finite scale = true →
  let fitted := fitToScale (Rect l t w h) (Some scale) in
  let least :=
    Qmin (float_value scale)
      (Qmin (612 / float_value w) (792 / float_value h)) in
  positive_finite fitted = true ∧
  (fitted = scale ∨ fitted = (792 / h)%float ∨ fitted = (612 / w)%float) ∧
  (scale <? fitted)%float = false ∧
  float_value fitted <= float_value scale ∧
  float_value fitted <= least * (1 + epsilon) ∧
  least <= float_value fitted * (1 + epsilon) ∧
  float_value fitted * float_value w <= 612 * (1 + epsilon) ∧
  float_value fitted * float_value h <= 792 * (1 + epsilon).
Proof.
  intros Hw Hh Hs. cbv zeta.
  destruct (fitToScale_binary64 l t w h scale Hw Hh Hs)
    as (Hpf & Hcase & Hle & Hfitw & Hfith & Hshort).
  set (fitted := fitToScale (Rect l t w h) (Some scale)) in *.
  clearbody fitted.
  assert (Hshort' : float_value fitted == float_value scale ∨
                    792 <= float_value fitted * float_value h * (1 + epsilon) ∨
                    612 <= float_value fitted * float_value w * (1 + epsilon)).
  { destruct Hshort as [->|Hshort]; auto. by left. }
  pose proof (near_least (float_value fitted) (float_value scale)
                (float_value w) (float_value h)
                epsilon eq_refl (float_value_pos _ Hpf) (float_value_pos _ Hw)
                (float_value_pos _ Hh) Hle Hfitw Hfith Hshort') as [Hup Hdown].
  repeat split; try done.
  by apply ltb_positive_finite_false.
Qed.

(** A rectangle of 1224 by 1584 and the scale one quarter. *)
Lemma fitToScale_never_grows_witness :
  let fitted := fitToScale (Rect 0 0 1224 1584)%float (Some 0.25%float) in
  positive_finite fitted = true ∧
  (0.25 <? fitted)%float = false ∧
  float_value fitted <= float_value 0.25 ∧
  float_value fitted * float_value 1224 <= 612 * (1 + epsilon) ∧
  float_value fitted * float_value 1584 <= 792 * (1 + epsilon).
Proof.
  destruct (fitToScale_never_grows 0 0 1224 1584 0.25)
    as (Hpf & _ & Hnot & Hle & _ & _ & Hw & Hh); [reflexivity..|].
  exact (conj Hpf (conj Hnot (conj Hle (conj Hw Hh)))).
Defined.

(** X24. On binary64 numbers too, fitting is idempotent: for a
    rectangle of positive width and height and a positive scale, the
    scale that [fitToScale] returns is left as it is when it is passed
    to [fitToScale] for the same rectangle. Rounding does not break
    this, as it is monotone: a quotient that was not below an extent is
    not below it either when the divisor gets smaller. *)
Theorem fitToScale_idempotent_binary64 (l t w h scale : float) :
  positive_finite w = true → positive_finite h = true →
  positive_finite scale = true →
  let boundingRect := Rect l t w h in
  fitToScale boundingRect (Some (fitToScale boundingRect (Some scale)))
  = fitToScale boundingRect (Some scale).
Proof.
  intros Hw Hh Hs. cbv zeta.
  rewrite (fitToScale_binary64_unfold l t w h scale). cbv zeta.
  destruct (792 / scale <? h)%float eqn:Ha.
  - (* the height asked for 792/h *)
    destruct (612 / (792 / h) <? w)%float eqn:Hb;
      rewrite fitToScale_binary64_unfold; cbv zeta.
    + destruct (792 / (612 / w) <? h)%float; [by rewrite Hb|].
      by destruct (612 / (612 / w) <? w)%float.
    + destruct (792 / (792 / h) <? h)%float; by rewrite Hb.
  - destruct (612 / scale <? w)%float eqn:Hb;
      rewrite fitToScale_binary64_unfold; cbv zeta; [|by rewrite Ha, Hb].
    (* the width asked for 612/w, the height for nothing *)
    destruct (fit_step_binary64 612 scale w)
      as (Hpf & Hle & _); [done|by rewrite float_value_612|done|done|].
    rewrite Hb in Hpf, Hle.
    assert (Hnot : (792 / (612 / w) <? h)%float = false).
    { destruct (Qlt_le_dec (float_value (612 / w)) (float_value scale))
        as [Hlt|Hge].
      - pose proof (div_antitone 792 scale (612 / w) eq_refl Hs Hpf Hlt)
          as Hmono.
        apply not_true_iff_false. intros Ha'.
        pose proof (float_value_pos _ Hs) as Hs0.
        pose proof (float_value_pos _ Hpf) as Hq0.
        assert (Hv1 : (float_value 792 / float_value (612 / w))
                      * float_value (612 / w) == float_value 792)
          by (field; lra).
        assert (Hv2 : (float_value 792 / float_value scale)
                      * float_value scale == float_value 792)
          by (field; lra).
        pose proof (div_rounded 792 (612 / w) _ eq_refl Hpf Hv1) as Hr1.
        pose proof (div_rounded 792 scale _ eq_refl Hs Hv2) as Hr2.
        pose proof (ltb_below_not_below _ _ _ _ _ Hr1 Hr2 Hh Ha' Ha).
        congruence.
      - assert (Heq : (612 / w)%float = scale).
        { apply positive_finite_eq; [done..|]. by apply Qle_antisym. }
        by rewrite Heq. }
    rewrite Hnot. by destruct (612 / (612 / w) <? w)%float.
Qed.

(** A rectangle of 1063 by 100, for which the scale is not exact. *)
Lemma fitToScale_idempotent_binary64_witness :
  let boundingRect := (Rect 0 0 1063 100)%float in
  fitToScale boundingRect (Some (fitToScale boundingRect (Some 1%float)))
  = fitToScale boundingRect (Some 1%float).
Proof.
  apply (fitToScale_idempotent_binary64 0 0 1063 100 1); reflexivity.
Defined.

Lemma ltb_not_positive (page x : float) :
  positive_finite page = true → (0 <? x)%float = false →
  (page <? x)%float = false.
Proof.
  intros (m & e & Hpage & _)%positive_finite_inv. rewrite !ltb_spec, Hpage.
  change (Prim2SF 0) with (S754_zero false).
  destruct (Prim2SF x) as [[]|[]| |[] mx ex]; done.
Qed.

(** X23. On binary64 numbers: a rectangle neither dimension of which
    is a positive number (zero, negative or [NaN]) is not scaled,
    [fitToScale] returns the default scale, 1. *)
Theorem fitToScale_no_extent_binary64 (l t w h : float) :
  (0 <? w)%float = false → (0 <? h)%float = false →
  fitToScale (Rect l t w h) None = 1%float.
Proof.
  intros Hw Hh. apply fitToScale_binary64_fits; by apply ltb_not_positive.
Qed.

(** A width of zero and a height that is not a number. *)
Lemma fitToScale_no_extent_binary64_witness :
  fitToScale (Rect 0 0 0 nan)%float None = 1%float.
Proof. apply fitToScale_no_extent_binary64; reflexivity. Defined.

(** *** [getContainedSize] *)

Lemma nonnegative_finite_zero (x : float) :
  Prim2SF x = S754_zero false → nonnegative_finite x = true.
Proof.
  intros Hx. unfold nonnegative_finite. by rewrite leb_spec, ltb_spec, Hx.
Qed.

Lemma nonnegative_finite_positive (x : float) :
  positive_finite x = true → nonnegative_finite x = true.
Proof.
  intros Hpf. unfold nonnegative_finite.
  pose proof Hpf as (m & e & Hx & _)%positive_finite_inv.
  by rewrite leb_spec, ltb_spec, Hx.
Qed.

Lemma float_value_zero (x : float) :
  Prim2SF x = S754_zero false → float_value x == 0.
Proof. intros Hx. unfold float_value. by rewrite Hx. Qed.


(** An image of 1 by 3 in a box of 100 by 100: the width is
    100 * (1/3), rounded twice, and three times that width is less than
    100. *)
Lemma getContainedSize_rounds :
  let img := Element false [] "IMG" "a.png" (Rect 0 0 100 100)%float
               (λ _, ""%string) 1%float 3%float 100%float 100%float in
  getContainedSize img = (0x1.0aaaaaaaaaaaap+5, 100)%float ∧
  float_value (getContainedSize img).1 * 3 < 100.
Proof. vm_compute. repeat split. Qed.

End FitBinary64MoreFacts.

(** *** Without rounding

    On exact numbers [fitToScale] has a closed form, the least of the
    scale and the two quotients. *)

Section FitMoreFacts.
Local Open Scope Qc_scope.

Lemma num_div_1 (a : Qc) : num_div (Finite a) (Finite 1) = Finite a.
Proof.
  cbn [num_div]. rewrite decide_False by done.
  unfold Qcdiv. by rewrite Qcmult_1_r.
Qed.

Lemma num_div_pos (a b : Qc) :
  0 < b → num_div (Finite a) (Finite b) = Finite (a / b).
Proof.
  intros Hb. cbn [num_div]. by rewrite decide_False by by apply Qc_pos_ne_0.
Qed.

(** One of the two adjustments of [fitToScale]. *)
Lemma fit_step (page scale extent : Qc) :
  0 < scale → 0 < extent →
  (if num_lt (num_div (Finite page) (Finite scale)) (Finite extent)
   then num_div (Finite page) (Finite extent) else Finite scale)
  = Finite (Qc_min scale (page / extent)).
Proof.
  intros Hs He. rewrite !num_div_pos by done. cbn [num_lt].
  destruct (bool_decide_reflect (page / scale < extent)) as [Hlt|Hge].
  - f_equal. symmetry. apply Qc_min_r. apply Qclt_le_weak.
    apply Qc_div_lt_l; [done|]. rewrite Qcmult_comm. by apply Qc_div_lt_l.
  - f_equal. symmetry. apply Qc_min_l. apply Qcle_ngt. intros Hlt.
    apply Hge. apply Qc_div_lt_l; [done|]. rewrite Qcmult_comm.
    by apply Qc_div_lt_l.
Qed.

Lemma Qc_min_pos (a b : Qc) : 0 < a → 0 < b → 0 < Qc_min a b.
Proof. intros. unfold Qc_min. by destruct (decide _). Qed.

Lemma fitToScale_closed_form (l t : number) (scale w h : Qc) :
  0 < scale → 0 < w → 0 < h →
  fitToScale (Rect l t (Finite w) (Finite h)) (Some (Finite scale))
  = Finite (Qc_min (Qc_min scale (Qc_of_Z 792 / h)) (Qc_of_Z 612 / w)).
Proof.
  intros Hs Hw Hh. unfold fitToScale.
  cbn [default rect_height rect_width of_Z divide less_than exact_arithmetic].
  unfold num_of_Z, id. rewrite fit_step by done.
  rewrite fit_step; [done | | done].
  apply Qc_min_pos; [done|]. by apply Qc_div_pos.
Qed.

(** X10. Fitting is idempotent: the scale that [fitToScale] returns is
    left as it is when it is passed to [fitToScale] for the same
    rectangle. *)
Theorem fitToScale_idempotent (l t : number) (scale w h : Qc) :
  0 < scale → 0 < w → 0 < h →
  let boundingRect := Rect l t (Finite w) (Finite h) in
  fitToScale boundingRect
    (Some (fitToScale boundingRect (Some (Finite scale))))
  = fitToScale boundingRect (Some (Finite scale)).
Proof.
  intros Hs Hw Hh. cbv zeta.
  rewrite (fitToScale_closed_form l t scale) by done.
  set (fitted := Qc_min (Qc_min scale _) _).
  assert (Hpos : 0 < fitted).
  { apply Qc_min_pos; [apply Qc_min_pos|]; by try apply Qc_div_pos. }
  rewrite fitToScale_closed_form by done. f_equal.
  rewrite (Qc_min_l fitted).
  - apply Qc_min_l. apply Qc_min_le_r.
  - etrans; [apply Qc_min_le_l | apply Qc_min_le_r].
Qed.

Lemma num_lt_not_positive (a : Qc) (x : number) :
  0 < a → num_lt (Finite 0) x = false → num_lt (Finite a) x = false.
Proof.
  intros Ha. destruct x as [y| | |]; simpl; try done.
  intros Hy%bool_decide_eq_false. apply bool_decide_eq_false.
  intros Hay. apply Hy. by trans a.
Qed.

(** X11. A rectangle neither dimension of which is a positive number
    (an element that is not laid out has width and height 0) is not
    scaled: [fitToScale] returns the default scale, 1. *)
Theorem fitToScale_no_extent (l t w h : number) :
  num_lt (Finite 0) w = false → num_lt (Finite 0) h = false →
  fitToScale (Rect l t w h) None = Finite 1.
Proof.
  intros Hw Hh. unfold fitToScale.
  cbn [default rect_height rect_width of_Z divide less_than exact_arithmetic].
  unfold num_of_Z. rewrite Qc_of_Z_1, !num_div_1.
  rewrite (num_lt_not_positive _ h) by done.
  rewrite num_div_1. by rewrite (num_lt_not_positive _ w) by done.
Qed.
End FitMoreFacts.

Lemma fitToScale_idempotent_witness :
  let boundingRect :=
    Rect (num_of_Z 0) (num_of_Z 0) (num_of_Z 1224) (num_of_Z 1584) in
  fitToScale boundingRect (Some (fitToScale boundingRect (Some (num_of_Z 1))))
  = fitToScale boundingRect (Some (num_of_Z 1)).
Proof.
  apply (fitToScale_idempotent (num_of_Z 0) (num_of_Z 0) (Qc_of_Z 1)
           (Qc_of_Z 1224) (Qc_of_Z 1584)); reflexivity.
Defined.

Lemma fitToScale_no_extent_witness :
  fitToScale (Rect (num_of_Z 0) (num_of_Z 0) (num_of_Z 0) NaN) None = Finite 1%Qc.
Proof. apply fitToScale_no_extent; reflexivity. Defined.

(** ** [generatePdf]: the texts drawn, and the font *)

Lemma node_nested_ind {N} (P : node N → Prop) :
  (∀ el children, Forall P children → P (Node el children)) →
  ∀ n, P n.
Proof.
  intros Hnode. fix IH 1. intros [el children]. apply Hnode.
  induction children as [|child children IHchildren]; constructor;
    [apply IH | apply IHchildren].
Qed.

Lemma trimStart_suffix (s : code_units) : ∃ removed, s = removed ++ trimStart s.
Proof.
  induction s as [|c s [removed IH]]; [by exists []|]. simpl.
  destruct (is_white_space c).
  - exists (c :: removed). simpl. by f_equal.
  - by exists [].
Qed.

Lemma trimStart_head (s : code_units) c :
  head (trimStart s) = Some c → is_white_space c = false.
Proof.
  induction s as [|c' s IH]; simpl; [done|].
  destruct (is_white_space c') eqn:Hc'; [done|].
  simpl. by intros [= <-].
Qed.

Lemma trim_trimmed (s : code_units) : trimmed (trim s).
Proof.
  unfold trim. set (a := trimStart s). split; intros c.
  - rewrite head_reverse.
    destruct (trimStart_suffix (reverse a)) as [removed Hsuffix].
    destruct (trimStart (reverse a)) as [|c' b] eqn:Hb; [done|].
    intros Hlast.
    assert (Hhead : head a = Some c).
    { rewrite <- last_reverse, Hsuffix, last_app.
      by rewrite Hlast. }
    by apply (trimStart_head s).
  - rewrite last_reverse. apply trimStart_head.
Qed.

Lemma trim_latin1 (s : code_units) : latin1 s → latin1 (trim s).
Proof.
  unfold latin1, trim. intros Hs.
  assert (Hstart : ∀ s' : code_units,
    Forall (λ c, (c ≤ 255)%N) s' → Forall (λ c, (c ≤ 255)%N) (trimStart s')).
  { intros s' Hs'. destruct (trimStart_suffix s') as [removed Heq].
    rewrite Heq in Hs'. by apply Forall_app in Hs' as [_ ?]. }
  apply Forall_reverse, Hstart, Forall_reverse, Hstart, Hs.
Qed.

Lemma has_char_above_ff_latin1 (s : code_units) :
  has_char_above_ff s = false → latin1 s.
Proof.
  unfold has_char_above_ff, latin1.
  induction s as [|c s IH]; simpl; [constructor|].
  intros [Hc Hs]%orb_false_iff. constructor; [|by apply IH].
  apply N.ltb_ge in Hc. lia.
Qed.

Section PdfMoreFacts.
Context {N : Type} `{Arithmetic N}.
Variable parseInt : string → N.
Variable Number : string → N.
Variable fontList : list (string * list string).
Variable inherited : list string.

(** A node draws no text, or the trimmed text of a node that has no
    character above U+00FF. *)
Lemma visit_drawn_texts boundingRect scale el childElementCount :
  drawn_texts (visit parseInt Number fontList inherited boundingRect scale el
                 childElementCount) = [] ∨
  (drawn_texts (visit parseInt Number fontList inherited boundingRect scale el
                  childElementCount) = [trim (innerText el)] ∧
   has_char_above_ff (innerText el) = false).
Proof.
  unfold visit. destruct (capture_as_image el); [by left|].
  destruct ((childElementCount =? 0)%nat && _) eqn:HisText; simpl.
  - destruct (has_char_above_ff (innerText el)); [by left | by right].
  - left. destruct (decide (tagName el = "IMG")); [|done].
    destruct (decide _); [done|]. by destruct (getContainedSize el).
Qed.

(** X13. Whatever the tree, the texts that [generatePdf] has the
    document draw have no character above U+00FF (a text that has one
    is captured as an image instead), and no white space at either
    end. *)
Theorem generatePdf_draws_latin1_trimmed_texts htmlRef doc scale :
  Forall (λ text, latin1 text ∧ trimmed text)
    (drawn_texts (generatePdf parseInt Number fontList inherited htmlRef doc
                    scale)).
Proof.
  assert (Hrec : ∀ boundingRect scale' n,
    Forall (λ text, latin1 text ∧ trimmed text)
      (drawn_texts (recurseNodes parseInt Number fontList inherited
                      boundingRect scale' n))).
  { intros boundingRect scale'.
    induction n as [el children IH] using node_nested_ind.
    simpl. unfold drawn_texts. rewrite omap_app. apply Forall_app. split.
    - destruct (negb _ && negb _); [|constructor].
      induction IH as [|child children Hchild _ IHchildren]; [constructor|].
      simpl. rewrite omap_app. apply Forall_app. by split.
    - destruct (visit_drawn_texts boundingRect scale' el (length children))
        as [Hnone|[Hone Hchars]]; unfold drawn_texts in *.
      + rewrite Hnone. constructor.
      + rewrite Hone. constructor; [|constructor]. split.
        * by apply trim_latin1, has_char_above_ff_latin1.
        * apply trim_trimmed. }
  unfold generatePdf. destruct htmlRef as [root children].
  destruct doc; apply (Hrec _ _ (Node root children)).
Qed.

End PdfMoreFacts.

(** A computed [font-family] of [toString]: the font list of the
    document has only [helvetica], and the font set is [toString],
    which [fontList['toString']] finds in [Object.prototype]. *)
Lemma insertText_sets_inherited_font :
  let style := λ property : string,
    if decide (property = "font-family") then "toString"
    else if decide (property = "font-style") then "normal"
    else if decide (property = "font-weight") then "400"
    else if decide (property = "font-size") then "16px"
    else ""%string in
  let parseInt := λ s : string,
    if decide (s = "16px") then 16%float else nan in
  let Number := λ s : string,
    if decide (s = "400") then 400%float else nan in
  let el := Element false [97]%N "P" "" (Rect 0 0 100 20)%float style
              nan nan nan nan in
  insertText parseInt Number [("helvetica", ["normal"])] Object_prototype
    el 0%float 0%float 100%float 1%float None
  = [SetFont (Some "toString") "normal"; SetFontSize 16%float;
     Text [97]%N 0%float 0%float 100%float ""].
Proof. reflexivity. Qed.

(** ** The array helpers: how they compose, what is lost, what makes
    them throw *)

Lemma JSON_stringify_store v h text h0 :
  JSON_stringify v h = Return text h0 → h0 = h.
Proof.
  unfold JSON_stringify.
  destruct (SerializeJSONProperty _ h v); congruence.
Qed.

(** The copy of what is not written as an array is no array, and what
    is not written as an array is none either. *)
Lemma clone_not_array arr h j newArr h1 :
  JSON_stringify arr h = Return (Some j) h →
  (∀ items, j ≠ JArray items) →
  JSON_parse (Some j) h = Return newArr h1 →
  array_of h1 arr = None ∧ array_of h1 newArr = None.
Proof.
  intros Htext Hj Hparse. unfold JSON_parse in Hparse.
  destruct (revive j h) as [v h'] eqn:Hrev. injection Hparse as -> ->.
  destruct (revive_spec j _ _ _ Hrev) as (new & -> & _ & _ & _).
  split.
  - unfold JSON_stringify in Htext.
    destruct arr as [ | | |n| |l| | ]; try done. simpl in *.
    destruct (h !! l) as [[s ps|fields|]|] eqn:Hl; try done.
    + destruct (serialize_items _ s) as [items|]; [|done].
      injection Htext as <-. by destruct (Hj items).
    + by rewrite (lookup_app_l_Some _ _ _ _ Hl).
  - destruct j as [ | | | |items|members]; simpl in Hrev;
      try (by injection Hrev as <- _).
    + by destruct (Hj items).
    + destruct (revive_members revive members h) as [fields h2].
      injection Hrev as <- Hh. rewrite <- Hh. simpl.
      by rewrite list_lookup_middle.
Qed.

(** The helpers, from the copy that [JSON.parse(JSON.stringify(arr))]
    makes. *)
Lemma insertBefore_of_clone arr idx item h h' copies :
  (JSON_stringify arr ≫= JSON_parse) h
  = Return (VRef (length h')) (h' ++ [OArray copies []]) →
  insertBefore arr idx item h
  = Return (VRef (length h'))
      (h' ++ [OArray (inserted (Z.to_nat (actualStart
                                  (Z.of_nat (length copies)) (Z.max 0 idx)))
                        item copies) []]).
Proof.
  intros Hclone. unfold insertBefore. unfold mbind, M_bind in *.
  destruct (JSON_stringify arr h) as [text h0|]; [|done].
  rewrite Hclone. cbv zeta. by rewrite splice_insert_last.
Qed.

Lemma insertAfter_of_clone arr idx item h h' copies l s ps :
  (JSON_stringify arr ≫= JSON_parse) h
  = Return (VRef (length h')) (h' ++ [OArray copies []]) →
  array_of (h' ++ [OArray copies []]) arr = Some (l, s, ps) →
  insertAfter arr idx item h
  = Return (VRef (length h'))
      (h' ++ [OArray (inserted (Z.to_nat (actualStart
                                  (Z.of_nat (length copies))
                                  (Z.min (Z.of_nat (length s)) (idx + 1))))
                        item copies) []]).
Proof.
  intros Hclone Harr. unfold insertAfter. unfold mbind, M_bind in *.
  destruct (JSON_stringify arr h) as [text h0|]; [|done].
  rewrite Hclone. unfold array_length. rewrite Harr.
  cbv zeta. by rewrite splice_insert_last.
Qed.

Lemma swapElements_of_clone arr (i j : nat) h h' copies :
  (JSON_stringify arr ≫= JSON_parse) h
  = Return (VRef (length h')) (h' ++ [OArray copies []]) →
  i < length copies → j < length copies →
  swapElements arr (Z.of_nat i) (Z.of_nat j) h
  = Return (VRef (length h')) (h' ++ [OArray (exchanged i j copies) []]).
Proof.
  intros Hclone Hi Hj.
  destruct (lookup_lt_is_Some_2 copies i) as [ci Hci]; [lia|].
  destruct (lookup_lt_is_Some_2 copies j) as [cj Hcj]; [lia|].
  unfold swapElements. unfold mbind, M_bind in *.
  destruct (JSON_stringify arr h) as [text h0|]; [|done].
  rewrite Hclone, !array_get_last.
  rewrite (read_index_in_range _ _ _ _ Hci), (read_index_in_range _ _ _ _ Hcj).
  rewrite array_set_last, write_index_in_range by lia.
  rewrite array_set_last, write_index_in_range by (rewrite length_insert; lia).
  unfold exchanged. by rewrite Hci, Hcj.
Qed.

(** X15. Inserting after an index is inserting before the next one: for
    every index from -1 on, [insertAfter(arr, idx, item)] and
    [insertBefore(arr, idx + 1, item)] do the same, also when they
    throw. *)
Theorem insertAfter_is_insertBefore_next arr idx item h :
  (-1 ≤ idx)%Z →
  insertAfter arr idx item h = insertBefore arr (idx + 1) item h.
Proof.
  intros Hidx.
  destruct (JSON_stringify arr h) as [[j|] h0|] eqn:Htext;
    [| by unfold insertAfter, insertBefore, mbind, M_bind; rewrite Htext
     | by unfold insertAfter, insertBefore, mbind, M_bind; rewrite Htext].
  pose proof (JSON_stringify_store _ _ _ _ Htext) as ->.
  assert (Hnot : (∀ items, j ≠ JArray items) →
    insertAfter arr idx item h = insertBefore arr (idx + 1) item h).
  { intros Hj. unfold insertAfter, insertBefore, mbind, M_bind.
    rewrite Htext.
    destruct (JSON_parse (Some j) h) as [newArr h1|] eqn:Hparse; [|done].
    destruct (clone_not_array _ _ _ _ _ Htext Hj Hparse) as [Harr HnewArr].
    unfold array_length, splice. by rewrite Harr, HnewArr. }
  destruct j as [ | | | |items|members]; try by apply Hnot.
  destruct (JSON_stringify_array_inv _ _ _ Htext) as (l & s & ps & -> & Hl).
  destruct (clone_array h (VRef l) items Htext)
    as (new & copies & Hclone & _ & _ & Hcopies).
  pose proof (JSON_stringify_array_length _ _ _ _ _ Hl Htext) as Hitems.
  pose proof (Forall2_length _ _ _ Hcopies) as Hlen.
  rewrite (insertBefore_of_clone _ _ _ _ _ _ Hclone).
  rewrite (insertAfter_of_clone _ _ _ _ _ _ l s ps Hclone).
  - rewrite !actualStart_nonneg by lia. do 5 f_equal. lia.
  - unfold array_of. rewrite <- app_assoc.
    by rewrite (lookup_app_l_Some _ _ _ _ Hl).
Qed.

Lemma exchanged_comm {T} (i j : nat) (l : list T) :
  exchanged i j l = exchanged j i l.
Proof.
  unfold exchanged.
  destruct (l !! i) as [x|] eqn:Hi, (l !! j) as [y|] eqn:Hj; try done.
  destruct (decide (i = j)) as [->|Hne]; [by simplify_eq|].
  by apply list_insert_insert_ne.
Qed.

Lemma exchanged_same {T} (i : nat) (l : list T) : exchanged i i l = l.
Proof.
  unfold exchanged. destruct (l !! i) as [x|] eqn:Hi; [|done].
  rewrite list_insert_insert_eq. by apply list_insert_id.
Qed.

(** X16. With both indices in the array, the order in which they are
    given to [swapElements] does not matter, and with twice the same
    index [swapElements] returns the plain copy that
    [JSON.parse(JSON.stringify(arr))] makes. *)
Theorem swapElements_symmetric arr items (i j : nat) h :
  JSON_stringify arr h = Return (Some (JArray items)) h →
  i < length items → j < length items →
  swapElements arr (Z.of_nat i) (Z.of_nat j) h
  = swapElements arr (Z.of_nat j) (Z.of_nat i) h ∧
  swapElements arr (Z.of_nat i) (Z.of_nat i) h
  = (JSON_stringify arr ≫= JSON_parse) h.
Proof.
  intros Htext Hi Hj.
  destruct (clone_array h arr items Htext)
    as (new & copies & Hclone & _ & _ & Hcopies).
  pose proof (Forall2_length _ _ _ Hcopies) as Hlen.
  rewrite !(swapElements_of_clone _ _ _ _ _ _ Hclone) by lia.
  rewrite Hclone, exchanged_same. split; [|done].
  by rewrite exchanged_comm.
Qed.

Lemma insertAfter_is_insertBefore_next_witness :
  insertAfter (VRef 0) 1 (VString "x") store_123
  = insertBefore (VRef 0) 2 (VString "x") store_123.
Proof.
  apply (insertAfter_is_insertBefore_next (VRef 0) 1 (VString "x") store_123).
  lia.
Defined.

Lemma swapElements_symmetric_witness :
  swapElements (VRef 0) 0 2 store_123 = swapElements (VRef 0) 2 0 store_123 ∧
  swapElements (VRef 0) 0 0 store_123
  = (JSON_stringify (VRef 0) ≫= JSON_parse) store_123.
Proof.
  apply (swapElements_symmetric (VRef 0) [JInt 1; JInt 2; JInt 3] 0 2
           store_123).
  - reflexivity.
  - simpl. lia.
  - simpl. lia.
Defined.

(** A primitive value that is no BigInt is written, or left out,
    whatever the nesting allowed, and what is written is read back
    without a new object. *)
Lemma serialize_primitive fuel h v :
  primitive v ∧ ¬ bigint v →
  ∃ j, (SerializeJSONProperty fuel h v = Json j ∨
        SerializeJSONProperty fuel h v = Omitted ∧ j = JNull) ∧
       ∀ h', revive j h' = (json_copy v, h').
Proof.
  intros [Hv Hz].
  destruct v as [ | |b|[q| | |]|t|l|z|id], fuel; try done; simpl; eauto;
    by destruct Hz.
Qed.

(** The elements of an array of such values are all written, and read
    back without a new object. *)
Lemma serialize_primitives fuel h s :
  Forall (λ v, primitive v ∧ ¬ bigint v) s →
  ∃ items, serialize_items (SerializeJSONProperty fuel h) s = Some items ∧
           ∀ h', revive_items revive items h' = (json_copy <$> s, h').
Proof.
  induction 1 as [|v s Hv _ (items & Hitems & Hrev)]; [by exists []|].
  destruct (serialize_primitive fuel h v Hv) as (j & Hser & Hj).
  exists (j :: items). split.
  - cbn [serialize_items].
    destruct Hser as [-> |[-> ->]]; by rewrite Hitems.
  - intros h'. cbn [revive_items]. by rewrite Hj, Hrev.
Qed.

Lemma clone_primitives h l s ps :
  h !! l = Some (OArray s ps) →
  Forall (λ v, primitive v ∧ ¬ bigint v) s →
  (JSON_stringify (VRef l) ≫= JSON_parse) h
  = Return (VRef (length h)) (h ++ [OArray (json_copy <$> s) []]).
Proof.
  intros Hl Hs.
  destruct (serialize_primitives (length h) h s Hs) as (items & Hitems & Hrev).
  unfold mbind, M_bind, JSON_stringify. simpl. rewrite Hl, Hitems.
  unfold JSON_parse. simpl. by rewrite Hrev.
Qed.



(** What throws among the elements of an array, or among the values of
    the fields of an object, makes the whole throw. *)
Lemma serialize_items_thrown ser elems v :
  v ∈ elems → ser v = Thrown → serialize_items ser elems = None.
Proof.
  intros Hin Hv. induction Hin as [v elems|v w elems _ IH]; simpl.
  - by rewrite Hv.
  - rewrite (IH Hv). by destruct (ser w).
Qed.

Lemma serialize_members_thrown ser (fields : list (string * val)) v :
  v ∈ fields.*2 → ser v = Thrown → serialize_members ser fields = None.
Proof.
  intros Hin Hv. induction fields as [|[k w] fields IH]; simpl in *.
  - by apply elem_of_nil in Hin.
  - apply elem_of_cons in Hin as [<-|Hin]; [by rewrite Hv|].
    rewrite (IH Hin). by destruct (ser w).
Qed.

(** From an object of a set each of whose objects refers to one of the
    set, no nesting is deep enough. *)
Lemma serialize_cyclic h (cyclic : loc → Prop) :
  (∀ l, cyclic l → ∃ l', refers h l l' ∧ cyclic l') →
  ∀ fuel l, cyclic l → SerializeJSONProperty fuel h (VRef l) = Thrown.
Proof.
  intros Hclosed. induction fuel as [|fuel IH]; intros l Hl; [done|].
  destruct (Hclosed l Hl) as (l' & Hrefers & Hl'). simpl.
  unfold refers in Hrefers.
  destruct (h !! l) as [[elems ps|fields|]|]; try done.
  - by rewrite (serialize_items_thrown _ _ _ Hrefers (IH l' Hl')).
  - by rewrite (serialize_members_thrown _ _ _ Hrefers (IH l' Hl')).
Qed.

(** X18. A cyclic structure makes the helpers throw. Let each object of
    a set have one of the set among its elements or the values of its
    fields, so that from each a cycle of references is reached. On an
    array of the set [JSON.stringify] throws, and with it
    [insertBefore], [insertAfter] and [swapElements], whatever the
    indices and the item. *)
Theorem array_helpers_throw_on_cycle h (cyclic : loc → Prop) l
    idx idx2 item :
  (∀ l, cyclic l → ∃ l', refers h l l' ∧ cyclic l') →
  cyclic l →
  JSON_stringify (VRef l) h = Throw ∧
  insertBefore (VRef l) idx item h = Throw ∧
  insertAfter (VRef l) idx item h = Throw ∧
  swapElements (VRef l) idx idx2 h = Throw.
Proof.
  intros Hclosed Hl.
  assert (JSON_stringify (VRef l) h = Throw) as Htext.
  { unfold JSON_stringify.
    by rewrite (serialize_cyclic h cyclic Hclosed _ l Hl). }
  unfold insertBefore, insertAfter, swapElements, mbind, M_bind.
  by rewrite Htext.
Qed.

Lemma array_helpers_throw_on_cycle_witness :
  let h := [OArray [VInt 1; VRef 1] []; OObject [("parent", VRef 0)]] in
  JSON_stringify (VRef 0) h = Throw ∧
  insertBefore (VRef 0) 0 (VInt 2) h = Throw ∧
  insertAfter (VRef 0) 0 (VInt 2) h = Throw ∧
  swapElements (VRef 0) 0 1 h = Throw.
Proof.
  intros h.
  apply (array_helpers_throw_on_cycle h (λ l, l = 0 ∨ l = 1) 0 0 1 (VInt 2)).
  - intros l [->| ->].
    + exists 1. split; [|by right]. unfold refers. simpl.
      rewrite !elem_of_cons. auto.
    + exists 0. split; [|by left]. unfold refers. simpl.
      rewrite !elem_of_cons. auto.
  - by left.
Defined.

(** X21. A BigInt among the elements of the array makes
    [JSON.stringify] throw, and with it [insertBefore], [insertAfter]
    and [swapElements], whatever the indices and the item. *)
Theorem array_helpers_throw_on_bigint h l s ps idx idx2 item :
  h !! l = Some (OArray s ps) → Exists bigint s →
  JSON_stringify (VRef l) h = Throw ∧
  insertBefore (VRef l) idx item h = Throw ∧
  insertAfter (VRef l) idx item h = Throw ∧
  swapElements (VRef l) idx idx2 h = Throw.
Proof.
  intros Hl (v & Hin & Hv)%Exists_exists.
  assert (JSON_stringify (VRef l) h = Throw) as Htext.
  { unfold JSON_stringify. simpl. rewrite Hl.
    rewrite (serialize_items_thrown _ _ v Hin); [done|].
    by destruct v, (length h). }
  unfold insertBefore, insertAfter, swapElements, mbind, M_bind.
  by rewrite Htext.
Qed.

Lemma array_helpers_throw_on_bigint_witness :
  let h := [OArray [VInt 1; VBigInt 2] []] in
  JSON_stringify (VRef 0) h = Throw ∧
  insertBefore (VRef 0) 0 (VInt 3) h = Throw ∧
  insertAfter (VRef 0) 0 (VInt 3) h = Throw ∧
  swapElements (VRef 0) 0 1 h = Throw.
Proof.
  intros h.
  apply (array_helpers_throw_on_bigint h 0 [VInt 1; VBigInt 2] [] 0 1
           (VInt 3)).
  - reflexivity.
  - apply Exists_cons_tl, Exists_cons_hd. exact I.
Defined.

(** ** [findLicense] *)

(** What [find] returns is the first element that passes. *)
Lemma find_first {A} (f : A → bool) (l : list A) :
  match List.find f l with
  | Some x => ∃ before after, l = before ++ x :: after ∧ f x = true ∧
                              Forall (λ y, f y = false) before
  | None => Forall (λ y, f y = false) l
  end.
Proof.
  induction l as [|a l IH]; simpl; [done|].
  destruct (f a) eqn:Ha.
  - by exists [], l.
  - destruct (List.find f l) as [x|].
    + destruct IH as (before & after & -> & Hx & Hbefore).
      exists (a :: before), after. auto.
    + by constructor.
Qed.

Lemma num_strict_eq_true a b : num_strict_eq a b = true → a = b.
Proof.
  destruct a, b; simpl; try done.
  intros H. by apply bool_decide_eq_true in H as ->.
Qed.

Lemma num_strict_eq_refl a : isNaN a = false → num_strict_eq a a = true.
Proof. destruct a; simpl; try done. intros _. by apply bool_decide_eq_true. Qed.

Lemma num_strict_eq_NaN a : num_strict_eq a NaN = false.
Proof. by destruct a. Qed.

Section LicenseFacts.
Context {license : Type}.
Variable id : license → number.
Variable license_name : license → string.
Variable LicensesList : list license.
Variable parseInt10 : license_key → number.

Local Abbreviation matches := (license_matches id license_name parseInt10).

(** X19. Looking a license up by its id finds it. Let the ids of the
    list tell its licenses apart, and let [parseInt] read the id of one
    of them, which is not [NaN], as itself: with that id for key
    [findLicense] returns that license, whatever the default. *)
Theorem findLicense_by_id {D} (lic : license) (defaultValue : D) :
  lic ∈ LicensesList →
  (∀ l1 l2, l1 ∈ LicensesList → l2 ∈ LicensesList →
            id l1 = id l2 → l1 = l2) →
  isNaN (id lic) = false →
  parseInt10 (KeyNumber (id lic)) = id lic →
  findLicense id license_name LicensesList parseInt10
    (KeyNumber (id lic)) defaultValue
  = inl lic.
Proof.
  intros Hin Hids Hnan Hparse. unfold findLicense.
  pose proof (find_first (matches (KeyNumber (id lic))) LicensesList) as Hfind.
  destruct (List.find _ LicensesList) as [found|].
  - destruct Hfind as (before & after & Hlist & Hfound & _).
    f_equal. apply Hids; [|done|].
    + rewrite Hlist, elem_of_app, elem_of_cons. auto.
    + unfold license_matches in Hfound. simpl in Hfound.
      rewrite Hparse in Hfound. by apply num_strict_eq_true.
  - rewrite Forall_forall in Hfind. specialize (Hfind lic Hin).
    unfold license_matches in Hfind. simpl in Hfind.
    by rewrite Hparse, num_strict_eq_refl in Hfind.
Qed.

(** X20. A key that [parseInt] reads as [NaN] is looked up by name
    only: [findLicense] returns the first license of the list whose
    [license_name] is the key, and the default when no license has that
    name; so it does for every key that is a number. *)
Theorem findLicense_by_name {D} key (defaultValue : D) :
  parseInt10 key = NaN →
  match findLicense id license_name LicensesList parseInt10
          key defaultValue with
  | inl lic =>
      ∃ before after,
        LicensesList = before ++ lic :: after ∧
        key = KeyString (license_name lic) ∧
        Forall (λ l, key ≠ KeyString (license_name l)) before
  | inr d =>
      d = defaultValue ∧
      Forall (λ l, key ≠ KeyString (license_name l)) LicensesList
  end.
Proof.
  intros Hparse. unfold findLicense.
  assert (Hmatch : ∀ l, matches key l = true ↔
                        key = KeyString (license_name l)).
  { intros l. unfold license_matches.
    rewrite Hparse, num_strict_eq_NaN, orb_false_r.
    destruct key as [n|s]; [done|].
    rewrite bool_decide_eq_true. split; [by intros ->|congruence]. }
  assert (Hnone : ∀ l, Forall (λ y, matches key y = false) l →
                       Forall (λ y, key ≠ KeyString (license_name y)) l).
  { intros l Hl. apply (Forall_impl _ _ _ Hl). intros y Hy Hkey.
    apply Hmatch in Hkey. congruence. }
  pose proof (find_first (matches key) LicensesList) as Hfind.
  destruct (List.find _ LicensesList) as [found|].
  - destruct Hfind as (before & after & Hlist & Hfound & Hbefore).
    exists before, after. split; [done|]. split; [by apply Hmatch|].
    by apply Hnone.
  - split; [done|]. by apply Hnone.
Qed.
End LicenseFacts.

Lemma findLicense_by_id_witness :
  let licenses := [(VInt 1, "CC BY"); (VInt 2, "CC BY-SA")] in
  findLicense (λ l, match l.1 with VNumber n => n | _ => NaN end) snd
    licenses (λ key, match key with KeyNumber n => n | _ => NaN end)
    (KeyNumber (num_of_Z 2)) ()
  = inl (VInt 2, "CC BY-SA").
Proof.
  intros licenses.
  apply (findLicense_by_id
           (λ l : val * string, match l.1 with VNumber n => n | _ => NaN end)
           snd licenses
           (λ key, match key with KeyNumber n => n | _ => NaN end)
           (VInt 2, "CC BY-SA") ()).
  - unfold licenses. rewrite !elem_of_cons. auto.
  - unfold licenses. intros l1 l2 H1 H2.
    rewrite !elem_of_cons, elem_of_nil in H1, H2.
    destruct H1 as [-> |[-> |[]]], H2 as [-> |[-> |[]]]; simpl; try done;
      intros H; injection H as H; by apply (f_equal Qcanon.this) in H.
  - reflexivity.
  - reflexivity.
Defined.

Lemma findLicense_by_name_witness :
  let licenses := [(VInt 1, "CC BY"); (VInt 2, "CC BY-SA")] in
  match findLicense (λ l, match l.1 with VNumber n => n | _ => NaN end) snd
          licenses (λ key, match key with KeyNumber n => n | _ => NaN end)
          (KeyString "CC BY-SA") () with
  | inl lic =>
      ∃ before after,
        licenses = before ++ lic :: after ∧
        KeyString "CC BY-SA" = KeyString lic.2 ∧
        Forall (λ l : val * string, KeyString "CC BY-SA" ≠ KeyString l.2)
          before
  | inr d =>
      d = () ∧
      Forall (λ l : val * string, KeyString "CC BY-SA" ≠ KeyString l.2)
        licenses
  end.
Proof.
  intros licenses.
  apply (findLicense_by_name
           (λ l : val * string, match l.1 with VNumber n => n | _ => NaN end)
           snd licenses
           (λ key, match key with KeyNumber n => n | _ => NaN end)
           (KeyString "CC BY-SA") ()).
  reflexivity.
Defined.
